(** * OpenClaw Hivemind: join protocol, message store and gossip engine

    A shallow embedding of [src/crypto.ts], [src/protocol.ts], the Bun
    server ([src/server.ts]) and the Durable-Object worker
    ([src/worker.ts]), with the properties of the specification stated
    and settled over it.

    Conventions of the embedding.
    - JavaScript strings are [string]; an optional JSON field is an
      [option string] ([None] is [undefined]/[null]).
    - JavaScript numbers that carry identifiers, limits and epoch
      milliseconds are [JS.num]: an integer, [NaN] or an infinity.
    - [Date.now()] and [crypto.randomUUID()] are inputs of the handler that
      calls them; a request reads the clock once.
    - A handler that can raise returns an [exc]; where the store is changed
      before the exception, the changed store is returned with it.
    - [ensureAlarm] and [setInterval] only schedule the next poll cycle.
      A handler runs to its end on the store; an iteration of a poll
      cycle awaits the peer's answer, so it is two steps on the store, the
      read of the cursor and the merge of the answer, and whatever else is
      due runs between them. *)

From Stdlib Require Import ZArith Lia DecimalString.
From stdpp Require Import gmap strings list fin_maps sorting.

Local Open Scope string_scope.
Local Open Scope list_scope.
Local Open Scope Z_scope.

(** ** JavaScript values *)

Module JS.

(** Numbers, as far as the program uses them: [Number(x)] of a query
    parameter or of a JSON field, identifiers and epoch milliseconds. *)
Inductive num : Set :=
| NaN
| NegInf
| Fin (z : Z)
| PosInf.

Global Instance num_eq_dec : EqDecision num.
Proof. solve_decision. Defined.

(** [Number.isFinite] *)
Definition isFinite (x : num) : bool :=
  match x with Fin _ => true | _ => false end.

(** [Number.isNaN] *)
Definition isNaN (x : num) : bool :=
  match x with NaN => true | _ => false end.

(** Truthiness of a number: [0] and [NaN] are falsy. *)
Definition truthy (x : num) : bool :=
  match x with
  | NaN => false
  | Fin z => negb (z =? 0)
  | _ => true
  end.

(** [a > b]; every comparison with [NaN] is false. *)
Definition gt (a b : num) : bool :=
  match a, b with
  | NaN, _ | _, NaN => false
  | NegInf, _ => false
  | _, PosInf => false
  | PosInf, _ => true
  | Fin _, NegInf => true
  | Fin x, Fin y => y <? x
  end.

(** [a >= b] *)
Definition ge (a b : num) : bool :=
  match a, b with
  | NaN, _ | _, NaN => false
  | _, NegInf => true
  | PosInf, _ => true
  | NegInf, _ => false
  | Fin _, PosInf => false
  | Fin x, Fin y => y <=? x
  end.

(** [Math.max(a, b)] *)
Definition max (a b : num) : num :=
  match a, b with
  | NaN, _ | _, NaN => NaN
  | PosInf, _ | _, PosInf => PosInf
  | NegInf, y => y
  | x, NegInf => x
  | Fin x, Fin y => Fin (Z.max x y)
  end.

(** [Math.min(a, b)] *)
Definition min (a b : num) : num :=
  match a, b with
  | NaN, _ | _, NaN => NaN
  | NegInf, _ | _, NegInf => NegInf
  | PosInf, y => y
  | x, PosInf => x
  | Fin x, Fin y => Fin (Z.min x y)
  end.

(** Unary minus. *)
Definition neg (a : num) : num :=
  match a with
  | NaN => NaN
  | NegInf => PosInf
  | PosInf => NegInf
  | Fin z => Fin (- z)
  end.

(** Truthiness of an optional string: [undefined], [null] and the empty
    string are falsy. *)
Definition truthy_str (s : option string) : bool :=
  match s with
  | Some s => negb (String.eqb s "")
  | None => false
  end.

(** [a ?? b] *)
Definition nullish {A} (a : option A) (b : A) : A :=
  match a with Some x => x | None => b end.

(** [n !== x] for a length [n] and a property [x] of a library object,
    [None] when the object has no such property: a number is never
    strictly equal to [undefined]. *)
Definition differs (n : nat) (x : option nat) : bool :=
  match x with
  | Some k => negb (n =? k)%nat
  | None => true
  end.

(** [Array.prototype.slice(start)]: the start index goes through
    [ToIntegerOrInfinity] ([NaN] becomes [0]) and a negative index counts
    from the end. *)
Definition slice {A} (l : list A) (start : num) : list A :=
  match start with
  | NaN | NegInf => l
  | PosInf => []
  | Fin z =>
      if z <? 0
      then drop (Z.to_nat (Z.max (Z.of_nat (length l) + z) 0)) l
      else drop (Z.to_nat z) l
  end.

End JS.

(** ** Exceptions *)

Inductive exc (A : Type) : Type :=
| Ret (a : A)
| Throw (e : string).
Arguments Ret {A} a.
Arguments Throw {A} e.

Definition exc_bind {A B} (m : exc A) (k : A → exc B) : exc B :=
  match m with
  | Ret a => k a
  | Throw e => Throw e
  end.

Notation "x ←! m ; k" := (exc_bind m (fun x => k))
  (at level 100, m at next level, right associativity).

(** ** The platform

    What the program imports and does not define: the base64 and base58
    decoders, the Ed25519 check of tweetnacl ([crypto_sign_verify], on a
    signature of 64 bytes and a key of 32), and the [Date] conversions.
    A decoder that raises returns [None]; [Date_parse] returns [None] for
    [NaN]. *)

Class Platform := {
  Buffer_from_base64 : string → option (list Byte.byte);
  bs58_decode : string → option (list Byte.byte);
  crypto_sign_verify : list Byte.byte → list Byte.byte → list Byte.byte → bool;
  Date_parse : string → option Z;
  Date_iso : Z → string
}.

(** The largest time value of a [Date], [8.64e15] milliseconds. *)
Definition MAX_TIME_VALUE : Z := 8640000000000000.

Section Crypto.
Context `{Platform}.

(** [nacl.sign.publicKeyLength] and [nacl.sign.signatureLength], the
    constants of tweetnacl: the sizes of an Ed25519 public key and of a
    detached signature, on which [nacl.sign.detached.verify] insists. *)
Definition publicKeyLength : nat := 32.
Definition signatureLength : nat := 64.

(** [nacl.sign.detached.signatureLength], the property [crypto.ts] compares
    the length of a signature with. tweetnacl gives the function
    [nacl.sign.detached] one property, [verify]; the length of a signature
    is [nacl.sign.signatureLength]. Reading the property yields
    [undefined]. *)
Definition detached_signatureLength : option nat := None.

(** [new TextEncoder().encode] *)
Definition encode (s : string) : list Byte.byte := String.list_byte_of_string s.

(** [nacl.sign.detached.verify] (tweetnacl): raises on a signature or a
    key of the wrong size, and returns the result of the check
    otherwise. *)
Definition nacl_sign_detached_verify (msg sig pk : list Byte.byte) : exc bool :=
  if negb (length sig =? signatureLength)%nat then Throw "bad signature size"
  else if negb (length pk =? publicKeyLength)%nat then Throw "bad public key size"
  else Ret (crypto_sign_verify msg sig pk).

(** [verifyMessage] of [crypto.ts]. The [try] block covers the two
    decoders only. The second test compares the length of the signature
    with [undefined], so it sends every signature to [return false]. *)
Definition verifyMessage (message signature pubkey : string) : exc bool :=
  let msgBytes := encode message in
  match Buffer_from_base64 signature, bs58_decode pubkey with
  | Some sigBytes, Some pubkeyBytes =>
      if JS.differs (length pubkeyBytes) (Some publicKeyLength) then Ret false
      else if JS.differs (length sigBytes) detached_signatureLength then Ret false
      else nacl_sign_detached_verify msgBytes sigBytes pubkeyBytes
  | _, _ => Ret false
  end.

(** [verifyEd25519Base64] of [crypto.ts]: the same two tests, the one on
    the signature first. *)
Definition verifyEd25519Base64 (message signatureBase64 publicKeyBase64 : string)
  : exc bool :=
  let msgBytes := encode message in
  match Buffer_from_base64 signatureBase64, Buffer_from_base64 publicKeyBase64 with
  | Some sigBytes, Some pubBytes =>
      if JS.differs (length sigBytes) detached_signatureLength then Ret false
      else if JS.differs (length pubBytes) (Some publicKeyLength) then Ret false
      else nacl_sign_detached_verify msgBytes sigBytes pubBytes
  | _, _ => Ret false
  end.

(** [isValidSolanaPublicKey] of [crypto.ts] *)
Definition isValidSolanaPublicKey (pubkey : string) : bool :=
  match bs58_decode pubkey with
  | Some bytes => (length bytes =? publicKeyLength)%nat
  | None => false
  end.

End Crypto.

(** ** Data model (shared by [server.ts] and [worker.ts]) *)

Record Challenge := {
  ch_agentId : string;
  ch_pubkey : string;
  ch_nonce : string;
  ch_hiveId : string;
  ch_expiresAt : string
}.

Record Session := {
  se_agentId : string;
  se_pubkey : string;
  se_hiveId : string;
  se_expiresAt : Z
}.

Global Instance Challenge_eq_dec : EqDecision Challenge.
Proof. solve_decision. Defined.

Global Instance Session_eq_dec : EqDecision Session.
Proof. solve_decision. Defined.

Inductive Source := local | gossip.

Global Instance Source_eq_dec : EqDecision Source.
Proof. solve_decision. Defined.

(** A stored message. [agentId] and [content] are declared [string] in the
    source but are copied unchecked from a peer's record by the poll loop,
    so they can be [undefined] at run time; [createdAtMs] can be [NaN]. *)
Record HiveMessage := {
  id : Z;
  uid : string;
  ts : string;
  createdAtMs : JS.num;
  agentId : option string;
  hiveId : string;
  content : option string;
  channel : string;
  source : Source
}.

Global Instance HiveMessage_eq_dec : EqDecision HiveMessage.
Proof. solve_decision. Defined.

(** The argument of [storeMessage]. Its type omits [id], but the poll loop
    of [server.ts] passes an object that has one ([id: 0]), and the spread
    [{ id: ..., ...input }] lets it win. *)
Record MessageInput := {
  in_id : option Z;
  in_uid : string;
  in_ts : string;
  in_createdAtMs : JS.num;
  in_agentId : option string;
  in_hiveId : string;
  in_content : option string;
  in_channel : string;
  in_source : Source
}.

(** [{ id, ...input }] *)
Definition with_id (i : Z) (input : MessageInput) : HiveMessage :=
  {| id := JS.nullish (in_id input) i;
     uid := in_uid input;
     ts := in_ts input;
     createdAtMs := in_createdAtMs input;
     agentId := in_agentId input;
     hiveId := in_hiveId input;
     content := in_content input;
     channel := in_channel input;
     source := in_source input |}.

(** A record of a gossip payload, as parsed from JSON: every field may be
    missing. [w_createdAtMs] is [Number(msg.createdAtMs)]. An element of
    the array that is [null] is [None] in a [list (option WireMessage)]. *)
Record WireMessage := {
  w_uid : option string;
  w_ts : option string;
  w_createdAtMs : JS.num;
  w_agentId : option string;
  w_hiveId : option string;
  w_content : option string;
  w_channel : option string
}.

(** The body of [POST /join]. *)
Record JoinBody := {
  agent_id : option string;
  pubkey : option string;
  nonce : option string;
  signature : option string;
  timestamp : option string;
  hive_id : option string;
  expires_at : option string;
  openclaw_device_public_key : option string;
  openclaw_device_signature : option string;
  openclaw_device_nonce : option string;
  openclaw_device_signed_at : option string
}.

(** The body of a successful [POST /join]. *)
Record JoinOk := {
  session_token : string;
  jo_expires_at : string;
  jo_agent_id : string;
  jo_hive_id : string
}.

(** The body of [POST /challenge]. *)
Record ChallengeBody := {
  cb_agent_id : option string;
  cb_pubkey : option string;
  cb_hive_id : option string
}.

Record ChallengeOk := {
  co_nonce : string;
  co_hive_id : string;
  co_expires_at : string
}.

(** The counts of [POST /gossip/push]. *)
Record PushOk := {
  accepted : Z;
  skipped : Z
}.

(** Responses: [ok(data)] or [json(status, { error })]. *)
Inductive Response (A : Type) : Type :=
| OK (data : A)
| Error (code : Z) (error : string).
Arguments OK {A} data.
Arguments Error {A} code error.

Definition status {A} (r : Response A) : Z :=
  match r with
  | OK _ => 200
  | Error c _ => c
  end.

Definition badRequest {A} (message : string) : Response A := Error 400 message.
Definition unauthorized {A} (message : string) : Response A := Error 401 message.

Definition CHALLENGE_TTL_MS : Z := 2 * 60 * 1000.
Definition SESSION_TTL_MS : Z := 24 * 60 * 60 * 1000.
Definition MAX_CLOCK_SKEW_MS : Z := 2 * 60 * 1000.
Definition MAX_MESSAGES_LIMIT : Z := 200.
Definition MAX_GOSSIP_BATCH : Z := 500.

Definition PROTOCOL_VERSION : string := "OPENCLAW_HIVEMIND_V1".

Definition newline : string := String (Ascii.ascii_of_nat 10) EmptyString.

(** [buildJoinMessage] of [protocol.ts] *)
Definition buildJoinMessage
  (agentId pubkey nonce hiveId challengeExpiresAt timestamp : string) : string :=
  String.concat newline
    [PROTOCOL_VERSION; agentId; pubkey; nonce; hiveId; challengeExpiresAt; timestamp].

(** Configuration read from the environment. *)
Record Config := {
  HIVE_ID : string;
  GOSSIP_TOKEN : string;
  GOSSIP_PEERS : list string;
  OPENCLAW_DEVICE_PROOF_REQUIRED : bool;
  OPENCLAW_DEVICE_PROOF_TTL_MS : JS.num
}.

Section Shared.
Context `{Platform}.

(** [Date.parse] as a number. *)
Definition Date_parse_num (s : string) : JS.num :=
  match Date_parse s with
  | Some z => JS.Fin z
  | None => JS.NaN
  end.

(** [new Date(x).toISOString()]: a time value that is not finite, or
    beyond [8.64e15] in absolute value, gives an invalid date, for which
    [toISOString] raises a [RangeError]. *)
Definition Date_toISOString (x : JS.num) : exc string :=
  match x with
  | JS.Fin z =>
      if Z.abs z <=? MAX_TIME_VALUE then Ret (Date_iso z)
      else Throw "RangeError: Invalid time value"
  | _ => Throw "RangeError: Invalid time value"
  end.

(** [verifyOpenClawDeviceProof] *)
Definition verifyOpenClawDeviceProof (cfg : Config) (now : Z)
  (devicePublicKey deviceSignature deviceNonce deviceSignedAt : string) : exc bool :=
  match Date_parse deviceSignedAt with
  | None => Ret false
  | Some signedAtMs =>
      if JS.gt (JS.Fin (Z.abs (now - signedAtMs))) (OPENCLAW_DEVICE_PROOF_TTL_MS cfg)
      then Ret false
      else verifyEd25519Base64 deviceNonce deviceSignature devicePublicKey
  end.

(** [authorizeGossip]: [header] is the [x-hivemind-gossip] header. *)
Definition authorizeGossip (cfg : Config) (header : option string) : bool :=
  if negb (JS.truthy_str (Some (GOSSIP_TOKEN cfg))) then true
  else bool_decide (header = Some (GOSSIP_TOKEN cfg)).

(** The timestamp and the creation time a gossip record is stored with:
    [ts = msg.ts ?? new Date(createdAtMs || Date.now()).toISOString()] and
    [Number.isFinite(createdAtMs) ? createdAtMs : Date.parse(ts)]. *)
Definition normalize_ts (now : Z) (msg : WireMessage) : exc string :=
  match w_ts msg with
  | Some t => Ret t
  | None =>
      Date_toISOString
        (if JS.truthy (w_createdAtMs msg) then w_createdAtMs msg else JS.Fin now)
  end.

Definition normalize_createdAtMs (msg : WireMessage) (ts : string) : JS.num :=
  if JS.isFinite (w_createdAtMs msg) then w_createdAtMs msg else Date_parse_num ts.

(** The object both gossip paths hand to [storeMessage], given the
    record's [uid] and [hiveId] (already checked by the caller). *)
Definition normalize (i : option Z) (uid hiveId ts : string) (msg : WireMessage)
  : MessageInput :=
  {| in_id := i;
     in_uid := uid;
     in_ts := ts;
     in_createdAtMs := normalize_createdAtMs msg ts;
     in_agentId := w_agentId msg;
     in_hiveId := hiveId;
     in_content := w_content msg;
     in_channel := JS.nullish (w_channel msg) "default";
     in_source := gossip |}.

(** [JSON.stringify] of a stored message followed by [JSON.parse] and
    [Number(msg.createdAtMs)] at the receiving peer: an [undefined] field
    is dropped and [NaN] is written as [null], which [Number] reads as
    [0]. *)
Definition to_wire (m : HiveMessage) : WireMessage :=
  {| w_uid := Some (uid m);
     w_ts := Some (ts m);
     w_createdAtMs :=
       match createdAtMs m with
       | JS.Fin z => JS.Fin z
       | _ => JS.Fin 0
       end;
     w_agentId := agentId m;
     w_hiveId := Some (hiveId m);
     w_content := content m;
     w_channel := Some (channel m) |}.

End Shared.

(** The body of [POST /message]. *)
Record MessageBody := {
  mb_content : option string;
  mb_channel : option string
}.

(** The body of [GET /messages] and of [GET /gossip/messages]. *)
Record MessagesOk := {
  mo_hive_id : string;
  mo_messages : list HiveMessage
}.

(** What a [POST /join] does to the stores: nothing, the deletion of the
    challenge kept under a nonce, or that deletion followed by the
    recording of a session under a fresh token. *)
Inductive JoinEffect :=
| Keep
| DeleteChallenge (nonce : string)
| Establish (nonce : string) (token : string) (session : Session).

(** ** The handlers the two servers share

    [POST /challenge] and [POST /join] are the same code in [server.ts] and
    in [worker.ts] up to the store they read and write (a [Map] per kind in
    the first, the keys [challenge:<nonce>] and [session:<token>] of the
    Durable Object storage in the second) and the session token (the UUID
    itself, or the UUID prefixed by the hive and a dot). Both are written
    once, over the map of challenges, with the token as a parameter. *)

Section Handlers.
Context `{Platform} (cfg : Config).

(** The session token minted from a hive and a UUID. *)
Variable mint : string → string → string.

(** A challenge [cleanupChallenges] removes:
    [Date.parse(challenge.expiresAt) <= now]. *)
Definition stale (now : Z) (c : Challenge) : bool :=
  match Date_parse (ch_expiresAt c) with
  | Some e => e <=? now
  | None => false
  end.

(** [cleanupChallenges] *)
Definition cleanupChallenges (now : Z) (chs : gmap string Challenge)
  : gmap string Challenge :=
  filter (λ kc, stale now kc.2 = false) chs.

(** [POST /challenge]; [uuid] is the value of [randomUUID()] and [hive]
    the server's hive ([HIVE_ID], or [this.hiveId]). *)
Definition challenge_handler (hive : string) (now : Z) (uuid : string)
  (body : option ChallengeBody) (chs : gmap string Challenge)
  : Response ChallengeOk * gmap string Challenge :=
  match body with
  | Some {| cb_agent_id := Some a; cb_pubkey := Some p; cb_hive_id := h |} =>
      if negb (JS.truthy_str (Some a)) || negb (JS.truthy_str (Some p))
      then (badRequest "agent_id and pubkey are required", chs)
      else if negb (isValidSolanaPublicKey p)
      then (badRequest "pubkey is not a valid Solana public key", chs)
      else
        let chs := cleanupChallenges now chs in
        let expiresAt := Date_iso (now + CHALLENGE_TTL_MS) in
        let hiveId := JS.nullish h hive in
        (OK {| co_nonce := uuid; co_hive_id := hiveId; co_expires_at := expiresAt |},
         <[uuid := {| ch_agentId := a; ch_pubkey := p; ch_nonce := uuid;
                      ch_hiveId := hiveId; ch_expiresAt := expiresAt |}]> chs)
  | _ => (badRequest "agent_id and pubkey are required", chs)
  end.

(** The five fields [POST /join] requires, when all are truthy. *)
Definition required_join_fields (body : option JoinBody)
  : option (JoinBody * string * string * string * string * string) :=
  match body with
  | None => None
  | Some b =>
      match agent_id b, pubkey b, nonce b, signature b, timestamp b with
      | Some a, Some p, Some n, Some s, Some t =>
          if JS.truthy_str (Some a) && JS.truthy_str (Some p) && JS.truthy_str (Some n)
             && JS.truthy_str (Some s) && JS.truthy_str (Some t)
          then Some (b, a, p, n, s, t)
          else None
      | _, _, _, _, _ => None
      end
  end.

(** The device-proof step of [POST /join]: [None] when the step passes,
    the rejection otherwise. *)
Definition device_proof_step (now : Z) (b : JoinBody) : exc (option string) :=
  let deviceFieldsProvided :=
    JS.truthy_str (openclaw_device_public_key b)
    || JS.truthy_str (openclaw_device_signature b)
    || JS.truthy_str (openclaw_device_nonce b)
    || JS.truthy_str (openclaw_device_signed_at b) in
  if OPENCLAW_DEVICE_PROOF_REQUIRED cfg || deviceFieldsProvided then
    match openclaw_device_public_key b, openclaw_device_signature b,
          openclaw_device_nonce b, openclaw_device_signed_at b with
    | Some dpk, Some dsig, Some dnonce, Some dat =>
        if JS.truthy_str (Some dpk) && JS.truthy_str (Some dsig)
           && JS.truthy_str (Some dnonce) && JS.truthy_str (Some dat)
        then
          proofOk ←! verifyOpenClawDeviceProof cfg now dpk dsig dnonce dat;
          Ret (if proofOk : bool then None
               else Some "invalid OpenClaw device proof")
        else Ret (Some "missing OpenClaw device proof fields")
    | _, _, _, _ => Ret (Some "missing OpenClaw device proof fields")
    end
  else Ret None.

(** [POST /join], as a response and the effect on the stores. *)
Definition join_handler (now : Z) (uuid : string) (body : option JoinBody)
  (chs : gmap string Challenge) : exc (Response JoinOk * JoinEffect) :=
  match required_join_fields body with
  | None =>
      Ret (badRequest "agent_id, pubkey, nonce, signature, timestamp are required",
           Keep)
  | Some (b, b_agent_id, b_pubkey, b_nonce, b_signature, b_timestamp) =>
      match chs !! b_nonce with
      | None => Ret (unauthorized "challenge not found or expired", Keep)
      | Some ch =>
          if negb (bool_decide (ch_agentId ch = b_agent_id))
             || negb (bool_decide (ch_pubkey ch = b_pubkey))
          then Ret (unauthorized "challenge does not match agent_id or pubkey", Keep)
          else if negb (bool_decide
                          (ch_hiveId ch = JS.nullish (hive_id b) (ch_hiveId ch)))
          then Ret (unauthorized "hive_id mismatch", Keep)
          else if negb (bool_decide
                          (ch_expiresAt ch
                           = JS.nullish (expires_at b) (ch_expiresAt ch)))
          then Ret (unauthorized "expires_at mismatch", Keep)
          else
            match Date_parse (ch_expiresAt ch) with
            | None => Ret (unauthorized "challenge expired", DeleteChallenge b_nonce)
            | Some challengeExpiry =>
                if challengeExpiry <? now
                then Ret (unauthorized "challenge expired", DeleteChallenge b_nonce)
                else
                  match Date_parse b_timestamp with
                  | None => Ret (badRequest "timestamp must be an ISO string", Keep)
                  | Some timestampMs =>
                      if Z.abs (now - timestampMs) >? MAX_CLOCK_SKEW_MS
                      then Ret (unauthorized "timestamp outside allowed clock skew",
                                Keep)
                      else
                        proof ←! device_proof_step now b;
                        match proof with
                        | Some err => Ret (unauthorized err, Keep)
                        | None =>
                            let message :=
                              buildJoinMessage (ch_agentId ch) (ch_pubkey ch)
                                (ch_nonce ch) (ch_hiveId ch) (ch_expiresAt ch)
                                b_timestamp in
                            valid ←! verifyMessage message b_signature (ch_pubkey ch);
                            if negb valid
                            then Ret (unauthorized "invalid signature", Keep)
                            else
                              let token := mint (ch_hiveId ch) uuid in
                              let session :=
                                {| se_agentId := ch_agentId ch;
                                   se_pubkey := ch_pubkey ch;
                                   se_hiveId := ch_hiveId ch;
                                   se_expiresAt := now + SESSION_TTL_MS |} in
                              Ret (OK {| session_token := token;
                                         jo_expires_at :=
                                           Date_iso (se_expiresAt session);
                                         jo_agent_id := se_agentId session;
                                         jo_hive_id := se_hiveId session |},
                                   Establish b_nonce token session)
                        end
                  end
            end
      end
  end.

(** The effect of a join on the map of challenges and on the map of
    sessions. *)
Definition effect_challenges (e : JoinEffect) (chs : gmap string Challenge)
  : gmap string Challenge :=
  match e with
  | Keep => chs
  | DeleteChallenge n | Establish n _ _ => delete n chs
  end.

Definition effect_sessions (e : JoinEffect) (ses : gmap string Session)
  : gmap string Session :=
  match e with
  | Establish _ token session => <[token := session]> ses
  | _ => ses
  end.

(** [requireSession] over the map of sessions; [token] is the result of
    [parseAuthToken]. *)
Definition requireSession (now : Z) (token : option string)
  (ses : gmap string Session) : option Session * gmap string Session :=
  match token with
  | None => (None, ses)
  | Some t =>
      match ses !! t with
      | None => (None, ses)
      | Some session =>
          if se_expiresAt session <? now
          then (None, delete t ses)
          else (Some session, ses)
      end
  end.

End Handlers.

(** ** The gossip loops

    The loop of [pollPeers] and the loop of [POST /gossip/push] are the same
    code in both servers up to [storeMessage] and the place the peer cursor
    is kept. A [GossipHost] is what a server provides to them. *)

Class GossipHost (S : Type) := {
  (** [storeMessage] *)
  store_message : MessageInput → S → option HiveMessage * S;
  (** [peerCursors.get(peer)], or the storage key [peer:<peer>:cursor] *)
  cursor_get : string → S → option Z;
  (** [peerCursors.set(peer, v)], or a [put] under that key *)
  cursor_put : string → Z → S → S;
  (** the [id] field of the object the poll loop hands to [storeMessage]:
      [server.ts] builds a whole [HiveMessage] with [id: 0], [worker.ts]
      passes no [id] *)
  poll_id : option Z
}.

Section Gossip.
Context `{Platform} {S : Type} `{!GossipHost S}.

(** The guard of the poll loop,
    [if (!msg || msg.hiveId !== HIVE_ID || !msg.uid) continue]:
    the record and its [uid] when the loop goes on to store it. *)
Definition poll_candidate (hive : string) (msg : option WireMessage)
  : option (WireMessage * string) :=
  match msg with
  | Some m =>
      match w_uid m with
      | Some u =>
          if bool_decide (w_hiveId m = Some hive) && JS.truthy_str (Some u)
          then Some (m, u) else None
      | None => None
      end
  | None => None
  end.

(** The two guards of the push loop:
    [!msg || !msg.uid || !msg.agentId || !msg.hiveId || !msg.content], then
    [msg.hiveId !== HIVE_ID]. *)
Definition push_candidate (hive : string) (msg : option WireMessage)
  : option (WireMessage * string) :=
  match msg with
  | Some m =>
      match w_uid m with
      | Some u =>
          if JS.truthy_str (Some u) && JS.truthy_str (w_agentId m)
             && JS.truthy_str (w_hiveId m) && JS.truthy_str (w_content m)
          then if bool_decide (w_hiveId m = Some hive) then Some (m, u) else None
          else None
      | None => None
      end
  | None => None
  end.

(** [maxSeen] after a call of [storeMessage]. *)
Definition bump (maxSeen : Z) (stored : option HiveMessage) : Z :=
  match stored with
  | Some m =>
      match createdAtMs m with
      | JS.Fin created => Z.max maxSeen created
      | _ => maxSeen
      end
  | None => maxSeen
  end.

(** The [for] loop of [pollPeers] over one peer's batch. An exception
    leaves the loop with the state reached so far. *)
Fixpoint poll_loop (hive : string) (now : Z) (incoming : list (option WireMessage))
  (maxSeen : Z) (st : S) : S * exc Z :=
  match incoming with
  | [] => (st, Ret maxSeen)
  | msg :: rest =>
      match poll_candidate hive msg with
      | None => poll_loop hive now rest maxSeen st
      | Some (m, u) =>
          match normalize_ts now m with
          | Throw e => (st, Throw e)
          | Ret ts =>
              let '(stored, st) := store_message (normalize poll_id u hive ts m) st in
              poll_loop hive now rest (bump maxSeen stored) st
          end
      end
  end.

(** The messages the loop stores, in order (a reading of the loop; the
    program keeps no such list). *)
Fixpoint poll_accepted (hive : string) (now : Z) (incoming : list (option WireMessage))
  (st : S) : list HiveMessage :=
  match incoming with
  | [] => []
  | msg :: rest =>
      match poll_candidate hive msg with
      | None => poll_accepted hive now rest st
      | Some (m, u) =>
          match normalize_ts now m with
          | Throw e => []
          | Ret ts =>
              let '(stored, st) := store_message (normalize poll_id u hive ts m) st in
              match stored with
              | Some s => s :: poll_accepted hive now rest st
              | None => poll_accepted hive now rest st
              end
          end
      end
  end.

(** One iteration of [pollPeers] falls in two parts, with the [await] of
    the peer's answer ([fetch], then [res.json()]) between them. The first
    reads the cursor, [sinceMs = peerCursors.get(peer) ?? 0], and sends it
    as [since_ms]. The second, [poll_merge], runs when the answer is
    there, on the store as it is by then: the loop, started from
    [maxSeen = sinceMs], and the write of the cursor under the test
    [maxSeen > sinceMs], both with the [sinceMs] read in the first part.
    While the iteration awaits, the server runs whatever else is due: a
    request, or another call of [pollPeers] that [setInterval] starts
    (nothing keeps two calls from overlapping), so the cursor in the store
    need no longer be [sinceMs].

    The peer's answer is [None] when the fetch fails, the status is not a
    success, or the body is not JSON (the [continue] and the [catch]), and
    otherwise the value of
    [Array.isArray(payload.messages) ? payload.messages : []]. The cursor
    is written after the loop, inside the [try]. *)
Definition poll_read (peer : string) (st : S) : Z :=
  default 0 (cursor_get peer st).

Definition poll_merge (hive : string) (now : Z) (peer : string) (sinceMs : Z)
  (answer : option (list (option WireMessage))) (st : S) : S :=
  match answer with
  | None => st
  | Some incoming =>
      match poll_loop hive now incoming sinceMs st with
      | (st, Ret maxSeen) =>
          if maxSeen >? sinceMs then cursor_put peer maxSeen st else st
      | (st, Throw _) => st
      end
  end.

(** An iteration during which nothing else runs: the answer is merged
    into the store the cursor was read from. *)
Definition poll_peer (hive : string) (now : Z) (peer : string)
  (answer : option (list (option WireMessage))) (st : S) : S :=
  poll_merge hive now peer (poll_read peer st) answer st.

(** [pollPeers], as a cycle during which nothing else runs: [answers]
    gives each peer's answer in this cycle. *)
Definition pollPeers (hive : string) (now : Z) (peers : list string)
  (answers : string → option (list (option WireMessage))) (st : S) : S :=
  foldl (λ st peer, poll_peer hive now peer (answers peer) st) st peers.

(** The [for] loop of [POST /gossip/push]. *)
Fixpoint push_loop (hive : string) (now : Z) (incoming : list (option WireMessage))
  (counts : PushOk) (st : S) : S * exc PushOk :=
  match incoming with
  | [] => (st, Ret counts)
  | msg :: rest =>
      match push_candidate hive msg with
      | None =>
          push_loop hive now rest
            {| accepted := accepted counts; skipped := skipped counts + 1 |} st
      | Some (m, u) =>
          match normalize_ts now m with
          | Throw e => (st, Throw e)
          | Ret ts =>
              let '(stored, st) := store_message (normalize None u hive ts m) st in
              push_loop hive now rest
                (match stored with
                 | Some _ =>
                     {| accepted := accepted counts + 1; skipped := skipped counts |}
                 | None =>
                     {| accepted := accepted counts; skipped := skipped counts + 1 |}
                 end) st
          end
      end
  end.

(** [POST /gossip/push]: [header] is the [x-hivemind-gossip] header and
    [incoming] the value of
    [Array.isArray(body?.messages) ? body?.messages : []]. *)
Definition gossip_push (cfg : Config) (hive : string) (now : Z)
  (header : option string) (incoming : list (option WireMessage)) (st : S)
  : S * exc (Response PushOk) :=
  if negb (authorizeGossip cfg header)
  then (st, Ret (unauthorized "invalid gossip token"))
  else
    match push_loop hive now incoming {| accepted := 0; skipped := 0 |} st with
    | (st, Ret counts) => (st, Ret (OK counts))
    | (st, Throw e) => (st, Throw e)
    end.

End Gossip.

Global Arguments poll_candidate : simpl never.
Global Arguments push_candidate : simpl never.
Global Arguments normalize_ts : simpl never.

(** The effective limit of [GET /messages] and of the worker's
    [GET /gossip/messages]: [Math.min(ceiling, Math.max(1, Number(limitParam)))]. *)
Definition effective_limit (ceiling : Z) (limitParam : JS.num) : JS.num :=
  JS.min (JS.Fin ceiling) (JS.max (JS.Fin 1) limitParam).

(** [Number.isNaN(since) ? 0 : since] *)
Definition since_or_zero (since : JS.num) : JS.num :=
  if JS.isNaN since then JS.Fin 0 else since.

(** ** The Bun server, [src/server.ts] *)

Module Bun.

(** The module-level state: [challenges], [sessions], [messages],
    [messageIds], [peerCursors] and [nextMessageId]. *)
Record State := {
  challenges : gmap string Challenge;
  sessions : gmap string Session;
  messages : list HiveMessage;
  messageIds : gset string;
  peerCursors : gmap string Z;
  nextMessageId : Z
}.

Global Instance Bun_State_eq_dec : EqDecision State.
Proof. solve_decision. Defined.

Definition initial : State :=
  {| challenges := ∅; sessions := ∅; messages := []; messageIds := ∅;
     peerCursors := ∅; nextMessageId := 1 |}.

Definition set_challenges (chs : gmap string Challenge) (st : State) : State :=
  {| challenges := chs; sessions := sessions st;
     messages := messages st; messageIds := messageIds st;
     peerCursors := peerCursors st; nextMessageId := nextMessageId st |}.

Definition set_sessions (ses : gmap string Session) (st : State) : State :=
  {| challenges := challenges st; sessions := ses;
     messages := messages st; messageIds := messageIds st;
     peerCursors := peerCursors st; nextMessageId := nextMessageId st |}.

Definition set_peerCursors (cur : gmap string Z) (st : State) : State :=
  {| challenges := challenges st; sessions := sessions st;
     messages := messages st; messageIds := messageIds st;
     peerCursors := cur; nextMessageId := nextMessageId st |}.

(** [storeMessage] *)
Definition storeMessage (input : MessageInput) (st : State)
  : option HiveMessage * State :=
  if bool_decide (in_uid input ∈ messageIds st) then (None, st)
  else
    let message := with_id (nextMessageId st) input in
    (Some message,
     {| challenges := challenges st; sessions := sessions st;
        messages := messages st ++ [message];
        messageIds := {[uid message]} ∪ messageIds st;
        peerCursors := peerCursors st;
        nextMessageId := nextMessageId st + 1 |}).

Global Instance host : GossipHost State := {|
  store_message := storeMessage;
  cursor_get peer st := peerCursors st !! peer;
  cursor_put peer v st := set_peerCursors (<[peer := v]> (peerCursors st)) st;
  poll_id := Some 0
|}.

Section Server.
Context `{Platform} (cfg : Config).

(** The session token is the UUID. *)
Definition mint (hive uuid : string) : string := uuid.

(** [POST /challenge] *)
Definition challenge (now : Z) (uuid : string) (body : option ChallengeBody)
  (st : State) : Response ChallengeOk * State :=
  let '(r, chs) := challenge_handler (HIVE_ID cfg) now uuid body (challenges st) in
  (r, set_challenges chs st).

(** [POST /join] *)
Definition join (now : Z) (uuid : string) (body : option JoinBody) (st : State)
  : exc (Response JoinOk * State) :=
  match join_handler cfg mint now uuid body (challenges st) with
  | Ret (r, e) =>
      Ret (r, set_sessions (effect_sessions e (sessions st))
                (set_challenges (effect_challenges e (challenges st)) st))
  | Throw err => Throw err
  end.

(** [POST /message]; [uuid] is the value of [randomUUID()]. *)
Definition post_message (now : Z) (uuid : string) (token : option string)
  (body : option MessageBody) (st : State) : Response HiveMessage * State :=
  let '(session, ses) := requireSession now token (sessions st) in
  let st := set_sessions ses st in
  match session with
  | None => (unauthorized "missing or expired session", st)
  | Some session =>
      match body with
      | Some {| mb_content := Some c; mb_channel := ch |} =>
          if negb (JS.truthy_str (Some c))
          then (badRequest "content is required", st)
          else
            let '(message, st) :=
              storeMessage
                {| in_id := None; in_uid := uuid; in_ts := Date_iso now;
                   in_createdAtMs := JS.Fin now;
                   in_agentId := Some (se_agentId session);
                   in_hiveId := se_hiveId session;
                   in_content := Some c;
                   in_channel := JS.nullish ch "default";
                   in_source := local |} st in
            match message with
            | None => (Error 500 "failed to store message", st)
            | Some m => (OK m, st)
            end
      | _ => (badRequest "content is required", st)
      end
  end.

(** [GET /messages]; [since] and [limitParam] are
    [Number(url.searchParams.get("since") ?? "0")] and
    [Number(url.searchParams.get("limit") ?? "50")]. *)
Definition get_messages (now : Z) (token : option string)
  (since limitParam : JS.num) (st : State) : Response MessagesOk * State :=
  let '(session, ses) := requireSession now token (sessions st) in
  let st := set_sessions ses st in
  match session with
  | None => (unauthorized "missing or expired session", st)
  | Some session =>
      let limit := effective_limit 200 limitParam in
      let filtered :=
        filter (λ msg, bool_decide (hiveId msg = se_hiveId session)
                       && JS.gt (JS.Fin (id msg)) (since_or_zero since))
          (messages st) in
      (OK {| mo_hive_id := se_hiveId session;
             mo_messages := JS.slice filtered (JS.neg limit) |}, st)
  end.

(** [GET /gossip/messages]; [hive_id] is the query parameter and
    [sinceMs] is [Number(url.searchParams.get("since_ms") ?? "0")]. *)
Definition gossip_messages (header : option string) (hive_id : option string)
  (sinceMs : JS.num) (st : State) : Response MessagesOk :=
  if negb (authorizeGossip cfg header) then unauthorized "invalid gossip token"
  else
    let hiveId_ := JS.nullish hive_id (HIVE_ID cfg) in
    let filtered :=
      filter (λ msg, bool_decide (hiveId msg = hiveId_)
                     && JS.ge (createdAtMs msg) (since_or_zero sinceMs))
        (messages st) in
    OK {| mo_hive_id := hiveId_; mo_messages := filtered |}.

(** [POST /gossip/push] *)
Definition push (now : Z) (header : option string)
  (incoming : list (option WireMessage)) (st : State)
  : State * exc (Response PushOk) :=
  gossip_push cfg (HIVE_ID cfg) now header incoming st.

(** [pollPeers] *)
Definition poll (now : Z) (answers : string → option (list (option WireMessage)))
  (st : State) : State :=
  pollPeers (HIVE_ID cfg) now (GOSSIP_PEERS cfg) answers st.

End Server.
End Bun.

(** ** The Durable Object, [src/worker.ts] ([HivemindHive]) *)

Module Worker.

(** The object's [hiveId] field and its storage. The storage is one
    key-value store; the keys the program uses fall into disjoint
    families by prefix, each a map here: [challenge:<nonce>],
    [session:<token>], [msg:<id>], [uid:<uid>], [meta:nextMessageId] and
    [peer:<peer>:cursor]. A message key is the identifier padded to
    twelve digits, so keys order as identifiers do below [10^12]. *)
Record State := {
  this_hiveId : string;
  challenges : gmap string Challenge;
  sessions : gmap string Session;
  msgs : gmap Z HiveMessage;
  uids : gmap string Z;
  meta_nextMessageId : option Z;
  cursors : gmap string Z
}.

Global Instance Worker_State_eq_dec : EqDecision State.
Proof. solve_decision. Defined.

(** A fresh object: [this.hiveId = env.HIVE_ID ?? DEFAULT_HIVE_ID]. *)
Definition initial (cfg : Config) : State :=
  {| this_hiveId := HIVE_ID cfg; challenges := ∅; sessions := ∅; msgs := ∅;
     uids := ∅; meta_nextMessageId := None; cursors := ∅ |}.

Definition set_hiveId (h : string) (st : State) : State :=
  {| this_hiveId := h; challenges := challenges st; sessions := sessions st;
     msgs := msgs st; uids := uids st;
     meta_nextMessageId := meta_nextMessageId st; cursors := cursors st |}.

Definition set_challenges (chs : gmap string Challenge) (st : State) : State :=
  {| this_hiveId := this_hiveId st; challenges := chs; sessions := sessions st;
     msgs := msgs st; uids := uids st;
     meta_nextMessageId := meta_nextMessageId st; cursors := cursors st |}.

Definition set_sessions (ses : gmap string Session) (st : State) : State :=
  {| this_hiveId := this_hiveId st; challenges := challenges st; sessions := ses;
     msgs := msgs st; uids := uids st;
     meta_nextMessageId := meta_nextMessageId st; cursors := cursors st |}.

Definition set_cursors (cur : gmap string Z) (st : State) : State :=
  {| this_hiveId := this_hiveId st; challenges := challenges st;
     sessions := sessions st; msgs := msgs st; uids := uids st;
     meta_nextMessageId := meta_nextMessageId st; cursors := cur |}.

(** [nextMessageId] *)
Definition nextMessageId (st : State) : Z * State :=
  let current := default 1 (meta_nextMessageId st) in
  (current,
   {| this_hiveId := this_hiveId st; challenges := challenges st;
      sessions := sessions st; msgs := msgs st; uids := uids st;
      meta_nextMessageId := Some (current + 1); cursors := cursors st |}).

(** [storeMessage]: the value under the [uid:] key is the identifier, and
    [if (existing)] tests its truthiness. *)
Definition storeMessage (input : MessageInput) (st : State)
  : option HiveMessage * State :=
  if JS.truthy (from_option JS.Fin JS.NaN (uids st !! in_uid input)) then (None, st)
  else
    let '(i, st) := nextMessageId st in
    let message := with_id i input in
    (Some message,
     {| this_hiveId := this_hiveId st; challenges := challenges st;
        sessions := sessions st;
        msgs := <[i := message]> (msgs st);
        uids := <[in_uid input := i]> (uids st);
        meta_nextMessageId := meta_nextMessageId st; cursors := cursors st |}).

Global Instance host : GossipHost State := {|
  store_message := storeMessage;
  cursor_get peer st := cursors st !! peer;
  cursor_put peer v st := set_cursors (<[peer := v]> (cursors st)) st;
  poll_id := None
|}.

(** The order of two entries by key. *)
Definition key_le (a b : Z * HiveMessage) : Prop := a.1 ≤ b.1.

Global Instance key_le_dec : RelDecision key_le.
Proof. intros a b. unfold key_le. apply _. Defined.

(** The entries under the prefix [msg:], in key order. *)
Definition entries (m : gmap Z HiveMessage) : list (Z * HiveMessage) :=
  merge_sort key_le (map_to_list m).

(** [storage.list({ prefix: "msg:", limit, reverse: true })]: the [limit]
    last entries in key order, last first. What the storage does with a
    [limit] that is not a positive integer is not in the source; it is
    taken to raise the runtime's [TypeError], and no property below rests
    on that case. *)
Definition storage_list (limit : JS.num) (m : gmap Z HiveMessage)
  : exc (list HiveMessage) :=
  match limit with
  | JS.Fin k =>
      if 0 <? k then Ret (take (Z.to_nat k) (reverse (entries m)).*2)
      else Throw "TypeError: List limit must be positive."
  | _ => Throw "TypeError: The value cannot be converted because it is not an integer."
  end.

Section Object.
Context `{Platform} (cfg : Config).

(** The session token is the hive, a dot, and the UUID. *)
Definition mint (hive uuid : string) : string := hive +:+ "." +:+ uuid.

(** The head of [fetch]: [if (hiveHeader) this.hiveId = hiveHeader],
    with the [x-hive-id] header the router sets. *)
Definition enter (hiveHeader : option string) (st : State) : State :=
  match hiveHeader with
  | Some h => if JS.truthy_str (Some h) then set_hiveId h st else st
  | None => st
  end.

(** [POST /challenge]. ([ensureAlarm], here and below, only schedules
    the next [alarm] and touches no key of the storage.) *)
Definition challenge (hiveHeader : option string) (now : Z) (uuid : string)
  (body : option ChallengeBody) (st : State) : Response ChallengeOk * State :=
  let st := enter hiveHeader st in
  let '(r, chs) := challenge_handler (this_hiveId st) now uuid body (challenges st) in
  (r, set_challenges chs st).

(** [POST /join] *)
Definition join (hiveHeader : option string) (now : Z) (uuid : string)
  (body : option JoinBody) (st : State) : exc (Response JoinOk * State) :=
  let st := enter hiveHeader st in
  match join_handler cfg mint now uuid body (challenges st) with
  | Ret (r, e) =>
      Ret (r, set_sessions (effect_sessions e (sessions st))
                (set_challenges (effect_challenges e (challenges st)) st))
  | Throw err => Throw err
  end.

(** [POST /message] *)
Definition post_message (hiveHeader : option string) (now : Z) (uuid : string)
  (token : option string) (body : option MessageBody) (st : State)
  : Response HiveMessage * State :=
  let st := enter hiveHeader st in
  let '(session, ses) := requireSession now token (sessions st) in
  let st := set_sessions ses st in
  match session with
  | None => (unauthorized "missing or expired session", st)
  | Some session =>
      match body with
      | Some {| mb_content := Some c; mb_channel := ch |} =>
          if negb (JS.truthy_str (Some c))
          then (badRequest "content is required", st)
          else
            let '(message, st) :=
              storeMessage
                {| in_id := None; in_uid := uuid; in_ts := Date_iso now;
                   in_createdAtMs := JS.Fin now;
                   in_agentId := Some (se_agentId session);
                   in_hiveId := se_hiveId session;
                   in_content := Some c;
                   in_channel := JS.nullish ch "default";
                   in_source := local |} st in
            match message with
            | None => (Error 500 "failed to store message", st)
            | Some m => (OK m, st)
            end
      | _ => (badRequest "content is required", st)
      end
  end.

(** [GET /messages] *)
Definition get_messages (hiveHeader : option string) (now : Z)
  (token : option string) (since limitParam : JS.num) (st : State)
  : State * exc (Response MessagesOk) :=
  let st := enter hiveHeader st in
  let '(session, ses) := requireSession now token (sessions st) in
  let st := set_sessions ses st in
  match session with
  | None => (st, Ret (unauthorized "missing or expired session"))
  | Some session =>
      let limit := effective_limit MAX_MESSAGES_LIMIT limitParam in
      match storage_list limit (msgs st) with
      | Throw e => (st, Throw e)
      | Ret list =>
          let messages :=
            filter (λ msg, JS.gt (JS.Fin (id msg)) (since_or_zero since)) list in
          (st, Ret (OK {| mo_hive_id := se_hiveId session;
                          mo_messages := reverse messages |}))
      end
  end.

(** [GET /gossip/messages]; [limitParam] is
    [Number(url.searchParams.get("limit") ?? String(MAX_GOSSIP_BATCH))]. *)
Definition gossip_messages (hiveHeader : option string) (header : option string)
  (sinceMs limitParam : JS.num) (st : State) : State * exc (Response MessagesOk) :=
  let st := enter hiveHeader st in
  if negb (authorizeGossip cfg header)
  then (st, Ret (unauthorized "invalid gossip token"))
  else
    let limit := effective_limit MAX_GOSSIP_BATCH limitParam in
    match storage_list limit (msgs st) with
    | Throw e => (st, Throw e)
    | Ret list =>
        let messages :=
          filter (λ msg, JS.ge (createdAtMs msg) (since_or_zero sinceMs)) list in
        (st, Ret (OK {| mo_hive_id := this_hiveId st;
                        mo_messages := reverse messages |}))
    end.

(** [POST /gossip/push] *)
Definition push (hiveHeader : option string) (now : Z) (header : option string)
  (incoming : list (option WireMessage)) (st : State)
  : State * exc (Response PushOk) :=
  let st := enter hiveHeader st in
  gossip_push cfg (this_hiveId st) now header incoming st.

(** [alarm], that is [pollPeers] with the configured peers
    ([this.gossipPeers]). *)
Definition alarm (now : Z) (answers : string → option (list (option WireMessage)))
  (st : State) : State :=
  pollPeers (this_hiveId st) now (GOSSIP_PEERS cfg) answers st.

End Object.
End Worker.

(** ** The preconditions of a join

    The checks [POST /join] makes, in order, once the five required fields
    are there and the nonce names a stored challenge [ch]; [a] and [p] are
    the body's [agent_id] and [pubkey], [t] its [timestamp], [s] its
    [signature]. *)

Section Preconditions.
Context `{Platform} (cfg : Config).

(** The binding fields match: the challenge was issued to [a] with the key
    [p], and the body's [hive_id] and [expires_at], when it carries them,
    are the challenge's. *)
Definition bound (ch : Challenge) (b : JoinBody) (a p : string) : Prop :=
  ch_agentId ch = a ∧ ch_pubkey ch = p
  ∧ ch_hiveId ch = JS.nullish (hive_id b) (ch_hiveId ch)
  ∧ ch_expiresAt ch = JS.nullish (expires_at b) (ch_expiresAt ch).

Global Instance bound_dec (ch : Challenge) (b : JoinBody) (a p : string) :
  Decision (bound ch b a p).
Proof. unfold bound. apply _. Defined.

(** The challenge has not expired: its expiry reads as an instant that is
    not before [now]. *)
Definition unexpired (now : Z) (ch : Challenge) : Prop :=
  ∃ e, Date_parse (ch_expiresAt ch) = Some e ∧ now ≤ e.

(** The timestamp is within the clock skew. *)
Definition timely (now : Z) (t : string) : Prop :=
  ∃ tms, Date_parse t = Some tms ∧ Z.abs (now - tms) ≤ MAX_CLOCK_SKEW_MS.

(** The message the signature is checked against. *)
Definition canonical (ch : Challenge) (t : string) : string :=
  buildJoinMessage (ch_agentId ch) (ch_pubkey ch) (ch_nonce ch) (ch_hiveId ch)
    (ch_expiresAt ch) t.

(** [s] is a signature of the message [msg] under the key [p]: it decodes
    to 64 bytes, [p] to 32, and the Ed25519 check accepts them. *)
Definition signed_by (msg s p : string) : Prop :=
  ∃ sigBytes pubkeyBytes,
    Buffer_from_base64 s = Some sigBytes ∧ bs58_decode p = Some pubkeyBytes
    ∧ length sigBytes = signatureLength ∧ length pubkeyBytes = publicKeyLength
    ∧ crypto_sign_verify (encode msg) sigBytes pubkeyBytes = true.

End Preconditions.

(** ** A join that answers a challenge

    [answers cfg hive now now' n a p h b]: the body [b], received at time
    [now'], answers the challenge issued at time [now] under the nonce [n]
    to the agent [a] with the public key [p] and the requested hive [h], by
    a server whose own hive is [hive]. The identity is syntactically valid,
    the body repeats the challenge, the challenge has not expired
    ([Date.parse] reading back the instant [toISOString] wrote), the
    timestamp is within the clock skew, the device-proof step passes, and
    the body's signature is a signature of the canonical message under
    [p]. *)

Section Answers.
Context `{Platform} (cfg : Config).

Record answers (hive : string) (now now' : Z) (n a p : string) (h : option string)
  (b : JoinBody) : Prop := {
  an_agent : agent_id b = Some a ∧ a ≠ "";
  an_pubkey : pubkey b = Some p ∧ p ≠ "" ∧ isValidSolanaPublicKey p = true;
  an_nonce : nonce b = Some n ∧ n ≠ "";
  an_hive : JS.nullish (hive_id b) (JS.nullish h hive) = JS.nullish h hive;
  an_expires :
    JS.nullish (expires_at b) (Date_iso (now + CHALLENGE_TTL_MS))
    = Date_iso (now + CHALLENGE_TTL_MS);
  an_iso :
    Date_parse (Date_iso (now + CHALLENGE_TTL_MS)) = Some (now + CHALLENGE_TTL_MS);
  an_fresh : now' ≤ now + CHALLENGE_TTL_MS;
  an_timestamp :
    ∃ t tms, timestamp b = Some t ∧ t ≠ "" ∧ Date_parse t = Some tms
             ∧ Z.abs (now' - tms) ≤ MAX_CLOCK_SKEW_MS;
  an_device : device_proof_step cfg now' b = Ret None;
  an_signature :
    ∃ sig t, signature b = Some sig ∧ sig ≠ "" ∧ timestamp b = Some t
             ∧ signed_by
                 (buildJoinMessage a p n (JS.nullish h hive)
                    (Date_iso (now + CHALLENGE_TTL_MS)) t) sig p
}.

End Answers.

(** ** The stores a server can be in

    The fresh store, and the store any handler, or the merge of any
    answer into it, leaves. A poll cycle is a sequence of merges. *)

Inductive Bun_reachable `{Platform} (cfg : Config) : Bun.State → Prop :=
| Bun_fresh : Bun_reachable cfg Bun.initial
| Bun_after_challenge st now uuid body :
    Bun_reachable cfg st → Bun_reachable cfg (Bun.challenge cfg now uuid body st).2
| Bun_after_join st now uuid body r st' :
    Bun_reachable cfg st → Bun.join cfg now uuid body st = Ret (r, st') →
    Bun_reachable cfg st'
| Bun_after_post st now uuid token body :
    Bun_reachable cfg st → Bun_reachable cfg (Bun.post_message now uuid token body st).2
| Bun_after_get st now token since limitParam :
    Bun_reachable cfg st →
    Bun_reachable cfg (Bun.get_messages now token since limitParam st).2
| Bun_after_push st now header incoming :
    Bun_reachable cfg st → Bun_reachable cfg (Bun.push cfg now header incoming st).1
| Bun_after_merge st now peer sinceMs answer :
    Bun_reachable cfg st →
    Bun_reachable cfg (poll_merge (HIVE_ID cfg) now peer sinceMs answer st).

Inductive Worker_reachable `{Platform} (cfg : Config) : Worker.State → Prop :=
| Worker_fresh : Worker_reachable cfg (Worker.initial cfg)
| Worker_after_challenge st hiveHeader now uuid body :
    Worker_reachable cfg st →
    Worker_reachable cfg (Worker.challenge hiveHeader now uuid body st).2
| Worker_after_join st hiveHeader now uuid body r st' :
    Worker_reachable cfg st →
    Worker.join cfg hiveHeader now uuid body st = Ret (r, st') →
    Worker_reachable cfg st'
| Worker_after_post st hiveHeader now uuid token body :
    Worker_reachable cfg st →
    Worker_reachable cfg (Worker.post_message hiveHeader now uuid token body st).2
| Worker_after_get st hiveHeader now token since limitParam :
    Worker_reachable cfg st →
    Worker_reachable cfg
      (Worker.get_messages hiveHeader now token since limitParam st).1
| Worker_after_gossip st hiveHeader header sinceMs limitParam :
    Worker_reachable cfg st →
    Worker_reachable cfg
      (Worker.gossip_messages cfg hiveHeader header sinceMs limitParam st).1
| Worker_after_push st hiveHeader now header incoming :
    Worker_reachable cfg st →
    Worker_reachable cfg (Worker.push cfg hiveHeader now header incoming st).1
| Worker_after_merge st now peer sinceMs answer :
    Worker_reachable cfg st →
    Worker_reachable cfg
      (poll_merge (Worker.this_hiveId st) now peer sinceMs answer st).

(** ** Invariants of the stores *)

(** [server.ts]: [messageIds] holds the [uid]s of [messages], and no two
    messages share a [uid]. *)
Definition Bun_wf (st : Bun.State) : Prop :=
  (∀ u, u ∈ Bun.messageIds st ↔ ∃ m, m ∈ Bun.messages st ∧ uid m = u)
  ∧ NoDup (uid <$> Bun.messages st).

(** The identifier [nextMessageId] will hand out. *)
Definition Worker_next (st : Worker.State) : Z :=
  default 1 (Worker.meta_nextMessageId st).

(** [worker.ts]: identifiers start at 1, every message sits under a key
    below the next identifier, and the [uid:] keys index the messages. *)
Record Worker_wf (st : Worker.State) : Prop := {
  wf_next : 1 ≤ Worker_next st;
  wf_msgs : ∀ i m, Worker.msgs st !! i = Some m →
                   1 ≤ i < Worker_next st ∧ Worker.uids st !! uid m = Some i;
  wf_uids : ∀ u i, Worker.uids st !! u = Some i →
                   ∃ m, Worker.msgs st !! i = Some m ∧ uid m = u
}.

(** A record for which the loops can produce a timestamp: it carries
    [ts], or [new Date(createdAtMs || Date.now())] is a valid date. *)
Definition has_timestamp `{Platform} (now : Z) (m : WireMessage) : Prop :=
  ∃ ts, normalize_ts now m = Ret ts.

(** The outcome of a push with one more record skipped. *)
Definition one_more_skipped {S : Type} (out : S * exc PushOk) : S * exc PushOk :=
  match out with
  | (st, Ret counts) =>
      (st, Ret {| accepted := accepted counts; skipped := skipped counts + 1 |})
  | (st, Throw e) => (st, Throw e)
  end.

(** The records of an answer of [GET /messages] or [GET /gossip/messages]. *)
Definition messages_of (r : Response MessagesOk) : list HiveMessage :=
  match r with
  | OK body => mo_messages body
  | Error _ _ => []
  end.

(** ** What the gossip loops rely on

    The facts about a server's store that the loops need, stated once for
    both servers: [holds st m] says the message [m] is in the log, and
    [known st u] that the [uid] [u] is in the index [storeMessage]
    consults. *)

Class HostSpec (S : Type) `{!GossipHost S} := {
  inv : S → Prop;
  holds : S → HiveMessage → Prop;
  known : S → string → Prop;
  known_dec st u : Decision (known st u);
  known_holds st u : inv st → known st u ↔ ∃ m, holds st m ∧ uid m = u;
  holds_uid_inj st m m' :
    inv st → holds st m → holds st m' → uid m = uid m' → m = m';
  store_known st i :
    inv st → known st (in_uid i) → store_message i st = (None, st);
  store_fresh st i :
    inv st → ¬ known st (in_uid i) →
    ∃ k st', store_message i st = (Some (with_id k i), st')
             ∧ ∀ m, holds st' m ↔ holds st m ∨ m = with_id k i;
  store_inv st i : inv st → inv (store_message i st).2;
  store_cursor st i p : cursor_get p (store_message i st).2 = cursor_get p st;
  cursor_put_get st p v q :
    cursor_get q (cursor_put p v st) = if decide (p = q) then Some v else cursor_get q st;
  cursor_put_inv st p v : inv st → inv (cursor_put p v st);
  cursor_put_holds st p v m : holds (cursor_put p v st) m ↔ holds st m
}.

(** [maxSeen] after the messages of a list were accepted in turn. *)
Definition high_water (maxSeen : Z) (stored : list HiveMessage) : Z :=
  foldl (λ c m, match createdAtMs m with JS.Fin x => Z.max c x | _ => c end)
    maxSeen stored.

(** The [uid]s of the messages a store holds for a hive. *)
Definition hive_uid {S : Type} `{HostSpec S} (st : S) (hive u : string) : Prop :=
  ∃ m, holds st m ∧ hiveId m = hive ∧ uid m = u.

(** ** Two servers that poll each other

    [A] and [B] serve the same hive and each has the other as a peer:
    [peer_b] is the name under which [A] knows [B], and [peer_a] the name
    under which [B] knows [A]. A turn is one iteration of [pollPeers]:
    the polling server reads its cursor for the peer, fetches
    [/gossip/messages?since_ms=<cursor>&hive_id=<hive>] from it, and
    merges the answer. *)

(** The header a polling server sends:
    [GOSSIP_TOKEN ? { "x-hivemind-gossip": GOSSIP_TOKEN } : undefined]. *)
Definition gossip_header (cfg : Config) : option string :=
  if JS.truthy_str (Some (GOSSIP_TOKEN cfg)) then Some (GOSSIP_TOKEN cfg) else None.

(** What the poll loop reads from a peer's answer: nothing unless the
    status is a success ([if (!res.ok) continue]), and otherwise the
    records the peer serialized. *)
Definition wire_answer (r : Response MessagesOk) : option (list (option WireMessage)) :=
  match r with
  | OK body => Some ((λ m, Some (to_wire m)) <$> mo_messages body)
  | Error _ _ => None
  end.

(** The answer of a Bun server, and of a worker (to which the router
    passes the [hive_id] of the query as [x-hive-id]; the poll sends no
    [limit], so the default of [MAX_GOSSIP_BATCH] applies). *)
Definition Bun_serve (cfg : Config) (header : option string) (hive : string)
  (since : Z) (st : Bun.State) : option (list (option WireMessage)) :=
  wire_answer (Bun.gossip_messages cfg header (Some hive) (JS.Fin since) st).

Definition Worker_serve (cfg : Config) (header : option string) (hive : string)
  (since : Z) (st : Worker.State) : option (list (option WireMessage)) :=
  match (Worker.gossip_messages cfg (Some hive) header (JS.Fin since)
           (JS.Fin MAX_GOSSIP_BATCH) st).2 with
  | Ret r => wire_answer r
  | Throw _ => None
  end.

Inductive turn := A_polls_B | B_polls_A.

Global Instance turn_eq_dec : EqDecision turn.
Proof. solve_decision. Defined.

Section Pair.
Context `{Platform} {SA SB : Type} `{!GossipHost SA} `{!GossipHost SB}.
Context `{!HostSpec SA} `{!HostSpec SB}.
Variable serve_a : string → Z → SA → option (list (option WireMessage)).
Variable serve_b : string → Z → SB → option (list (option WireMessage)).
Variables (hive peer_a peer_b : string).

(** One turn, at time [now]. *)
Definition step (t : turn) (now : Z) (ab : SA * SB) : SA * SB :=
  match t with
  | A_polls_B =>
      (poll_peer hive now peer_b
         (serve_b hive (default 0 (cursor_get peer_b ab.1)) ab.2) ab.1, ab.2)
  | B_polls_A =>
      (ab.1, poll_peer hive now peer_a
               (serve_a hive (default 0 (cursor_get peer_a ab.2)) ab.1) ab.2)
  end.

(** A sequence of turns, each with its time. *)
Definition run (schedule : list (turn * Z)) (ab : SA * SB) : SA * SB :=
  foldl (λ ab t, step t.1 t.2 ab) ab schedule.

(** The two stores hold the same [uid]s for the hive. *)
Definition converged (ab : SA * SB) : Prop :=
  ∀ u, hive_uid ab.1 hive u ↔ hive_uid ab.2 hive u.

End Pair.

Section Sync.
Context {X Y : Type} `{!GossipHost X} `{!GossipHost Y} `{!HostSpec X} `{!HostSpec Y}.

(** Whatever [y] holds for the hive and [x] lacks, [x] can still fetch: it
    has a [uid], and a [createdAtMs] that is a number not below the cursor
    [x] keeps for [y]. *)
Definition fetchable (hive peer : string) (x : X) (y : Y) : Prop :=
  ∀ m, holds y m → hiveId m = hive → ¬ known x (uid m) →
       uid m ≠ ""
       ∧ ∃ c, createdAtMs m = JS.Fin c ∧ default 0 (cursor_get peer x) ≤ c.

(** One [uid] names messages of one hive in both stores. *)
Definition uid_agree (x : X) (y : Y) : Prop :=
  ∀ m m', holds x m → holds y m' → uid m = uid m' → hiveId m = hiveId m'.

(** [serve] answers with the log of [y]: every record it returns is a
    message [y] holds, and it returns every message of the hive whose
    [createdAtMs] is a number not below [since]. *)
Definition serves (serve : string → Z → Y → option (list (option WireMessage)))
  (hive : string) (y : Y) : Prop :=
  ∀ since, ∃ l,
    serve hive since y = Some l
    ∧ (∀ w, w ∈ l → ∃ m, w = Some (to_wire m) ∧ holds y m)
    ∧ (∀ m c, holds y m → hiveId m = hive → createdAtMs m = JS.Fin c → since ≤ c →
              Some (to_wire m) ∈ l).

(** [x] holds every [uid] of the hive that [y] holds. *)
Definition covers (hive : string) (x : X) (y : Y) : Prop :=
  ∀ u, hive_uid y hive u → hive_uid x hive u.

End Sync.

(** The condition under which two servers converge: both logs are
    well-formed, agree on the hive of every [uid], and what either lacks
    it can still fetch from the other. *)
Record in_reach {SA SB : Type} `{HostSpec SA} `{HostSpec SB}
  (hive peer_a peer_b : string) (ab : SA * SB) : Prop := {
  reach_inv_a : inv ab.1;
  reach_inv_b : inv ab.2;
  reach_agree : uid_agree ab.1 ab.2;
  reach_a : fetchable hive peer_b ab.1 ab.2;
  reach_b : fetchable hive peer_a ab.2 ab.1
}.

(** ** A sample platform

    Concrete stand-ins for the imported functions, to run the handlers on:
    times are written in decimal, both decoders read a string as its own
    bytes (the base58 one rejecting the character [0]), and a signature
    verifies when it starts with the public key. *)

Module Sample.

Definition decimal (z : Z) : string :=
  DecimalString.NilZero.string_of_int (Z.to_int z).

Definition of_decimal (s : string) : option Z :=
  Z.of_int <$> DecimalString.NilZero.int_of_string s.

Definition bytes (s : string) : list Byte.byte := String.list_byte_of_string s.

Definition base58 (s : string) : option (list Byte.byte) :=
  if existsb (Byte.eqb Byte.x30) (bytes s) then None else Some (bytes s).

Global Instance byte_eq_dec : EqDecision Byte.byte := Byte.byte_eq_dec.

Definition starts_with_key (msg sig pk : list Byte.byte) : bool :=
  bool_decide (take 32 sig = pk).

Definition platform : Platform :=
  {| Buffer_from_base64 s := Some (bytes s);
     bs58_decode := base58;
     crypto_sign_verify := starts_with_key;
     Date_parse := of_decimal;
     Date_iso := decimal |}.

Definition cfg : Config :=
  {| HIVE_ID := "openclaw-devnet";
     GOSSIP_TOKEN := "";
     GOSSIP_PEERS := ["http://b"];
     OPENCLAW_DEVICE_PROOF_REQUIRED := false;
     OPENCLAW_DEVICE_PROOF_TTL_MS := JS.Fin (5 * 60 * 1000) |}.

(** The same server with a gossip secret. *)
Definition cfg_secret : Config :=
  {| HIVE_ID := "openclaw-devnet";
     GOSSIP_TOKEN := "s3cret";
     GOSSIP_PEERS := ["http://b"];
     OPENCLAW_DEVICE_PROOF_REQUIRED := false;
     OPENCLAW_DEVICE_PROOF_TTL_MS := JS.Fin (5 * 60 * 1000) |}.

(** A public key of 32 characters and a signature of 64 that starts
    with it. *)
Definition key : string := "ABCDEFGHJKLMNPQRSTUVWXYZabcdefgh".
Definition sig : string := key +:+ key.

(** A message as [POST /message] hands it to [storeMessage]. *)
Definition hello (u : string) (t : Z) : MessageInput :=
  {| in_id := None; in_uid := u; in_ts := decimal t; in_createdAtMs := JS.Fin t;
     in_agentId := Some "agent-001"; in_hiveId := "openclaw-devnet";
     in_content := Some "hello"; in_channel := "default"; in_source := local |}.

(** The body of a [POST /challenge] and of the [POST /join] that answers
    it, with the nonce [nonce-1], a challenge issued at time 0 (so that it
    expires at 120000) and the timestamp [t]. *)
Definition challenge_body : ChallengeBody :=
  {| cb_agent_id := Some "agent-001"; cb_pubkey := Some key; cb_hive_id := None |}.

Definition join_body (t : string) : JoinBody :=
  {| agent_id := Some "agent-001"; pubkey := Some key; nonce := Some "nonce-1";
     signature := Some sig; timestamp := Some t;
     hive_id := Some "openclaw-devnet"; expires_at := Some "120000";
     openclaw_device_public_key := None; openclaw_device_signature := None;
     openclaw_device_nonce := None; openclaw_device_signed_at := None |}.

(** Gossip records of the sample hive: a complete one, one with no [ts]
    and a [createdAtMs] beyond the range of [Date], one with neither
    [agentId] nor [content], and one that lacks only [ts]. *)
Definition wire (u : string) (t : Z) : WireMessage :=
  {| w_uid := Some u; w_ts := Some (decimal t); w_createdAtMs := JS.Fin t;
     w_agentId := Some "agent-002"; w_hiveId := Some "openclaw-devnet";
     w_content := Some "hi"; w_channel := None |}.

Definition wire_out_of_range (u : string) : WireMessage :=
  {| w_uid := Some u; w_ts := None; w_createdAtMs := JS.Fin (10 ^ 16);
     w_agentId := Some "agent-002"; w_hiveId := Some "openclaw-devnet";
     w_content := Some "hi"; w_channel := None |}.

Definition wire_anonymous (u : string) (t : Z) : WireMessage :=
  {| w_uid := Some u; w_ts := Some (decimal t); w_createdAtMs := JS.Fin t;
     w_agentId := None; w_hiveId := Some "openclaw-devnet";
     w_content := None; w_channel := None |}.

Definition wire_no_ts (u : string) (t : Z) : WireMessage :=
  {| w_uid := Some u; w_ts := None; w_createdAtMs := JS.Fin t;
     w_agentId := Some "agent-002"; w_hiveId := Some "openclaw-devnet";
     w_content := Some "hi"; w_channel := None |}.

(** The Bun server and the worker after the challenge above. *)
Definition challenged : Bun.State :=
  (@Bun.challenge platform cfg 0 "nonce-1" (Some challenge_body) Bun.initial).2.

Definition challenged_w : Worker.State :=
  (@Worker.challenge platform None 0 "nonce-1" (Some challenge_body)
     (Worker.initial cfg)).2.

(** A batch of [n] complete records, created at times 1 to [n], and the
    two servers after one push of it. *)
Definition batch (n : nat) : list (option WireMessage) :=
  (λ k, Some (wire ("m" +:+ decimal (Z.of_nat k)) (Z.of_nat (S k)))) <$> seq 0 n.

Definition pushed (n : nat) : Bun.State :=
  (@Bun.push platform cfg 0 None (batch n) Bun.initial).1.

Definition pushed_w (n : nat) : Worker.State :=
  (@Worker.push platform cfg None 0 None (batch n) (Worker.initial cfg)).1.

(** A second server of the same hive, whose peer is the first. *)
Definition cfg_b : Config :=
  {| HIVE_ID := "openclaw-devnet";
     GOSSIP_TOKEN := "";
     GOSSIP_PEERS := ["http://a"];
     OPENCLAW_DEVICE_PROOF_REQUIRED := false;
     OPENCLAW_DEVICE_PROOF_TTL_MS := JS.Fin (5 * 60 * 1000) |}.

(** Two Bun servers with one local message each. *)
Definition store_a : Bun.State := (Bun.storeMessage (hello "a1" 10) Bun.initial).2.
Definition store_b : Bun.State := (Bun.storeMessage (hello "b1" 20) Bun.initial).2.

(** Two Bun servers where one message has fallen behind the cursor: [B]
    takes a post at time 100, [A] polls [B] and sets its cursor to 100,
    and then a push hands [B] a record whose [createdAtMs] is 50. *)
Definition late_b1 : Bun.State := (Bun.storeMessage (hello "b1" 100) Bun.initial).2.

Definition late_a : Bun.State :=
  @poll_peer platform _ Bun.host "openclaw-devnet" 120 "http://b"
    (Bun_serve cfg_b None "openclaw-devnet" 0 late_b1) Bun.initial.

Definition late_b : Bun.State :=
  (@Bun.push platform cfg_b 150 None [Some (wire "b2" 50)] late_b1).1.

(** Two cycles of [A] that overlap. Both read the cursor [A] keeps for
    [B] while it is unset, and ask for the records since 0. [B] answers
    the second request while it holds one record, created at time 100; a
    push then hands it a record created at time 50, and it answers the
    first request. [A] merges the answer to the second request, and then
    the answer to the first, each with the cursor its cycle read. *)
Definition overlap_b1 : Bun.State :=
  (@Bun.push platform cfg_b 110 None [Some (wire "b1" 100)] Bun.initial).1.

Definition overlap_b2 : Bun.State :=
  (@Bun.push platform cfg_b 150 None [Some (wire "b2" 50)] overlap_b1).1.

Definition overlap_a1 : Bun.State :=
  @poll_merge platform _ Bun.host "openclaw-devnet" 160 "http://b"
    (poll_read "http://b" Bun.initial)
    (Bun_serve cfg_b None "openclaw-devnet" (poll_read "http://b" Bun.initial)
       overlap_b1)
    Bun.initial.

Definition overlap_a2 : Bun.State :=
  @poll_merge platform _ Bun.host "openclaw-devnet" 170 "http://b"
    (poll_read "http://b" Bun.initial)
    (Bun_serve cfg_b None "openclaw-devnet" (poll_read "http://b" Bun.initial)
       overlap_b2)
    overlap_a1.

(** Two workers where one log is longer than an answer: [B] holds [n]
    messages, created at times 1 to [n], and [A] has polled it once. *)
Fixpoint filled (n : nat) : Worker.State :=
  match n with
  | O => Worker.initial cfg_b
  | S k => (Worker.storeMessage (hello ("m" +:+ decimal (Z.of_nat k)) (Z.of_nat (S k)))
              (filled k)).2
  end.

Definition behind (n : nat) : Worker.State :=
  @poll_peer platform _ Worker.host "openclaw-devnet" 1000 "http://b"
    (Worker_serve cfg_b None "openclaw-devnet" 0 (filled n)) (Worker.initial cfg).

End Sample.

(** * Properties *)

(** ** Signature verifier *)

Section VerifierFacts.
Context `{Platform}.

Lemma nacl_sign_detached_verify_sized msg sig pk :
  length sig = signatureLength → length pk = publicKeyLength →
  nacl_sign_detached_verify msg sig pk = Ret (crypto_sign_verify msg sig pk).
Proof.
  intros Hs Hp. unfold nacl_sign_detached_verify.
  rewrite Hs, Hp. reflexivity.
Qed.

(** No signature passes the test on its length, whose right-hand side is
    [undefined]: both verifiers return [false] on every input, and the
    Ed25519 check is never reached. *)
Lemma verifyMessage_false message signature pubkey :
  verifyMessage message signature pubkey = Ret false.
Proof.
  unfold verifyMessage.
  destruct (Buffer_from_base64 signature) as [sig|]; [|reflexivity].
  destruct (bs58_decode pubkey) as [pk|]; [|reflexivity].
  by destruct (JS.differs (length pk) (Some publicKeyLength)).
Qed.

Lemma verifyEd25519Base64_false message signature publicKey :
  verifyEd25519Base64 message signature publicKey = Ret false.
Proof.
  unfold verifyEd25519Base64.
  destruct (Buffer_from_base64 signature) as [sig|]; [|reflexivity].
  by destruct (Buffer_from_base64 publicKey) as [pk|].
Qed.

End VerifierFacts.

(** C8. Both verifiers of [crypto.ts] return a boolean on every triple of
    strings and never raise: a decoder that fails, a signature that does
    not decode to 64 bytes, or a public key that does not decode to 32
    bytes makes them return [false]. *)
Theorem verifier_never_throws `{Platform} (message signature pubkey : string) :
  (∃ b, verifyMessage message signature pubkey = Ret b)
  ∧ (∃ b, verifyEd25519Base64 message signature pubkey = Ret b)
  ∧ (Buffer_from_base64 signature = None ∨ bs58_decode pubkey = None →
     verifyMessage message signature pubkey = Ret false)
  ∧ (Buffer_from_base64 signature = None ∨ Buffer_from_base64 pubkey = None →
     verifyEd25519Base64 message signature pubkey = Ret false)
  ∧ (∀ sig pk,
       Buffer_from_base64 signature = Some sig → bs58_decode pubkey = Some pk →
       length sig ≠ signatureLength ∨ length pk ≠ publicKeyLength →
       verifyMessage message signature pubkey = Ret false)
  ∧ (∀ sig pk,
       Buffer_from_base64 signature = Some sig → Buffer_from_base64 pubkey = Some pk →
       length sig ≠ signatureLength ∨ length pk ≠ publicKeyLength →
       verifyEd25519Base64 message signature pubkey = Ret false).
Proof.
  pose proof (verifyMessage_false message signature pubkey) as Hm.
  pose proof (verifyEd25519Base64_false message signature pubkey) as He.
  split; [by exists false|]. split; [by exists false|].
  split; [done|]. split; [done|]. split; intros sig pk _ _ _; done.
Qed.

(** On the sample platform: a public key with a character outside the
    base58 alphabet, and a signature of three bytes. *)
Lemma verifier_never_throws_witness :
  @verifyMessage Sample.platform "m" Sample.sig "0bad" = Ret false
  ∧ @verifyMessage Sample.platform "m" "abc" Sample.key = Ret false.
Proof.
  pose proof (@verifier_never_throws Sample.platform "m" Sample.sig "0bad")
    as (_ & _ & H1 & _).
  pose proof (@verifier_never_throws Sample.platform "m" "abc" Sample.key)
    as (_ & _ & _ & _ & H2 & _).
  split.
  - apply H1. right. reflexivity.
  - apply (H2 (Sample.bytes "abc") (Sample.bytes Sample.key)); [reflexivity..|].
    left. vm_compute. lia.
Defined.


(** ** Message store *)

Lemma Bun_storeMessage_fresh (input : MessageInput) (st : Bun.State) :
  in_uid input ∉ Bun.messageIds st →
  Bun.storeMessage input st =
  (Some (with_id (Bun.nextMessageId st) input),
   {| Bun.challenges := Bun.challenges st; Bun.sessions := Bun.sessions st;
      Bun.messages := Bun.messages st ++ [with_id (Bun.nextMessageId st) input];
      Bun.messageIds := {[in_uid input]} ∪ Bun.messageIds st;
      Bun.peerCursors := Bun.peerCursors st;
      Bun.nextMessageId := Bun.nextMessageId st + 1 |}).
Proof.
  intros Hfresh. unfold Bun.storeMessage.
  rewrite bool_decide_eq_false_2 by done. reflexivity.
Qed.

Lemma Bun_storeMessage_present (input : MessageInput) (st : Bun.State) :
  in_uid input ∈ Bun.messageIds st → Bun.storeMessage input st = (None, st).
Proof.
  intros Hin. unfold Bun.storeMessage.
  by rewrite bool_decide_eq_true_2.
Qed.

Lemma Bun_wf_initial : Bun_wf Bun.initial.
Proof.
  split; [|apply NoDup_nil_2].
  intros u. simpl. split.
  - intros Hu. set_solver.
  - intros (m & Hm & _). by apply elem_of_nil in Hm.
Qed.

Lemma Bun_wf_storeMessage (input : MessageInput) (st : Bun.State) :
  Bun_wf st → Bun_wf (Bun.storeMessage input st).2.
Proof.
  intros [Hwf Hnodup]. destruct (decide (in_uid input ∈ Bun.messageIds st)) as [Hin|Hin].
  - by rewrite Bun_storeMessage_present.
  - rewrite Bun_storeMessage_fresh by done. split.
    2: { simpl. rewrite fmap_app. apply NoDup_app. split; [done|]. split.
         - intros u Hu ->%list_elem_of_singleton. apply Hin, Hwf.
           apply list_elem_of_fmap in Hu as (m & Hm & Hu). eauto.
         - apply NoDup_singleton. }
    intros u. simpl.
    rewrite elem_of_union, elem_of_singleton, (Hwf u). split.
    + intros [-> | (m & Hm & Hu)].
      * eexists. split; [apply elem_of_app; right; apply list_elem_of_singleton; reflexivity|].
        reflexivity.
      * exists m. split; [|done]. apply elem_of_app. by left.
    + intros (m & Hm & Hu). apply elem_of_app in Hm as [Hm|Hm].
      * right. eauto.
      * apply list_elem_of_singleton in Hm. subst m. left. by rewrite <- Hu.
Qed.

Lemma Worker_storeMessage_fresh (input : MessageInput) (st : Worker.State) :
  Worker.uids st !! in_uid input = None →
  Worker.storeMessage input st =
  (Some (with_id (Worker_next st) input),
   {| Worker.this_hiveId := Worker.this_hiveId st;
      Worker.challenges := Worker.challenges st;
      Worker.sessions := Worker.sessions st;
      Worker.msgs := <[Worker_next st := with_id (Worker_next st) input]> (Worker.msgs st);
      Worker.uids := <[in_uid input := Worker_next st]> (Worker.uids st);
      Worker.meta_nextMessageId := Some (Worker_next st + 1);
      Worker.cursors := Worker.cursors st |}).
Proof.
  intros Hfresh. unfold Worker.storeMessage. rewrite Hfresh. reflexivity.
Qed.

Lemma Worker_storeMessage_present (input : MessageInput) (st : Worker.State) (i : Z) :
  Worker.uids st !! in_uid input = Some i → i ≠ 0 →
  Worker.storeMessage input st = (None, st).
Proof.
  intros Hin Hi. unfold Worker.storeMessage. rewrite Hin. simpl.
  destruct (Z.eqb_spec i 0); [done|reflexivity].
Qed.

Lemma Worker_wf_initial (cfg : Config) : Worker_wf (Worker.initial cfg).
Proof.
  split; simpl.
  - unfold Worker_next. simpl. lia.
  - intros i m Hm. by rewrite lookup_empty in Hm.
  - intros u i Hu. by rewrite lookup_empty in Hu.
Qed.

Lemma Worker_wf_uid_cases (st : Worker.State) (u : string) :
  Worker_wf st →
  Worker.uids st !! u = None ∨ ∃ i, Worker.uids st !! u = Some i ∧ i ≠ 0.
Proof.
  intros Hwf. destruct (Worker.uids st !! u) as [i|] eqn:Hu; [right|by left].
  exists i. split; [done|].
  destruct (wf_uids _ Hwf _ _ Hu) as (m & Hm & _).
  destruct (wf_msgs _ Hwf _ _ Hm) as [? _]. lia.
Qed.

Lemma Worker_wf_storeMessage (input : MessageInput) (st : Worker.State) :
  Worker_wf st → Worker_wf (Worker.storeMessage input st).2.
Proof.
  intros Hwf. destruct (Worker_wf_uid_cases st (in_uid input) Hwf) as [Hu|(i & Hu & Hi)].
  2: { by rewrite (Worker_storeMessage_present _ _ _ Hu Hi). }
  rewrite Worker_storeMessage_fresh by done. simpl.
  pose proof (wf_next _ Hwf) as Hnext.
  split; unfold Worker_next at 1; simpl.
  - lia.
  - intros i m. unfold Worker_next at 2. simpl.
    destruct (decide (Worker_next st = i)) as [<-|Hne].
    + rewrite lookup_insert_eq. intros [= <-]. simpl.
      rewrite lookup_insert_eq. split; [lia|done].
    + rewrite lookup_insert_ne by done. intros Hm.
      destruct (wf_msgs _ Hwf _ _ Hm) as [Hi Hidx]. split; [lia|].
      rewrite lookup_insert_ne; [done|]. intros Heq. rewrite <- Heq in Hidx. congruence.
  - intros u i. destruct (decide (in_uid input = u)) as [<-|Hne].
    + rewrite lookup_insert_eq. intros [= <-]. eexists. rewrite lookup_insert_eq.
      split; reflexivity.
    + rewrite lookup_insert_ne by done. intros Hui.
      destruct (wf_uids _ Hwf _ _ Hui) as (m & Hm & Hmu).
      exists m. split; [|done]. rewrite lookup_insert_ne; [done|].
      intros <-. destruct (wf_msgs _ Hwf _ _ Hm) as [? _]. lia.
Qed.

(** C2. [storeMessage] is idempotent on [uid], in both servers: with a
    [uid] the store does not hold, the first call returns the stored
    message, a second call with that [uid] returns [null] and changes
    nothing, and the store holds exactly one message more; with a [uid] the
    store already holds, the call returns [null] and changes nothing. *)
Theorem append_idempotent (m1 m2 : MessageInput) :
  in_uid m1 = in_uid m2 →
  (∀ st : Bun.State,
     (in_uid m1 ∉ Bun.messageIds st →
      ∃ stored st1,
        Bun.storeMessage m1 st = (Some stored, st1)
        ∧ uid stored = in_uid m1
        ∧ Bun.storeMessage m2 st1 = (None, st1)
        ∧ length (Bun.messages st1) = S (length (Bun.messages st)))
     ∧ (in_uid m1 ∈ Bun.messageIds st → Bun.storeMessage m1 st = (None, st)))
  ∧ (∀ st : Worker.State,
       Worker_wf st →
       (Worker.uids st !! in_uid m1 = None →
        ∃ stored st1,
          Worker.storeMessage m1 st = (Some stored, st1)
          ∧ uid stored = in_uid m1
          ∧ Worker.storeMessage m2 st1 = (None, st1)
          ∧ size (Worker.msgs st1) = S (size (Worker.msgs st)))
       ∧ (is_Some (Worker.uids st !! in_uid m1) →
          Worker.storeMessage m1 st = (None, st))).
Proof.
  intros Huid. split.
  - intros st. split.
    + intros Hfresh. rewrite Bun_storeMessage_fresh by done.
      eexists _, _. split; [reflexivity|]. split; [reflexivity|]. simpl. split.
      * apply Bun_storeMessage_present. simpl. rewrite <- Huid. set_solver.
      * rewrite length_app. simpl. lia.
    + apply Bun_storeMessage_present.
  - intros st Hwf. split.
    + intros Hfresh. rewrite Worker_storeMessage_fresh by done.
      eexists _, _. split; [reflexivity|]. split; [reflexivity|]. simpl. split.
      * apply (Worker_storeMessage_present _ _ (Worker_next st)); simpl.
        -- rewrite <- Huid. apply lookup_insert_eq.
        -- pose proof (wf_next _ Hwf). lia.
      * apply map_size_insert_None.
        destruct (Worker.msgs st !! Worker_next st) as [m|] eqn:Hm; [|done].
        destruct (wf_msgs _ Hwf _ _ Hm) as [? _]. lia.
    + intros [i Hi].
      destruct (Worker_wf_uid_cases st (in_uid m1) Hwf) as [Hu|(j & Hu & Hj)];
        [congruence|].
      by apply (Worker_storeMessage_present _ _ j).
Qed.

(** An instance: the message [u1] stored in a fresh store of each server,
    then offered again. *)
Lemma append_idempotent_witness :
  (∃ stored st1,
     Bun.storeMessage (Sample.hello "u1" 1) Bun.initial = (Some stored, st1)
     ∧ uid stored = "u1"
     ∧ Bun.storeMessage (Sample.hello "u1" 2) st1 = (None, st1)
     ∧ length (Bun.messages st1) = 1%nat)
  ∧ (∃ stored st1,
       Worker.storeMessage (Sample.hello "u1" 1) (Worker.initial Sample.cfg)
       = (Some stored, st1)
       ∧ uid stored = "u1"
       ∧ Worker.storeMessage (Sample.hello "u1" 2) st1 = (None, st1)
       ∧ size (Worker.msgs st1) = 1%nat).
Proof.
  destruct (append_idempotent (Sample.hello "u1" 1) (Sample.hello "u1" 2) eq_refl)
    as [HB HW].
  split.
  - apply (HB Bun.initial). simpl. apply not_elem_of_empty.
  - apply (HW (Worker.initial Sample.cfg)); [apply Worker_wf_initial | reflexivity].
Defined.

(** ** Challenge and join *)

Lemma truthy_str_Some (s : string) : JS.truthy_str (Some s) = true ↔ s ≠ "".
Proof.
  simpl. destruct (String.eqb_spec s ""); simpl; split; congruence.
Qed.

Lemma truthy_str_true (s : option string) :
  JS.truthy_str s = true → ∃ v, s = Some v ∧ v ≠ "".
Proof.
  destruct s as [v|]; [|done]. intros Hv. exists v. split; [done|].
  by apply truthy_str_Some.
Qed.

Section JoinFacts.
Context `{Platform} (cfg : Config) (mint : string → string → string).

Lemma required_join_fields_Some (b : JoinBody) (a p n s t : string) :
  agent_id b = Some a → pubkey b = Some p → nonce b = Some n →
  signature b = Some s → timestamp b = Some t →
  a ≠ "" → p ≠ "" → n ≠ "" → s ≠ "" → t ≠ "" →
  required_join_fields (Some b) = Some (b, a, p, n, s, t).
Proof.
  intros Ha Hp Hn Hs Ht Ha' Hp' Hn' Hs' Ht'. unfold required_join_fields.
  rewrite Ha, Hp, Hn, Hs, Ht.
  rewrite !(proj2 (truthy_str_Some _)) by done. reflexivity.
Qed.

Lemma required_join_fields_inv (body : option JoinBody) b a p n s t :
  required_join_fields body = Some (b, a, p, n, s, t) →
  body = Some b ∧ agent_id b = Some a ∧ pubkey b = Some p ∧ nonce b = Some n
  ∧ signature b = Some s ∧ timestamp b = Some t.
Proof.
  unfold required_join_fields. destruct body as [b'|]; [|done].
  destruct (agent_id b') as [a'|] eqn:Ea; [|done].
  destruct (pubkey b') as [p'|] eqn:Ep; [|done].
  destruct (nonce b') as [n'|] eqn:En; [|done].
  destruct (signature b') as [s'|] eqn:Es; [|done].
  destruct (timestamp b') as [t'|] eqn:Et; [|done].
  case_match; [|done]. intros [= -> -> -> -> -> ->]. done.
Qed.

(** The device-proof step never raises. *)
Lemma device_proof_step_total (now : Z) (b : JoinBody) :
  ∃ r, device_proof_step cfg now b = Ret r.
Proof.
  unfold device_proof_step. case_match; [|eauto].
  repeat (case_match; eauto).
  unfold verifyOpenClawDeviceProof. case_match; simpl; eauto.
  case_match; simpl; eauto.
  rewrite verifyEd25519Base64_false. simpl. eauto.
Qed.

(** A rejection of the device-proof step is one of its two messages. *)
Lemma device_proof_step_rejects (now : Z) (b : JoinBody) (err : string) :
  device_proof_step cfg now b = Ret (Some err) →
  err = "missing OpenClaw device proof fields" ∨ err = "invalid OpenClaw device proof".
Proof.
  unfold device_proof_step. case_match; [|done].
  repeat (case_match; try (intros [= <-]; by left)).
  destruct (verifyOpenClawDeviceProof _ _ _ _ _ _) as [[]|]; simpl; [done| |done].
  intros [= <-]. by right.
Qed.

(** With no proof required and no device field sent, the step passes. *)
Lemma device_proof_step_skipped (now : Z) (b : JoinBody) :
  OPENCLAW_DEVICE_PROOF_REQUIRED cfg = false →
  openclaw_device_public_key b = None → openclaw_device_signature b = None →
  openclaw_device_nonce b = None → openclaw_device_signed_at b = None →
  device_proof_step cfg now b = Ret None.
Proof.
  intros Hreq H1 H2 H3 H4. unfold device_proof_step.
  rewrite Hreq, H1, H2, H3, H4. reflexivity.
Qed.

(** *** The checks of [POST /join], one by one *)

Section Checks.
Variables (now : Z) (uuid : string) (body : option JoinBody).
Variables (chs : gmap string Challenge) (b : JoinBody) (a p n s t : string).
Hypothesis Hreq : required_join_fields body = Some (b, a, p, n, s, t).

Local Abbreviation join := (join_handler cfg mint now uuid body chs).

Lemma join_handler_gone :
  chs !! n = None → join = Ret (unauthorized "challenge not found or expired", Keep).
Proof. intros Hn. unfold join_handler. by rewrite Hreq, Hn. Qed.

Lemma join_handler_unbound (ch : Challenge) :
  chs !! n = Some ch → ¬ bound ch b a p →
  ∃ msg, join = Ret (unauthorized msg, Keep).
Proof.
  intros Hch Hnb. unfold join_handler. rewrite Hreq, Hch.
  destruct (decide (ch_agentId ch = a)) as [Ha|Ha].
  2: { rewrite (bool_decide_eq_false_2 _ Ha). simpl. eauto. }
  destruct (decide (ch_pubkey ch = p)) as [Hp|Hp].
  2: { rewrite (bool_decide_eq_false_2 _ Hp), orb_true_r. eauto. }
  rewrite (bool_decide_eq_true_2 _ Ha), (bool_decide_eq_true_2 _ Hp).
  cbn [negb orb].
  destruct (decide (ch_hiveId ch = JS.nullish (hive_id b) (ch_hiveId ch))) as [Hh|Hh].
  2: { rewrite (bool_decide_eq_false_2 _ Hh). simpl. eauto. }
  rewrite (bool_decide_eq_true_2 _ Hh). cbn [negb].
  destruct (decide (ch_expiresAt ch = JS.nullish (expires_at b) (ch_expiresAt ch)))
    as [He|He].
  2: { rewrite (bool_decide_eq_false_2 _ He). simpl. eauto. }
  destruct Hnb. done.
Qed.

(** Past the binding checks, the handler is at the expiry check. *)
Lemma join_handler_bound (ch : Challenge) :
  chs !! n = Some ch → bound ch b a p →
  join =
  match Date_parse (ch_expiresAt ch) with
  | None => Ret (unauthorized "challenge expired", DeleteChallenge n)
  | Some challengeExpiry =>
      if challengeExpiry <? now
      then Ret (unauthorized "challenge expired", DeleteChallenge n)
      else
        match Date_parse t with
        | None => Ret (badRequest "timestamp must be an ISO string", Keep)
        | Some timestampMs =>
            if Z.abs (now - timestampMs) >? MAX_CLOCK_SKEW_MS
            then Ret (unauthorized "timestamp outside allowed clock skew", Keep)
            else
              proof ←! device_proof_step cfg now b;
              match proof with
              | Some err => Ret (unauthorized err, Keep)
              | None =>
                  valid ←! verifyMessage (canonical ch t) s (ch_pubkey ch);
                  if negb valid
                  then Ret (unauthorized "invalid signature", Keep)
                  else
                    Ret (OK {| session_token := mint (ch_hiveId ch) uuid;
                               jo_expires_at := Date_iso (now + SESSION_TTL_MS);
                               jo_agent_id := ch_agentId ch;
                               jo_hive_id := ch_hiveId ch |},
                         Establish n (mint (ch_hiveId ch) uuid)
                           {| se_agentId := ch_agentId ch;
                              se_pubkey := ch_pubkey ch;
                              se_hiveId := ch_hiveId ch;
                              se_expiresAt := now + SESSION_TTL_MS |})
              end
        end
  end.
Proof.
  intros Hch (Ha & Hp & Hh & He). unfold join_handler. rewrite Hreq, Hch.
  rewrite (bool_decide_eq_true_2 _ Ha), (bool_decide_eq_true_2 _ Hp),
    (bool_decide_eq_true_2 _ Hh), (bool_decide_eq_true_2 _ He).
  reflexivity.
Qed.

Lemma join_handler_expired (ch : Challenge) :
  chs !! n = Some ch → bound ch b a p → ¬ unexpired now ch →
  join = Ret (unauthorized "challenge expired", DeleteChallenge n).
Proof.
  intros Hch Hb Hexp. rewrite (join_handler_bound ch Hch Hb).
  destruct (Date_parse (ch_expiresAt ch)) as [e|] eqn:He; [|done].
  destruct (Z.ltb_spec e now); [done|].
  destruct Hexp. exists e. rewrite He. done.
Qed.

(** Past the expiry check, the handler is at the timestamp. *)
Lemma join_handler_unexpired (ch : Challenge) :
  chs !! n = Some ch → bound ch b a p → unexpired now ch →
  join =
  match Date_parse t with
  | None => Ret (badRequest "timestamp must be an ISO string", Keep)
  | Some timestampMs =>
      if Z.abs (now - timestampMs) >? MAX_CLOCK_SKEW_MS
      then Ret (unauthorized "timestamp outside allowed clock skew", Keep)
      else
        proof ←! device_proof_step cfg now b;
        match proof with
        | Some err => Ret (unauthorized err, Keep)
        | None => Ret (unauthorized "invalid signature", Keep)
        end
  end.
Proof.
  intros Hch Hb (e & He & Hle). rewrite (join_handler_bound ch Hch Hb), He.
  destruct (Z.ltb_spec e now); [lia|].
  destruct (Date_parse t) as [tms|]; [|done].
  case_match; [done|].
  destruct (device_proof_step cfg now b) as [[err|]|]; simpl; try done.
  by rewrite verifyMessage_false.
Qed.

Lemma join_handler_unparsable (ch : Challenge) :
  chs !! n = Some ch → bound ch b a p → unexpired now ch → Date_parse t = None →
  join = Ret (badRequest "timestamp must be an ISO string", Keep).
Proof.
  intros Hch Hb Hexp Ht. by rewrite (join_handler_unexpired ch Hch Hb Hexp), Ht.
Qed.

Lemma join_handler_skewed (ch : Challenge) (tms : Z) :
  chs !! n = Some ch → bound ch b a p → unexpired now ch →
  Date_parse t = Some tms → MAX_CLOCK_SKEW_MS < Z.abs (now - tms) →
  join = Ret (unauthorized "timestamp outside allowed clock skew", Keep).
Proof.
  intros Hch Hb Hexp Ht Hskew. rewrite (join_handler_unexpired ch Hch Hb Hexp), Ht.
  destruct (Z.gtb_spec (Z.abs (now - tms)) MAX_CLOCK_SKEW_MS); [done|lia].
Qed.

Lemma join_handler_device (ch : Challenge) (err : string) :
  chs !! n = Some ch → bound ch b a p → unexpired now ch → timely now t →
  device_proof_step cfg now b = Ret (Some err) →
  join = Ret (unauthorized err, Keep).
Proof.
  intros Hch Hb Hexp (tms & Ht & Hskew) Hdev.
  rewrite (join_handler_unexpired ch Hch Hb Hexp), Ht.
  destruct (Z.gtb_spec (Z.abs (now - tms)) MAX_CLOCK_SKEW_MS); [lia|].
  by rewrite Hdev.
Qed.

(** The last check. The hypothesis on [verifyMessage] is the failure of
    the check as the handler sees it. *)
Lemma join_handler_signature (ch : Challenge) :
  chs !! n = Some ch → bound ch b a p → unexpired now ch → timely now t →
  device_proof_step cfg now b = Ret None →
  verifyMessage (canonical ch t) s (ch_pubkey ch) = Ret false →
  join = Ret (unauthorized "invalid signature", Keep).
Proof.
  intros Hch Hb (e & He & Hle) (tms & Ht & Hskew) Hdev Hver.
  rewrite (join_handler_bound ch Hch Hb), He.
  destruct (Z.ltb_spec e now); [lia|]. rewrite Ht.
  destruct (Z.gtb_spec (Z.abs (now - tms)) MAX_CLOCK_SKEW_MS); [lia|].
  rewrite Hdev. simpl. by rewrite Hver.
Qed.

End Checks.

(** No join establishes a session: the handler always answers, never with
    a success, and its effect is at most the deletion of a challenge. *)
Lemma join_handler_never_ok (now : Z) (uuid : string) (body : option JoinBody)
  (chs : gmap string Challenge) :
  ∃ r e, join_handler cfg mint now uuid body chs = Ret (r, e)
         ∧ status r ≠ 200 ∧ (e = Keep ∨ ∃ n, e = DeleteChallenge n).
Proof.
  destruct (required_join_fields body) as [[[[[[b a] p] n] s] t]|] eqn:Hreq.
  2: { unfold join_handler. rewrite Hreq. eexists _, _. split; [done|]. by eauto. }
  destruct (chs !! n) as [ch|] eqn:Hch.
  2: { rewrite (join_handler_gone now uuid body chs b a p n s t Hreq Hch).
       eexists _, _. split; [done|]. by eauto. }
  destruct (decide (bound ch b a p)) as [Hb|Hb].
  2: { destruct (join_handler_unbound now uuid body chs b a p n s t Hreq ch Hch Hb)
         as [msg ->].
       eexists _, _. split; [done|]. by eauto. }
  rewrite (join_handler_bound now uuid body chs b a p n s t Hreq ch Hch Hb).
  destruct (Date_parse (ch_expiresAt ch)) as [e|].
  2: { eexists _, _. split; [done|]. by eauto. }
  case_match. { eexists _, _. split; [done|]. by eauto. }
  destruct (Date_parse t) as [tms|].
  2: { eexists _, _. split; [done|]. by eauto. }
  case_match. { eexists _, _. split; [done|]. by eauto. }
  destruct (device_proof_step_total now b) as [[err|] ->]; simpl.
  { eexists _, _. split; [done|]. by eauto. }
  rewrite verifyMessage_false. simpl. eexists _, _. split; [done|]. by eauto.
Qed.

End JoinFacts.

Lemma Bun_set_same (st : Bun.State) :
  Bun.set_sessions (Bun.sessions st) (Bun.set_challenges (Bun.challenges st) st) = st.
Proof. by destruct st. Qed.

Lemma Worker_set_same (st : Worker.State) :
  Worker.set_sessions (Worker.sessions st)
    (Worker.set_challenges (Worker.challenges st) st) = st.
Proof. by destruct st. Qed.

Lemma Worker_enter_challenges (hiveHeader : option string) (st : Worker.State) :
  Worker.challenges (Worker.enter hiveHeader st) = Worker.challenges st
  ∧ Worker.sessions (Worker.enter hiveHeader st) = Worker.sessions st.
Proof.
  unfold Worker.enter. destruct hiveHeader as [h|]; [|done]. by case_match.
Qed.

(** How the two servers carry out the effect of a join. *)
Lemma Bun_join_keep `{Platform} (cfg : Config) (now : Z) (uuid : string)
  (body : option JoinBody) (st : Bun.State) (r : Response JoinOk) :
  join_handler cfg Bun.mint now uuid body (Bun.challenges st) = Ret (r, Keep) →
  Bun.join cfg now uuid body st = Ret (r, st).
Proof. unfold Bun.join. intros ->. simpl. by rewrite Bun_set_same. Qed.

Lemma Bun_join_delete `{Platform} (cfg : Config) (now : Z) (uuid : string)
  (body : option JoinBody) (st : Bun.State) (r : Response JoinOk) (n : string) :
  join_handler cfg Bun.mint now uuid body (Bun.challenges st)
  = Ret (r, DeleteChallenge n) →
  Bun.join cfg now uuid body st
  = Ret (r, Bun.set_challenges (delete n (Bun.challenges st)) st).
Proof. unfold Bun.join. intros ->. simpl. by destruct st. Qed.

Lemma Worker_join_keep `{Platform} (cfg : Config) (hiveHeader : option string)
  (now : Z) (uuid : string) (body : option JoinBody) (st : Worker.State)
  (r : Response JoinOk) :
  join_handler cfg Worker.mint now uuid body (Worker.challenges st) = Ret (r, Keep) →
  Worker.join cfg hiveHeader now uuid body st = Ret (r, Worker.enter hiveHeader st).
Proof.
  unfold Worker.join.
  destruct (Worker_enter_challenges hiveHeader st) as [Hc Hs]. rewrite Hc.
  intros ->. simpl. by rewrite <- Hc, Worker_set_same.
Qed.

Lemma Worker_join_delete `{Platform} (cfg : Config) (hiveHeader : option string)
  (now : Z) (uuid : string) (body : option JoinBody) (st : Worker.State)
  (r : Response JoinOk) (n : string) :
  join_handler cfg Worker.mint now uuid body (Worker.challenges st)
  = Ret (r, DeleteChallenge n) →
  Worker.join cfg hiveHeader now uuid body st
  = Ret (r, Worker.set_challenges (delete n (Worker.challenges st))
              (Worker.enter hiveHeader st)).
Proof.
  unfold Worker.join.
  destruct (Worker_enter_challenges hiveHeader st) as [Hc Hs]. rewrite Hc.
  intros ->. simpl. rewrite <- Hc. by destruct (Worker.enter hiveHeader st).
Qed.

(** C4, as amended. A [POST /join] that carries the five required fields
    and fails one of the checks is rejected by the first check it fails,
    in both servers. When the nonce names no stored challenge, the answer
    is 401 and the store is as it was. When it names the challenge [ch]:
    a binding field that does not match is answered 401, the store as it
    was; past the binding checks, a challenge that has expired is answered
    401 and deleted from the store, nothing else changing; past the expiry
    check, a timestamp that does not parse is answered 400 and one outside
    the clock skew 401; past those, a device proof that fails is answered
    401; and past that, a signature the verifier turns down is answered
    401. In each case but the expiry the store is as it was, the challenge
    still in it. In [worker.ts] "as it was" is up to the [hiveId] field
    the request's header sets. *)
Theorem join_rejection_keeps_challenge `{Platform} (cfg : Config) (now : Z)
  (uuid : string) (body : option JoinBody) b a p n s t :
  required_join_fields body = Some (b, a, p, n, s, t) →
  (∀ st : Bun.State,
     let answered r st' := Bun.join cfg now uuid body st = Ret (r, st') in
     (Bun.challenges st !! n = None →
      answered (unauthorized "challenge not found or expired") st)
     ∧ (∀ ch, Bun.challenges st !! n = Some ch → ¬ bound ch b a p →
              ∃ msg, answered (unauthorized msg) st)
     ∧ (∀ ch, Bun.challenges st !! n = Some ch → bound ch b a p →
              ¬ unexpired now ch →
              answered (unauthorized "challenge expired")
                (Bun.set_challenges (delete n (Bun.challenges st)) st))
     ∧ (∀ ch, Bun.challenges st !! n = Some ch → bound ch b a p →
              unexpired now ch → Date_parse t = None →
              answered (badRequest "timestamp must be an ISO string") st)
     ∧ (∀ ch tms, Bun.challenges st !! n = Some ch → bound ch b a p →
                  unexpired now ch → Date_parse t = Some tms →
                  MAX_CLOCK_SKEW_MS < Z.abs (now - tms) →
                  answered (unauthorized "timestamp outside allowed clock skew") st)
     ∧ (∀ ch err, Bun.challenges st !! n = Some ch → bound ch b a p →
                  unexpired now ch → timely now t →
                  device_proof_step cfg now b = Ret (Some err) →
                  answered (unauthorized err) st)
     ∧ (∀ ch, Bun.challenges st !! n = Some ch → bound ch b a p →
              unexpired now ch → timely now t →
              device_proof_step cfg now b = Ret None →
              verifyMessage (canonical ch t) s (ch_pubkey ch) = Ret false →
              answered (unauthorized "invalid signature") st))
  ∧ (∀ (hiveHeader : option string) (st : Worker.State),
       let answered r st' :=
         Worker.join cfg hiveHeader now uuid body st = Ret (r, st') in
       let entered := Worker.enter hiveHeader st in
       (Worker.challenges st !! n = None →
        answered (unauthorized "challenge not found or expired") entered)
       ∧ (∀ ch, Worker.challenges st !! n = Some ch → ¬ bound ch b a p →
                ∃ msg, answered (unauthorized msg) entered)
       ∧ (∀ ch, Worker.challenges st !! n = Some ch → bound ch b a p →
                ¬ unexpired now ch →
                answered (unauthorized "challenge expired")
                  (Worker.set_challenges (delete n (Worker.challenges st)) entered))
       ∧ (∀ ch, Worker.challenges st !! n = Some ch → bound ch b a p →
                unexpired now ch → Date_parse t = None →
                answered (badRequest "timestamp must be an ISO string") entered)
       ∧ (∀ ch tms, Worker.challenges st !! n = Some ch → bound ch b a p →
                    unexpired now ch → Date_parse t = Some tms →
                    MAX_CLOCK_SKEW_MS < Z.abs (now - tms) →
                    answered (unauthorized "timestamp outside allowed clock skew")
                      entered)
       ∧ (∀ ch err, Worker.challenges st !! n = Some ch → bound ch b a p →
                    unexpired now ch → timely now t →
                    device_proof_step cfg now b = Ret (Some err) →
                    answered (unauthorized err) entered)
       ∧ (∀ ch, Worker.challenges st !! n = Some ch → bound ch b a p →
                unexpired now ch → timely now t →
                device_proof_step cfg now b = Ret None →
                verifyMessage (canonical ch t) s (ch_pubkey ch) = Ret false →
                answered (unauthorized "invalid signature") entered)).
Proof.
  intros Hreq. split.
  - intros st answered. subst answered. cbv beta.
    split; [|split; [|split; [|split; [|split; [|split]]]]].
    + intros Hn. apply Bun_join_keep.
      by apply (join_handler_gone cfg Bun.mint now uuid body _ b a p n s t).
    + intros ch Hch Hnb.
      destruct (join_handler_unbound cfg Bun.mint now uuid body _ b a p n s t Hreq
                  ch Hch Hnb) as [msg Hj].
      exists msg. by apply Bun_join_keep.
    + intros ch Hch Hb Hexp. apply Bun_join_delete.
      by apply (join_handler_expired cfg Bun.mint now uuid body _ b a p n s t Hreq ch).
    + intros ch Hch Hb Hexp Ht. apply Bun_join_keep.
      by apply (join_handler_unparsable cfg Bun.mint now uuid body _ b a p n s t Hreq
                  ch).
    + intros ch tms Hch Hb Hexp Ht Hskew. apply Bun_join_keep.
      by apply (join_handler_skewed cfg Bun.mint now uuid body _ b a p n s t Hreq
                  ch tms).
    + intros ch err Hch Hb Hexp Ht Hdev. apply Bun_join_keep.
      by apply (join_handler_device cfg Bun.mint now uuid body _ b a p n s t Hreq ch).
    + intros ch Hch Hb Hexp Ht Hdev Hver. apply Bun_join_keep.
      by apply (join_handler_signature cfg Bun.mint now uuid body _ b a p n s t Hreq
                  ch).
  - intros hiveHeader st answered entered. subst answered entered. cbv beta.
    split; [|split; [|split; [|split; [|split; [|split]]]]].
    + intros Hn. apply Worker_join_keep.
      by apply (join_handler_gone cfg Worker.mint now uuid body _ b a p n s t).
    + intros ch Hch Hnb.
      destruct (join_handler_unbound cfg Worker.mint now uuid body _ b a p n s t Hreq
                  ch Hch Hnb) as [msg Hj].
      exists msg. by apply Worker_join_keep.
    + intros ch Hch Hb Hexp. apply Worker_join_delete.
      by apply (join_handler_expired cfg Worker.mint now uuid body _ b a p n s t Hreq
                  ch).
    + intros ch Hch Hb Hexp Ht. apply Worker_join_keep.
      by apply (join_handler_unparsable cfg Worker.mint now uuid body _ b a p n s t
                  Hreq ch).
    + intros ch tms Hch Hb Hexp Ht Hskew. apply Worker_join_keep.
      by apply (join_handler_skewed cfg Worker.mint now uuid body _ b a p n s t Hreq
                  ch tms).
    + intros ch err Hch Hb Hexp Ht Hdev. apply Worker_join_keep.
      by apply (join_handler_device cfg Worker.mint now uuid body _ b a p n s t Hreq
                  ch).
    + intros ch Hch Hb Hexp Ht Hdev Hver. apply Worker_join_keep.
      by apply (join_handler_signature cfg Worker.mint now uuid body _ b a p n s t
                  Hreq ch).
Qed.

(** An instance, on the Bun server that holds the challenge issued at time
    0 under [nonce-1]. A join at time 1000 whose timestamp is 500000 is
    answered 401 and leaves the store, and the challenge in it, as they
    were; a join at time 200000, after the challenge's expiry at 120000,
    is answered 401 and the challenge is gone. *)
Lemma join_rejection_keeps_challenge_witness :
  let ch := {| ch_agentId := "agent-001"; ch_pubkey := Sample.key;
               ch_nonce := "nonce-1"; ch_hiveId := "openclaw-devnet";
               ch_expiresAt := "120000" |} in
  Bun.challenges Sample.challenged !! "nonce-1" = Some ch
  ∧ @Bun.join Sample.platform Sample.cfg 1000 "token-1"
      (Some (Sample.join_body "500000")) Sample.challenged
    = Ret (unauthorized "timestamp outside allowed clock skew", Sample.challenged)
  ∧ @Bun.join Sample.platform Sample.cfg 200000 "token-1"
      (Some (Sample.join_body "200000")) Sample.challenged
    = Ret (unauthorized "challenge expired",
           Bun.set_challenges (delete "nonce-1" (Bun.challenges Sample.challenged))
             Sample.challenged)
  ∧ Bun.challenges
      (Bun.set_challenges (delete "nonce-1" (Bun.challenges Sample.challenged))
         Sample.challenged) !! "nonce-1" = None.
Proof.
  intros ch.
  assert (Hch : Bun.challenges Sample.challenged !! "nonce-1" = Some ch)
    by (vm_compute; reflexivity).
  assert (Hb : ∀ t, bound ch (Sample.join_body t) "agent-001" Sample.key)
    by (intros t; repeat split).
  split; [exact Hch|]. split; [|split].
  - destruct (proj1 (@join_rejection_keeps_challenge Sample.platform Sample.cfg 1000
                       "token-1" (Some (Sample.join_body "500000"))
                       _ _ _ _ _ _ eq_refl) Sample.challenged)
      as (_ & _ & _ & _ & Hskew & _).
    apply (Hskew ch 500000 Hch (Hb _)).
    + exists 120000. split; [reflexivity|lia].
    + reflexivity.
    + vm_compute. reflexivity.
  - destruct (proj1 (@join_rejection_keeps_challenge Sample.platform Sample.cfg 200000
                       "token-1" (Some (Sample.join_body "200000"))
                       _ _ _ _ _ _ eq_refl) Sample.challenged)
      as (_ & _ & Hexp & _).
    apply (Hexp ch Hch (Hb _)).
    intros (e & He & Hle). vm_compute in He. injection He as <-. lia.
  - apply lookup_delete_eq.
Defined.

(** C4 as stated fails on a timestamp that does not parse: after a
    challenge issued at time 0, a join at time 1000 whose timestamp is
    [yesterday] passes the nonce lookup, the binding checks and the expiry
    check, and is answered 400, not 401. *)
Lemma join_unparsable_timestamp_is_400 :
  let st := (@Bun.challenge Sample.platform Sample.cfg 0 "nonce-1"
               (Some Sample.challenge_body) Bun.initial).2 in
  ∃ r, @Bun.join Sample.platform Sample.cfg 1000 "token-1"
         (Some (Sample.join_body "yesterday")) st = Ret (r, st)
       ∧ status r = 400 ∧ status r ≠ 401.
Proof.
  eexists. split; [vm_compute; reflexivity|]. split; [reflexivity|discriminate].
Qed.

(** *** A challenge, then the join that answers it *)

Section IssueThenJoin.
Context `{Platform} (cfg : Config) (mint : string → string → string).

Lemma challenge_handler_ok (hive : string) (now : Z) (n a p : string)
  (h : option string) (chs : gmap string Challenge) :
  a ≠ "" → p ≠ "" → isValidSolanaPublicKey p = true →
  challenge_handler hive now n
    (Some {| cb_agent_id := Some a; cb_pubkey := Some p; cb_hive_id := h |}) chs
  = (OK {| co_nonce := n; co_hive_id := JS.nullish h hive;
           co_expires_at := Date_iso (now + CHALLENGE_TTL_MS) |},
     <[n := {| ch_agentId := a; ch_pubkey := p; ch_nonce := n;
               ch_hiveId := JS.nullish h hive;
               ch_expiresAt := Date_iso (now + CHALLENGE_TTL_MS) |}]>
       (cleanupChallenges now chs)).
Proof.
  intros Ha Hp Hvalid. unfold challenge_handler.
  rewrite !(proj2 (truthy_str_Some _)) by done. simpl. by rewrite Hvalid.
Qed.

(** The join that answers a challenge passes every check before the
    signature, carries a signature the Ed25519 check accepts, and is
    turned down as if the signature were wrong. *)
Lemma join_handler_answers (hive : string) (now now' : Z) (uuid n a p : string)
  (h : option string) (b : JoinBody) (chs : gmap string Challenge) :
  answers cfg hive now now' n a p h b →
  chs !! n = Some {| ch_agentId := a; ch_pubkey := p; ch_nonce := n;
                     ch_hiveId := JS.nullish h hive;
                     ch_expiresAt := Date_iso (now + CHALLENGE_TTL_MS) |} →
  join_handler cfg mint now' uuid (Some b) chs
  = Ret (unauthorized "invalid signature", Keep).
Proof.
  intros [[Ha Ha'] (Hp & Hp' & _) [Hn Hn'] Hhive Hexp Hiso Hfresh
            (t & tms & Ht & Ht' & Hparse & Hskew) Hdev
            (sig & t2 & Hsig & Hsig' & Ht2 & _)] Hch.
  assert (t2 = t) as -> by congruence.
  apply (join_handler_signature cfg mint now' uuid (Some b) chs b a p n sig t
           (required_join_fields_Some b a p n sig t Ha Hp Hn Hsig Ht Ha' Hp' Hn' Hsig' Ht')
           _ Hch).
  - repeat split; simpl; congruence.
  - exists (now + CHALLENGE_TTL_MS). by split.
  - exists tms. by split.
  - exact Hdev.
  - apply verifyMessage_false.
Qed.

End IssueThenJoin.

(** The sample join answers the sample challenge. *)
Lemma sample_answers :
  @answers Sample.platform Sample.cfg "openclaw-devnet" 0 1000 "nonce-1" "agent-001"
    Sample.key None (Sample.join_body "1000").
Proof.
  split.
  - split; [reflexivity|discriminate].
  - split; [reflexivity|]. split; [discriminate|reflexivity].
  - split; [reflexivity|discriminate].
  - reflexivity.
  - reflexivity.
  - reflexivity.
  - vm_compute. discriminate.
  - exists "1000", 1000. split; [reflexivity|]. split; [discriminate|].
    split; [reflexivity|]. vm_compute. discriminate.
  - reflexivity.
  - exists Sample.sig, "1000". split; [reflexivity|]. split; [discriminate|].
    split; [reflexivity|].
    exists (Sample.bytes Sample.sig), (Sample.bytes Sample.key).
    repeat split; vm_compute; reflexivity.
Qed.

Lemma Bun_join_never_ok `{Platform} (cfg : Config) (now : Z) (uuid : string)
  (body : option JoinBody) (st : Bun.State) :
  ∃ r st', Bun.join cfg now uuid body st = Ret (r, st')
           ∧ status r ≠ 200 ∧ Bun.sessions st' = Bun.sessions st.
Proof.
  unfold Bun.join.
  destruct (join_handler_never_ok cfg Bun.mint now uuid body (Bun.challenges st))
    as (r & e & -> & Hr & He).
  eexists _, _. split; [reflexivity|]. split; [done|].
  by destruct He as [-> | [n ->]].
Qed.

Lemma Worker_join_never_ok `{Platform} (cfg : Config) (hiveHeader : option string)
  (now : Z) (uuid : string) (body : option JoinBody) (st : Worker.State) :
  ∃ r st', Worker.join cfg hiveHeader now uuid body st = Ret (r, st')
           ∧ status r ≠ 200 ∧ Worker.sessions st' = Worker.sessions st.
Proof.
  unfold Worker.join.
  destruct (join_handler_never_ok cfg Worker.mint now uuid body
              (Worker.challenges (Worker.enter hiveHeader st)))
    as (r & e & -> & Hr & He).
  eexists _, _. split; [reflexivity|]. split; [done|].
  destruct (Worker_enter_challenges hiveHeader st) as [_ Hs].
  by destruct He as [-> | [n ->]].
Qed.

(** C1, where the code departs from it. In both servers no join is ever
    answered with a success and none records a session. In particular the
    join that answers a challenge just issued to a syntactically valid
    identity, every field in place and the signature one the Ed25519 check
    accepts for the canonical message, is answered 401, invalid signature:
    the challenge stays in the store and no session is recorded. So it is
    for the sample challenge and join on the fresh Bun server. *)
Theorem join_never_succeeds `{Platform} (cfg : Config) :
  (∀ now uuid body (st : Bun.State),
     ∃ r st', Bun.join cfg now uuid body st = Ret (r, st')
              ∧ status r ≠ 200 ∧ Bun.sessions st' = Bun.sessions st)
  ∧ (∀ hiveHeader now uuid body (st : Worker.State),
       ∃ r st', Worker.join cfg hiveHeader now uuid body st = Ret (r, st')
                ∧ status r ≠ 200 ∧ Worker.sessions st' = Worker.sessions st)
  ∧ (∀ now now' uuid n a p h b (st : Bun.State),
       answers cfg (HIVE_ID cfg) now now' n a p h b →
       ∃ r st1,
         Bun.challenge cfg now n
           (Some {| cb_agent_id := Some a; cb_pubkey := Some p; cb_hive_id := h |}) st
         = (OK r, st1)
         ∧ co_nonce r = n
         ∧ Bun.join cfg now' uuid (Some b) st1
           = Ret (unauthorized "invalid signature", st1)
         ∧ is_Some (Bun.challenges st1 !! n)
         ∧ Bun.sessions st1 = Bun.sessions st)
  ∧ (∀ hiveHeader now now' uuid n a p h b (st : Worker.State),
       answers cfg (Worker.this_hiveId (Worker.enter hiveHeader st)) now now' n a p h b →
       ∃ r st1,
         Worker.challenge hiveHeader now n
           (Some {| cb_agent_id := Some a; cb_pubkey := Some p; cb_hive_id := h |}) st
         = (OK r, st1)
         ∧ co_nonce r = n
         ∧ Worker.join cfg hiveHeader now' uuid (Some b) st1
           = Ret (unauthorized "invalid signature", st1)
         ∧ is_Some (Worker.challenges st1 !! n)
         ∧ Worker.sessions st1 = Worker.sessions st)
  ∧ (@answers Sample.platform Sample.cfg "openclaw-devnet" 0 1000 "nonce-1"
       "agent-001" Sample.key None (Sample.join_body "1000")
     ∧ @Bun.challenge Sample.platform Sample.cfg 0 "nonce-1"
         (Some Sample.challenge_body) Bun.initial
       = (OK {| co_nonce := "nonce-1"; co_hive_id := "openclaw-devnet";
                co_expires_at := "120000" |}, Sample.challenged)
     ∧ @Bun.join Sample.platform Sample.cfg 1000 "token-1"
         (Some (Sample.join_body "1000")) Sample.challenged
       = Ret (Error 401 "invalid signature", Sample.challenged)
     ∧ is_Some (Bun.challenges Sample.challenged !! "nonce-1")
     ∧ Bun.sessions Sample.challenged = ∅).
Proof.
  split; [intros; apply Bun_join_never_ok|].
  split; [intros; apply Worker_join_never_ok|].
  split; [|split].
  - intros now now' uuid n a p h b st Hans.
    pose proof Hans as [[_ Ha] (_ & Hp & Hvalid) _ _ _ _ _ _ _ _].
    unfold Bun.challenge.
    rewrite (challenge_handler_ok (HIVE_ID cfg) now n a p h _ Ha Hp Hvalid).
    eexists _, _. split; [reflexivity|]. split; [reflexivity|].
    split; [|split; [|reflexivity]].
    + apply Bun_join_keep.
      apply (join_handler_answers cfg Bun.mint (HIVE_ID cfg) now now' uuid n a p h b
               _ Hans).
      apply lookup_insert_eq.
    + simpl. rewrite lookup_insert_eq. eauto.
  - intros hiveHeader now now' uuid n a p h b st Hans.
    pose proof Hans as [[_ Ha] (_ & Hp & Hvalid) _ _ _ _ _ _ _ _].
    unfold Worker.challenge.
    rewrite (challenge_handler_ok _ now n a p h _ Ha Hp Hvalid).
    eexists _, _. split; [reflexivity|]. split; [reflexivity|].
    assert (Henter : ∀ st0,
              Worker.this_hiveId st0 = Worker.this_hiveId (Worker.enter hiveHeader st) →
              Worker.enter hiveHeader st0 = st0).
    { intros st0 Hst0. unfold Worker.enter in *. destruct hiveHeader as [hh|]; [|done].
      destruct (JS.truthy_str (Some hh)); [|done].
      simpl in Hst0. destruct st0; simpl in *. by subst. }
    split; [|split].
    + match goal with
      | |- Worker.join _ _ _ _ _ ?s = _ =>
          rewrite <- (Henter s eq_refl) at 2
      end.
      apply Worker_join_keep.
      apply (join_handler_answers cfg Worker.mint _ now now' uuid n a p h b _ Hans).
      apply lookup_insert_eq.
    + simpl. rewrite lookup_insert_eq. eauto.
    + simpl. apply Worker_enter_challenges.
  - split; [apply sample_answers|].
    split; [vm_compute; reflexivity|].
    split; [vm_compute; reflexivity|].
    split; [|reflexivity].
    exists {| ch_agentId := "agent-001"; ch_pubkey := Sample.key;
              ch_nonce := "nonce-1"; ch_hiveId := "openclaw-devnet";
              ch_expiresAt := "120000" |}.
    vm_compute. reflexivity.
Qed.

(** ** The stores meet [HostSpec] *)

Global Program Instance Bun_spec : HostSpec Bun.State := {|
  inv := Bun_wf;
  holds st m := m ∈ Bun.messages st;
  known st u := u ∈ Bun.messageIds st;
  known_dec st u := decide (u ∈ Bun.messageIds st)
|}.
Next Obligation. intros st u Hwf. apply Hwf. Qed.
Next Obligation.
  intros st m m' [_ Hnodup] Hm Hm' Hu. simpl in *.
  apply list_elem_of_lookup in Hm as [i Hi]. apply list_elem_of_lookup in Hm' as [j Hj].
  assert (i = j) as ->.
  { apply (NoDup_lookup _ i j (uid m) Hnodup).
    - by rewrite list_lookup_fmap, Hi.
    - by rewrite list_lookup_fmap, Hj, Hu. }
  congruence.
Qed.
Next Obligation. intros st i _ Hk. by apply Bun_storeMessage_present. Qed.
Next Obligation.
  intros st i _ Hk. simpl. rewrite Bun_storeMessage_fresh by done.
  eexists _, _. split; [reflexivity|]. intros m. simpl.
  rewrite elem_of_app, list_elem_of_singleton. done.
Qed.
Next Obligation. intros st i Hwf. by apply Bun_wf_storeMessage. Qed.
Next Obligation.
  intros st i p. simpl. unfold Bun.storeMessage. by case_bool_decide.
Qed.
Next Obligation.
  intros st p v q. simpl. destruct (decide (p = q)) as [->|Hne].
  - apply lookup_insert_eq.
  - by apply lookup_insert_ne.
Qed.
Next Obligation. intros st p v Hwf. exact Hwf. Qed.
Next Obligation. intros st p v m. reflexivity. Qed.

Global Program Instance Worker_spec : HostSpec Worker.State := {|
  inv := Worker_wf;
  holds st m := ∃ i, Worker.msgs st !! i = Some m;
  known st u := is_Some (Worker.uids st !! u);
  known_dec st u := decide (is_Some (Worker.uids st !! u))
|}.
Next Obligation.
  intros st u Hwf. split.
  - intros [i Hi]. destruct (wf_uids _ Hwf _ _ Hi) as (m & Hm & Hu). eauto.
  - intros (m & [i Hm] & <-). destruct (wf_msgs _ Hwf _ _ Hm) as [_ Hu]. eauto.
Qed.
Next Obligation.
  intros st m m' Hwf [i Hi] [j Hj] Hu. simpl in *.
  destruct (wf_msgs _ Hwf _ _ Hi) as [_ Hui].
  destruct (wf_msgs _ Hwf _ _ Hj) as [_ Huj].
  rewrite Hu in Hui. congruence.
Qed.
Next Obligation.
  intros st i Hwf [j Hj]. simpl.
  destruct (Worker_wf_uid_cases st (in_uid i) Hwf) as [Hu|(k & Hu & Hk)]; [congruence|].
  by apply (Worker_storeMessage_present _ _ k).
Qed.
Next Obligation.
  intros st i Hwf Hk. simpl.
  assert (Worker.uids st !! in_uid i = None) as Hnone.
  { destruct (Worker.uids st !! in_uid i) eqn:E; [|done]. destruct Hk. eauto. }
  rewrite Worker_storeMessage_fresh by done.
  eexists _, _. split; [reflexivity|]. intros m. simpl. split.
  - intros [j Hj]. destruct (decide (Worker_next st = j)) as [<-|Hne].
    + rewrite lookup_insert_eq in Hj. right. congruence.
    + rewrite lookup_insert_ne in Hj by done. left. eauto.
  - intros [[j Hj] | ->].
    + exists j. rewrite lookup_insert_ne; [done|]. intros <-.
      destruct (wf_msgs _ Hwf _ _ Hj) as [? _]. lia.
    + exists (Worker_next st). apply lookup_insert_eq.
Qed.
Next Obligation. intros st i Hwf. by apply Worker_wf_storeMessage. Qed.
Next Obligation.
  intros st i p. simpl. unfold Worker.storeMessage. by case_match.
Qed.
Next Obligation.
  intros st p v q. simpl. destruct (decide (p = q)) as [->|Hne].
  - apply lookup_insert_eq.
  - by apply lookup_insert_ne.
Qed.
Next Obligation. intros st p v [H1 H2 H3]. by split. Qed.
Next Obligation. intros st p v m. reflexivity. Qed.

(** ** The poll loop and the peer cursor *)

Lemma high_water_mono (c : Z) (l : list HiveMessage) : c ≤ high_water c l.
Proof.
  revert c. induction l as [|m l IH]; intros c; simpl; [lia|].
  unfold high_water in *. simpl.
  destruct (createdAtMs m); try apply IH.
  etrans; [|apply IH]. lia.
Qed.

Lemma high_water_cases (c : Z) (l : list HiveMessage) :
  high_water c l = c ∨ ∃ m, m ∈ l ∧ createdAtMs m = JS.Fin (high_water c l).
Proof.
  revert c. induction l as [|m l IH]; intros c; [by left|].
  assert (Hskip : (∀ x, createdAtMs m ≠ JS.Fin x) →
            high_water c (m :: l) = high_water c l).
  { intros Hne. unfold high_water. simpl. destruct (createdAtMs m); naive_solver. }
  destruct (createdAtMs m) as [| |x|] eqn:Hm.
  1,2,4: rewrite Hskip by done;
    (destruct (IH c) as [Heq|(m' & Hin & Heq)];
     [by left|right; exists m'; split; [by apply list_elem_of_further|done]]).
  assert (Hstep : high_water c (m :: l) = high_water (Z.max c x) l).
  { unfold high_water. simpl. by rewrite Hm. }
  rewrite Hstep.
  destruct (IH (Z.max c x)) as [Heq|(m' & Hin & Heq)].
  - rewrite Heq. destruct (Z.max_spec c x) as [[_ ->]|[_ ->]].
    + right. exists m. split; [apply list_elem_of_here|done].
    + by left.
  - right. exists m'. split; [by apply list_elem_of_further|done].
Qed.

Lemma high_water_upper (c : Z) (l : list HiveMessage) (m : HiveMessage) (x : Z) :
  m ∈ l → createdAtMs m = JS.Fin x → x ≤ high_water c l.
Proof.
  revert c. induction l as [|m' l IH]; intros c Hin Hx; [by apply elem_of_nil in Hin|].
  apply elem_of_cons in Hin as [->|Hin]; unfold high_water in *; simpl.
  - rewrite Hx. etrans; [|apply high_water_mono]. lia.
  - by apply IH.
Qed.

Section PollFacts.
Context `{Platform} {S : Type} `{!GossipHost S} `{!HostSpec S}.

Lemma poll_loop_high_water (hive : string) (now : Z)
  (incoming : list (option WireMessage)) :
  ∀ c st st' c',
    poll_loop hive now incoming c st = (st', Ret c') →
    c' = high_water c (poll_accepted hive now incoming st).
Proof.
  induction incoming as [|msg rest IH]; intros c st st' c'; simpl.
  - by intros [= <- <-].
  - destruct (poll_candidate hive msg) as [[m u]|]; [|apply IH].
    destruct (normalize_ts now m) as [ts|e]; [|done].
    destruct (store_message _ st) as [stored st1].
    intros Hloop. apply IH in Hloop. rewrite Hloop.
    destruct stored as [x|]; [|done].
    unfold high_water. simpl. by destruct (createdAtMs x).
Qed.

Lemma poll_loop_cursor (hive : string) (now : Z)
  (incoming : list (option WireMessage)) (p : string) :
  ∀ c st, cursor_get p (poll_loop hive now incoming c st).1 = cursor_get p st.
Proof.
  induction incoming as [|msg rest IH]; intros c st; simpl; [done|].
  destruct (poll_candidate hive msg) as [[m u]|]; [|apply IH].
  destruct (normalize_ts now m) as [ts|e]; [|done].
  pose proof (store_cursor st (normalize poll_id u hive ts m) p) as Hc.
  destruct (store_message _ st) as [stored st1]. simpl in Hc.
  by rewrite IH.
Qed.

(** The loop over a batch is the loop over its first part and then, unless
    that raised, over the rest. *)
Lemma poll_loop_app (hive : string) (now : Z) (l1 l2 : list (option WireMessage)) :
  ∀ c st,
    poll_loop hive now (l1 ++ l2) c st
    = match poll_loop hive now l1 c st with
      | (st1, Ret c1) => poll_loop hive now l2 c1 st1
      | (st1, Throw e) => (st1, Throw e)
      end.
Proof.
  induction l1 as [|msg rest IH]; intros c st; simpl; [done|].
  destruct (poll_candidate hive msg) as [[m u]|]; [|apply IH].
  destruct (normalize_ts now m) as [ts|e]; [|done].
  destruct (store_message _ st) as [stored st1]. apply IH.
Qed.

(** The merge of one answer writes no other peer's cursor, and writes the
    peer's own only with the largest [createdAtMs] among the messages the
    loop stored, and only when that is above the [sinceMs] its cycle
    read. *)
Lemma poll_merge_cursor (hive : string) (now : Z) (peer : string) (sinceMs : Z)
  (answer : option (list (option WireMessage))) (st : S) :
  let st' := poll_merge hive now peer sinceMs answer st in
  (∀ q, q ≠ peer → cursor_get q st' = cursor_get q st)
  ∧ (cursor_get peer st' = cursor_get peer st
     ∨ ∃ incoming v,
         answer = Some incoming ∧ cursor_get peer st' = Some v ∧ sinceMs < v
         ∧ (∃ m, m ∈ poll_accepted hive now incoming st ∧ createdAtMs m = JS.Fin v)
         ∧ (∀ m x, m ∈ poll_accepted hive now incoming st →
                   createdAtMs m = JS.Fin x → x ≤ v)).
Proof.
  intros st'. subst st'. unfold poll_merge.
  destruct answer as [incoming|]; [|by split; [|left]].
  pose proof (poll_loop_cursor hive now incoming) as Hcur.
  pose proof (poll_loop_high_water hive now incoming sinceMs st) as Hhw.
  destruct (poll_loop hive now incoming sinceMs st) as [st1 [maxSeen|e]] eqn:Hloop.
  2: { split; [intros q _|left]; by rewrite <- (Hcur _ sinceMs st), Hloop. }
  specialize (Hhw _ _ eq_refl).
  assert (∀ q, cursor_get q st1 = cursor_get q st) as Hst1.
  { intros q. by rewrite <- (Hcur q sinceMs st), Hloop. }
  destruct (Z.gtb_spec maxSeen sinceMs) as [Hgt|Hle].
  - split.
    + intros q Hq. rewrite cursor_put_get. by rewrite decide_False.
    + right. exists incoming, maxSeen. split; [done|].
      rewrite cursor_put_get, decide_True by done. split; [done|]. split; [lia|].
      rewrite Hhw. split.
      * destruct (high_water_cases sinceMs (poll_accepted hive now incoming st))
          as [Heq|Hex]; [|done].
        rewrite <- Hhw in Heq. lia.
      * intros m x. apply high_water_upper.
  - split; [intros q _|left]; apply Hst1.
Qed.

(** An iteration that nothing interrupts never lowers a cursor. *)
Lemma poll_peer_cursor_mono (hive : string) (now : Z) (peer : string)
  (answer : option (list (option WireMessage))) (st : S) (q : string) :
  default 0 (cursor_get q st)
  ≤ default 0 (cursor_get q (poll_peer hive now peer answer st)).
Proof.
  unfold poll_peer, poll_read.
  destruct (poll_merge_cursor hive now peer (default 0 (cursor_get peer st)) answer st)
    as [Hother Hown].
  destruct (decide (q = peer)) as [->|Hne]; [|by rewrite Hother].
  destruct Hown as [-> | (incoming & v & _ & -> & Hlt & _)]; simpl; lia.
Qed.

Lemma pollPeers_cursor_mono (hive : string) (now : Z) (peers : list string)
  (answers : string → option (list (option WireMessage))) (q : string) :
  ∀ st, default 0 (cursor_get q st)
        ≤ default 0 (cursor_get q (pollPeers hive now peers answers st)).
Proof.
  unfold pollPeers. induction peers as [|peer peers IH]; intros st; simpl; [lia|].
  etrans; [|apply IH]. apply poll_peer_cursor_mono.
Qed.

(** The messages [poll_accepted] lists are the ones the loop adds to the
    log. *)
Lemma poll_accepted_holds (hive : string) (now : Z)
  (incoming : list (option WireMessage)) :
  ∀ c st, inv st →
    let st' := (poll_loop hive now incoming c st).1 in
    inv st' ∧ ∀ m, holds st' m ↔ holds st m ∨ m ∈ poll_accepted hive now incoming st.
Proof.
  induction incoming as [|msg rest IH]; intros c st Hinv; simpl.
  - split; [done|]. intros m. rewrite elem_of_nil. tauto.
  - destruct (poll_candidate hive msg) as [[m u]|]; [|by apply IH].
    destruct (normalize_ts now m) as [ts|e]; simpl.
    2: { split; [done|]. intros x. rewrite elem_of_nil. tauto. }
    set (input := normalize poll_id u hive ts m).
    destruct (known_dec st (in_uid input)) as [Hk|Hk].
    + rewrite (store_known st input Hinv Hk). by apply IH.
    + destruct (store_fresh st input Hinv Hk) as (k & st1 & Hst & Hholds).
      pose proof (store_inv st input Hinv) as Hinv1.
      rewrite Hst in *. simpl in Hinv1.
      destruct (IH (bump c (Some (with_id k input))) st1 Hinv1) as [Hinv' Hiff].
      split; [done|]. intros x. rewrite Hiff, Hholds, elem_of_cons. tauto.
Qed.

End PollFacts.

Lemma Bun_poll_loop_messages `{Platform} (hive : string) (now : Z)
  (incoming : list (option WireMessage)) :
  ∀ (c : Z) (st : Bun.State),
    Bun.messages (poll_loop hive now incoming c st).1
    = Bun.messages st ++ poll_accepted hive now incoming st.
Proof.
  induction incoming as [|msg rest IH]; intros c st; simpl.
  - by rewrite app_nil_r.
  - destruct (poll_candidate hive msg) as [[m u]|]; [|apply IH].
    destruct (normalize_ts now m) as [ts|e]; simpl; [|by rewrite app_nil_r].
    unfold Bun.storeMessage. case_bool_decide; [apply IH|].
    rewrite IH. simpl. by rewrite <- app_assoc.
Qed.

(** C7, where the code departs from it. The merge of a peer's answer
    leaves every other cursor alone, and either leaves the peer's own
    cursor as it was or writes the largest [createdAtMs] among the
    messages the loop stored from that batch (the messages the merge adds
    to the log; records that were not stored play no part), and only when
    that is above the [sinceMs] the cycle read before it awaited the
    answer. So a cycle that nothing interrupts, whose [sinceMs] is still
    the cursor, never lowers a cursor, and neither does a sequence of such
    cycles. But the test is against the [sinceMs] read earlier, not
    against the cursor in the store: of two cycles of the Bun server that
    overlap, both having read the unset cursor as 0, the first to merge
    sets the cursor to 100 and the second lowers it to 50. *)
Theorem peer_cursor_lowered_by_overlap `{Platform} (cfg : Config) (hive : string)
  (now : Z) :
  (∀ (st : Bun.State) peer sinceMs answer,
     let st' := poll_merge hive now peer sinceMs answer st in
     (∀ q, q ≠ peer → Bun.peerCursors st' !! q = Bun.peerCursors st !! q)
     ∧ (Bun.peerCursors st' !! peer = Bun.peerCursors st !! peer
        ∨ ∃ incoming v,
            answer = Some incoming ∧ Bun.peerCursors st' !! peer = Some v
            ∧ sinceMs < v
            ∧ Bun.messages st' = Bun.messages st ++ poll_accepted hive now incoming st
            ∧ (∃ m, m ∈ poll_accepted hive now incoming st
                    ∧ createdAtMs m = JS.Fin v)
            ∧ (∀ m x, m ∈ poll_accepted hive now incoming st →
                      createdAtMs m = JS.Fin x → x ≤ v)))
  ∧ (∀ (st : Worker.State) peer sinceMs answer,
       let st' := poll_merge hive now peer sinceMs answer st in
       (∀ q, q ≠ peer → Worker.cursors st' !! q = Worker.cursors st !! q)
       ∧ (Worker.cursors st' !! peer = Worker.cursors st !! peer
          ∨ ∃ incoming v,
              answer = Some incoming ∧ Worker.cursors st' !! peer = Some v
              ∧ sinceMs < v
              ∧ (∃ m, m ∈ poll_accepted hive now incoming st
                      ∧ createdAtMs m = JS.Fin v)
              ∧ (∀ m x, m ∈ poll_accepted hive now incoming st →
                        createdAtMs m = JS.Fin x → x ≤ v)))
  ∧ (∀ (st : Bun.State) peer answer q,
       poll_peer hive now peer answer st
       = poll_merge hive now peer (default 0 (Bun.peerCursors st !! peer)) answer st
       ∧ default 0 (Bun.peerCursors st !! q)
         ≤ default 0 (Bun.peerCursors (poll_peer hive now peer answer st) !! q))
  ∧ (∀ (st : Worker.State) peer answer q,
       poll_peer hive now peer answer st
       = poll_merge hive now peer (default 0 (Worker.cursors st !! peer)) answer st
       ∧ default 0 (Worker.cursors st !! q)
         ≤ default 0 (Worker.cursors (poll_peer hive now peer answer st) !! q))
  ∧ (∀ (st : Bun.State) answers q,
       default 0 (Bun.peerCursors st !! q)
       ≤ default 0 (Bun.peerCursors (Bun.poll cfg now answers st) !! q))
  ∧ (∀ (st : Worker.State) answers q,
       default 0 (Worker.cursors st !! q)
       ≤ default 0 (Worker.cursors (Worker.alarm cfg now answers st) !! q))
  ∧ (poll_read "http://b" Bun.initial = 0
     ∧ (λ m, (uid m, createdAtMs m)) <$> Bun.messages Sample.overlap_b1
       = [("b1", JS.Fin 100)]
     ∧ (λ m, (uid m, createdAtMs m)) <$> Bun.messages Sample.overlap_b2
       = [("b1", JS.Fin 100); ("b2", JS.Fin 50)]
     ∧ Bun.peerCursors Sample.overlap_a1 !! "http://b" = Some 100
     ∧ Bun.peerCursors Sample.overlap_a2 !! "http://b" = Some 50
     ∧ uid <$> Bun.messages Sample.overlap_a2 = ["b1"; "b2"]).
Proof.
  split; [|split; [|split; [|split; [|split; [|split]]]]].
  - intros st peer sinceMs answer st'.
    destruct (poll_merge_cursor hive now peer sinceMs answer st) as [Hother Hown].
    split; [exact Hother|].
    destruct Hown as [Hsame|(incoming & v & -> & Hv & Hlt & Hmax & Hub)]; [by left|].
    right. exists incoming, v. repeat split; try done.
    subst st'. unfold poll_merge.
    pose proof (Bun_poll_loop_messages hive now incoming sinceMs st) as Hmsgs.
    destruct (poll_loop hive now incoming sinceMs st)
      as [st1 [maxSeen|e]]; simpl in Hmsgs; [|done].
    by case_match.
  - intros st peer sinceMs answer st'.
    exact (poll_merge_cursor hive now peer sinceMs answer st).
  - intros st peer answer q. split; [reflexivity|].
    exact (poll_peer_cursor_mono (S:=Bun.State) hive now peer answer st q).
  - intros st peer answer q. split; [reflexivity|].
    exact (poll_peer_cursor_mono (S:=Worker.State) hive now peer answer st q).
  - intros st answers q.
    exact (pollPeers_cursor_mono (S:=Bun.State) (HIVE_ID cfg) now (GOSSIP_PEERS cfg)
             answers q st).
  - intros st answers q.
    exact (pollPeers_cursor_mono (S:=Worker.State) (Worker.this_hiveId st) now
             (GOSSIP_PEERS cfg) answers q st).
  - split; [reflexivity|]. repeat split; vm_compute; reflexivity.
Qed.

(** A batch in which the record with the largest [createdAtMs] is a
    duplicate: the cursor moves to the [createdAtMs] of the record that was
    stored, not to the largest one received. *)
Example cursor_ignores_duplicates :
  let st := (Bun.storeMessage (Sample.hello "u1" 900) Bun.initial).2 in
  Bun.peerCursors
    (@poll_peer Sample.platform _ Bun.host "openclaw-devnet" 1000 "http://b"
       (Some [Some (Sample.wire "u1" 900); Some (Sample.wire "u2" 100)]) st)
  !! "http://b" = Some 100.
Proof. vm_compute. reflexivity. Qed.

(** A batch of duplicates leaves the cursor unset. *)
Example cursor_unmoved_by_duplicates :
  let st := (Bun.storeMessage (Sample.hello "u1" 900) Bun.initial).2 in
  Bun.peerCursors
    (@poll_peer Sample.platform _ Bun.host "openclaw-devnet" 1000 "http://b"
       (Some [Some (Sample.wire "u1" 900); Some (Sample.wire "u1" 950)]) st)
  !! "http://b" = None.
Proof. vm_compute. reflexivity. Qed.

(** In [server.ts] the poll loop hands [storeMessage] an object with
    [id: 0], which the spread lets win over the identifier just allocated:
    a message that arrives through a poll is stored with [id] 0, while the
    counter still advances. In [worker.ts], and through a push, the message
    gets the allocated identifier. *)
Lemma Bun_polled_message_has_id_zero `{Platform} (hive : string) (now : Z)
  (m : WireMessage) (u ts : string) (c : Z) (st : Bun.State) :
  poll_candidate hive (Some m) = Some (m, u) → normalize_ts now m = Ret ts →
  u ∉ Bun.messageIds st →
  ∃ x, Bun.messages (poll_loop hive now [Some m] c st).1 = Bun.messages st ++ [x]
       ∧ uid x = u ∧ id x = 0
       ∧ Bun.nextMessageId (poll_loop hive now [Some m] c st).1
         = Bun.nextMessageId st + 1.
Proof.
  intros Hc Hts Hfresh. simpl. rewrite Hc, Hts.
  unfold Bun.storeMessage. rewrite bool_decide_eq_false_2 by done. simpl.
  eexists. split; [reflexivity|]. done.
Qed.

(** ** The push loop *)

Section PushFacts.
Context `{Platform} {S : Type} `{!GossipHost S} `{!HostSpec S}.

Lemma push_candidate_Some (hive : string) (msg : option WireMessage) m u :
  push_candidate hive msg = Some (m, u) →
  msg = Some m ∧ w_uid m = Some u ∧ u ≠ "" ∧ w_hiveId m = Some hive
  ∧ JS.truthy_str (w_agentId m) = true ∧ JS.truthy_str (w_content m) = true.
Proof.
  unfold push_candidate. destruct msg as [m'|]; [|done].
  destruct (w_uid m') as [u'|] eqn:Hu; [|done].
  destruct (JS.truthy_str (Some u')) eqn:Hu'; [|done].
  destruct (JS.truthy_str (w_agentId m')) eqn:Ha; [|done].
  destruct (JS.truthy_str (w_hiveId m')) eqn:Hh; [|done].
  destruct (JS.truthy_str (w_content m')) eqn:Hc; [|done]. simpl.
  case_bool_decide; [|done]. intros [= <- <-].
  apply truthy_str_Some in Hu'. done.
Qed.

Lemma poll_candidate_Some (hive : string) (msg : option WireMessage) m u :
  poll_candidate hive msg = Some (m, u) ↔
  msg = Some m ∧ w_uid m = Some u ∧ u ≠ "" ∧ w_hiveId m = Some hive.
Proof.
  unfold poll_candidate. split.
  - destruct msg as [m'|]; [|done].
    destruct (w_uid m') as [u'|] eqn:Hu; [|done].
    case_bool_decide; [|done].
    destruct (JS.truthy_str (Some u')) eqn:Hu'; [|done]. simpl.
    intros [= <- <-]. apply truthy_str_Some in Hu'. done.
  - intros (-> & Hu & Hne & Hh). rewrite Hu, Hh.
    rewrite bool_decide_eq_true_2 by done.
    by rewrite (proj2 (truthy_str_Some u) Hne).
Qed.

(** Whatever the push loop takes, the poll loop takes. *)
Lemma push_candidate_poll_candidate (hive : string) (msg : option WireMessage) m u :
  push_candidate hive msg = Some (m, u) → poll_candidate hive msg = Some (m, u).
Proof.
  intros (-> & Hu & Hne & Hh & _)%push_candidate_Some.
  by apply poll_candidate_Some.
Qed.

(** The counts of a push that completes add up to the size of the batch. *)
Lemma push_loop_counts (hive : string) (now : Z)
  (incoming : list (option WireMessage)) :
  ∀ counts st st' counts',
    push_loop hive now incoming counts st = (st', Ret counts') →
    accepted counts' + skipped counts'
    = accepted counts + skipped counts + Z.of_nat (length incoming)
    ∧ accepted counts ≤ accepted counts' ∧ skipped counts ≤ skipped counts'.
Proof.
  induction incoming as [|msg rest IH]; intros counts st st' counts'; simpl.
  - intros [= <- <-]. lia.
  - destruct (push_candidate hive msg) as [[m u]|].
    + destruct (normalize_ts now m) as [ts|e]; [|done].
      destruct (store_message _ st) as [[x|] st1]; intros Hloop;
        apply IH in Hloop; simpl in Hloop; lia.
    + intros Hloop. apply IH in Hloop. simpl in Hloop. lia.
Qed.

(** A push completes when a timestamp can be produced for every record
    that passes the guards. *)
Lemma push_loop_total (hive : string) (now : Z)
  (incoming : list (option WireMessage)) :
  (∀ m u, Some m ∈ incoming → push_candidate hive (Some m) = Some (m, u) →
          has_timestamp now m) →
  ∀ counts st, ∃ st' counts', push_loop hive now incoming counts st = (st', Ret counts').
Proof.
  induction incoming as [|msg rest IH]; intros Hts counts st; simpl; [eauto|].
  assert (∀ m u, Some m ∈ rest → push_candidate hive (Some m) = Some (m, u) →
                 has_timestamp now m) as Hrest.
  { intros m u Hin. apply Hts. by apply list_elem_of_further. }
  destruct (push_candidate hive msg) as [[m u]|] eqn:Hc; [|by apply IH].
  destruct (push_candidate_Some _ _ _ _ Hc) as (-> & _).
  destruct (Hts m u (list_elem_of_here _ _) Hc) as [ts ->].
  destruct (store_message _ st) as [stored st1]. by apply IH.
Qed.

(** A record that fails a guard is counted as skipped and the loop goes
    on with the store as it was. *)
Lemma push_loop_skip (hive : string) (now : Z) (msg : option WireMessage)
  (rest : list (option WireMessage)) (counts : PushOk) (st : S) :
  push_candidate hive msg = None →
  push_loop hive now (msg :: rest) counts st
  = push_loop hive now rest
      {| accepted := accepted counts; skipped := skipped counts + 1 |} st.
Proof. intros Hc. simpl. by rewrite Hc. Qed.

(** Every message a push adds to the log has an [agentId] and a
    [content]. *)
Lemma push_loop_holds (hive : string) (now : Z)
  (incoming : list (option WireMessage)) :
  ∀ counts st, inv st →
    let st' := (push_loop hive now incoming counts st).1 in
    inv st'
    ∧ ∀ x, holds st' x →
           holds st x
           ∨ (JS.truthy_str (agentId x) = true ∧ JS.truthy_str (content x) = true
              ∧ hiveId x = hive ∧ source x = gossip).
Proof.
  induction incoming as [|msg rest IH]; intros counts st Hinv; simpl; [by eauto|].
  destruct (push_candidate hive msg) as [[m u]|] eqn:Hc; [|by apply IH].
  destruct (push_candidate_Some _ _ _ _ Hc) as (-> & Hu & Hne & Hh & Ha & Hcont).
  destruct (normalize_ts now m) as [ts|e]; simpl; [|by eauto].
  set (input := normalize None u hive ts m).
  destruct (known_dec st (in_uid input)) as [Hk|Hk].
  - rewrite (store_known st input Hinv Hk). by apply IH.
  - destruct (store_fresh st input Hinv Hk) as (k & st1 & Hst & Hholds).
    pose proof (store_inv st input Hinv) as Hinv1.
    rewrite Hst in *. simpl in Hinv1.
    destruct (IH {| accepted := accepted counts + 1; skipped := skipped counts |}
                st1 Hinv1) as [Hinv' Hsub].
    split; [done|]. intros x Hx.
    destruct (Hsub x Hx) as [Hx1|Hnew]; [|by right].
    apply Hholds in Hx1 as [Hx0| ->]; [by left|right]. done.
Qed.

End PushFacts.

Section PushContract.
Context `{Platform} {S : Type} `{!GossipHost S} `{!HostSpec S}.

Lemma push_loop_shift (hive : string) (now : Z) (incoming : list (option WireMessage)) :
  ∀ counts st,
    push_loop hive now incoming
      {| accepted := accepted counts; skipped := skipped counts + 1 |} st
    = one_more_skipped (push_loop hive now incoming counts st).
Proof.
  induction incoming as [|msg rest IH]; intros counts st; simpl; [done|].
  destruct (push_candidate hive msg) as [[m u]|].
  - destruct (normalize_ts now m) as [ts|e]; [|done].
    destruct (store_message _ st) as [[x|] st1]; simpl.
    + apply (IH {| accepted := accepted counts + 1; skipped := skipped counts |}).
    + apply (IH {| accepted := accepted counts; skipped := skipped counts + 1 |}).
  - apply (IH {| accepted := accepted counts; skipped := skipped counts + 1 |}).
Qed.

(** A record that fails a guard changes nothing but the count of skipped
    records, wherever it stands in the batch. *)
Lemma push_loop_drop (hive : string) (now : Z) (bad : option WireMessage)
  (before after : list (option WireMessage)) :
  push_candidate hive bad = None →
  ∀ counts st,
    push_loop hive now (before ++ bad :: after) counts st
    = one_more_skipped (push_loop hive now (before ++ after) counts st).
Proof.
  intros Hbad. induction before as [|msg rest IH]; intros counts st; simpl.
  - rewrite Hbad. apply push_loop_shift.
  - destruct (push_candidate hive msg) as [[m u]|]; [|apply IH].
    destruct (normalize_ts now m) as [ts|e]; [|done].
    destruct (store_message _ st) as [stored st1]. apply IH.
Qed.

Lemma gossip_push_contract (cfg : Config) (hive : string) (now : Z)
  (header : option string) (incoming : list (option WireMessage)) (st : S) :
  authorizeGossip cfg header = true →
  (∀ m u, Some m ∈ incoming → push_candidate hive (Some m) = Some (m, u) →
          has_timestamp now m) →
  ∃ st' counts,
    gossip_push cfg hive now header incoming st = (st', Ret (OK counts))
    ∧ accepted counts + skipped counts = Z.of_nat (length incoming)
    ∧ 0 ≤ accepted counts ∧ 0 ≤ skipped counts.
Proof.
  intros Hauth Hts. unfold gossip_push. rewrite Hauth. simpl.
  destruct (push_loop_total hive now incoming Hts {| accepted := 0; skipped := 0 |} st)
    as (st' & counts & Hloop).
  rewrite Hloop. eexists _, _. split; [reflexivity|].
  apply push_loop_counts in Hloop. simpl in Hloop. lia.
Qed.

Lemma gossip_push_drop (cfg : Config) (hive : string) (now : Z)
  (header : option string) (bad : option WireMessage)
  (before after : list (option WireMessage)) (st st' : S) (counts : PushOk) :
  push_candidate hive bad = None →
  gossip_push cfg hive now header (before ++ after) st = (st', Ret (OK counts)) →
  gossip_push cfg hive now header (before ++ bad :: after) st
  = (st', Ret (OK {| accepted := accepted counts; skipped := skipped counts + 1 |})).
Proof.
  intros Hbad. unfold gossip_push. case_match; [done|].
  rewrite (push_loop_drop hive now bad before after Hbad).
  destruct (push_loop hive now (before ++ after) _ st) as [st1 [c|e]]; simpl; [|done].
  by intros [= <- <-].
Qed.

Lemma gossip_push_scenario (cfg : Config) (hive : string) (now : Z)
  (header : option string) (good bad : option WireMessage) (m : WireMessage)
  (u : string) (st : S) :
  authorizeGossip cfg header = true → inv st →
  push_candidate hive good = Some (m, u) → ¬ known st u → has_timestamp now m →
  push_candidate hive bad = None →
  ∃ st', gossip_push cfg hive now header [good; bad] st
         = (st', Ret (OK {| accepted := 1; skipped := 1 |})).
Proof.
  intros Hauth Hinv Hgood Hfresh [ts Hts] Hbad.
  unfold gossip_push. rewrite Hauth. simpl. rewrite Hgood, Hts, Hbad.
  destruct (store_fresh st (normalize None u hive ts m) Hinv Hfresh)
    as (k & st1 & -> & _).
  eauto.
Qed.

(** The loop over a batch is the loop over its first part and then, unless
    that raised, over the rest. *)
Lemma push_loop_app (hive : string) (now : Z) (l1 l2 : list (option WireMessage)) :
  ∀ counts st,
    push_loop hive now (l1 ++ l2) counts st
    = match push_loop hive now l1 counts st with
      | (st1, Ret counts1) => push_loop hive now l2 counts1 st1
      | (st1, Throw e) => (st1, Throw e)
      end.
Proof.
  induction l1 as [|msg rest IH]; intros counts st; simpl; [done|].
  destruct (push_candidate hive msg) as [[m u]|]; [|apply IH].
  destruct (normalize_ts now m) as [ts|e]; [|done].
  destruct (store_message _ st) as [stored st1]. apply IH.
Qed.

(** No timestamp can be built for a record without [ts] whose
    [createdAtMs] is beyond the range of [Date]. *)
Lemma normalize_ts_out_of_range (now : Z) (m : WireMessage) (z : Z) :
  w_ts m = None → w_createdAtMs m = JS.Fin z → MAX_TIME_VALUE < Z.abs z →
  normalize_ts now m = Throw "RangeError: Invalid time value".
Proof.
  intros Hts Hc Hz. unfold normalize_ts. rewrite Hts, Hc. simpl.
  destruct (Z.eqb_spec z 0) as [->|_]; [unfold MAX_TIME_VALUE in Hz; lia|].
  simpl. destruct (Z.leb_spec (Z.abs z) MAX_TIME_VALUE); [lia|done].
Qed.

(** A push that reaches such a record ends there with the exception: the
    records before it have been stored, the records after it are not
    looked at, and no counts are returned. *)
Lemma gossip_push_raises (cfg : Config) (hive : string) (now : Z)
  (header : option string) (before after : list (option WireMessage))
  (m : WireMessage) (u : string) (z : Z) (st : S) :
  authorizeGossip cfg header = true →
  push_candidate hive (Some m) = Some (m, u) →
  w_ts m = None → w_createdAtMs m = JS.Fin z → MAX_TIME_VALUE < Z.abs z →
  (∀ m' u', Some m' ∈ before → push_candidate hive (Some m') = Some (m', u') →
            has_timestamp now m') →
  gossip_push cfg hive now header (before ++ Some m :: after) st
  = ((gossip_push cfg hive now header before st).1,
     Throw "RangeError: Invalid time value").
Proof.
  intros Hauth Hc Hts Hcreated Hz Hbefore. unfold gossip_push. rewrite Hauth. simpl.
  rewrite push_loop_app.
  destruct (push_loop_total hive now before Hbefore {| accepted := 0; skipped := 0 |} st)
    as (st1 & counts1 & ->).
  simpl. by rewrite Hc, (normalize_ts_out_of_range now m z Hts Hcreated Hz).
Qed.

End PushContract.

Lemma Worker_enter_wf (hiveHeader : option string) (st : Worker.State) :
  Worker_wf st → Worker_wf (Worker.enter hiveHeader st).
Proof.
  intros [H1 H2 H3]. unfold Worker.enter. destruct hiveHeader as [h|]; [|by split].
  case_match; by split.
Qed.

Lemma Worker_enter_uids (hiveHeader : option string) (st : Worker.State) :
  Worker.uids (Worker.enter hiveHeader st) = Worker.uids st
  ∧ Worker.msgs (Worker.enter hiveHeader st) = Worker.msgs st
  ∧ Worker.cursors (Worker.enter hiveHeader st) = Worker.cursors st.
Proof.
  unfold Worker.enter. destruct hiveHeader as [h|]; [|done]. by case_match.
Qed.

(** C9, where the code departs from it. In both servers, an authorized
    push whose batch holds a record that passes every field check, has no
    [ts] and carries a [createdAtMs] beyond the range of [Date] (1e16, say)
    is not answered with counts: building the record's timestamp raises a
    [RangeError] outside any [try], and the handler ends there. The
    records before it have been stored, the records after it are not
    looked at. On the sample servers the batch of a well-formed record,
    such a record and another well-formed record ends with the exception
    and one message stored. *)
Theorem push_raises_without_counts `{Platform} (cfg : Config) (now : Z)
  (header : option string) (before after : list (option WireMessage))
  (m : WireMessage) (u : string) (z : Z) :
  (∀ st : Bun.State,
     authorizeGossip cfg header = true →
     push_candidate (HIVE_ID cfg) (Some m) = Some (m, u) →
     w_ts m = None → w_createdAtMs m = JS.Fin z → MAX_TIME_VALUE < Z.abs z →
     (∀ m' u', Some m' ∈ before →
               push_candidate (HIVE_ID cfg) (Some m') = Some (m', u') →
               has_timestamp now m') →
     Bun.push cfg now header (before ++ Some m :: after) st
     = ((Bun.push cfg now header before st).1,
        Throw "RangeError: Invalid time value"))
  ∧ (∀ (hiveHeader : option string) (st : Worker.State),
       let hive := Worker.this_hiveId (Worker.enter hiveHeader st) in
       authorizeGossip cfg header = true →
       push_candidate hive (Some m) = Some (m, u) →
       w_ts m = None → w_createdAtMs m = JS.Fin z → MAX_TIME_VALUE < Z.abs z →
       (∀ m' u', Some m' ∈ before → push_candidate hive (Some m') = Some (m', u') →
                 has_timestamp now m') →
       Worker.push cfg hiveHeader now header (before ++ Some m :: after) st
       = ((Worker.push cfg hiveHeader now header before st).1,
          Throw "RangeError: Invalid time value"))
  ∧ (∃ st', @Bun.push Sample.platform Sample.cfg 0 None
              [Some (Sample.wire "u1" 5); Some (Sample.wire_out_of_range "u2");
               Some (Sample.wire "u3" 7)] Bun.initial
            = (st', Throw "RangeError: Invalid time value")
            ∧ uid <$> Bun.messages st' = ["u1"])
  ∧ (∃ st', @Worker.push Sample.platform Sample.cfg None 0 None
              [Some (Sample.wire "u1" 5); Some (Sample.wire_out_of_range "u2");
               Some (Sample.wire "u3" 7)] (Worker.initial Sample.cfg)
            = (st', Throw "RangeError: Invalid time value")
            ∧ size (Worker.msgs st') = 1%nat).
Proof.
  split; [|split; [|split]].
  - intros st Hauth Hc Hts Hcreated Hz Hbefore.
    exact (gossip_push_raises cfg (HIVE_ID cfg) now header before after m u z st
             Hauth Hc Hts Hcreated Hz Hbefore).
  - intros hiveHeader st hive Hauth Hc Hts Hcreated Hz Hbefore.
    exact (gossip_push_raises cfg hive now header before after m u z
             (Worker.enter hiveHeader st) Hauth Hc Hts Hcreated Hz Hbefore).
  - eexists. split; vm_compute; reflexivity.
  - eexists. split; vm_compute; reflexivity.
Qed.

(** ** What a poll stores *)

Section PollStore.
Context `{Platform} {S : Type} `{!GossipHost S} `{!HostSpec S}.

Lemma store_fresh_known (st st' : S) (i : MessageInput) (x : HiveMessage) :
  inv st → ¬ known st (in_uid i) → store_message i st = (Some x, st') →
  inv st'
  ∧ (∃ k, x = with_id k i)
  ∧ (∀ m, holds st' m ↔ holds st m ∨ m = x)
  ∧ (∀ u, known st' u ↔ known st u ∨ u = in_uid i).
Proof.
  intros Hinv Hfresh Hst.
  pose proof (store_inv st i Hinv) as Hinv'. rewrite Hst in Hinv'. simpl in Hinv'.
  destruct (store_fresh st i Hinv Hfresh) as (k & st1 & Hst1 & Hholds).
  rewrite Hst in Hst1. injection Hst1 as -> <-.
  split; [done|]. split; [eauto|]. split; [done|].
  intros u. rewrite (known_holds st' u Hinv'), (known_holds st u Hinv). split.
  - intros (m & [Hm | ->]%Hholds & Hu); [left; eauto|right; by rewrite <- Hu].
  - intros [(m & Hm & Hu) | ->].
    + exists m. split; [apply Hholds; by left|done].
    + eexists. split; [apply Hholds; by right|done].
Qed.

(** Where the messages a poll stores come from. *)
Lemma poll_accepted_origin (hive : string) (now : Z)
  (incoming : list (option WireMessage)) :
  ∀ st x, inv st → x ∈ poll_accepted hive now incoming st →
    ∃ m u ts k,
      Some m ∈ incoming ∧ poll_candidate hive (Some m) = Some (m, u)
      ∧ normalize_ts now m = Ret ts
      ∧ x = with_id k (normalize poll_id u hive ts m).
Proof.
  induction incoming as [|msg rest IH]; intros st x Hinv; simpl.
  { by intros ?%elem_of_nil. }
  destruct (poll_candidate hive msg) as [[m u]|] eqn:Hc.
  2: { intros Hx. destruct (IH st x Hinv Hx) as (m & u & ts & k & Hin & Hrest).
       exists m, u, ts, k. split; [by apply list_elem_of_further|done]. }
  pose proof (proj1 (poll_candidate_Some _ _ _ _) Hc) as (-> & _).
  destruct (normalize_ts now m) as [ts|e] eqn:Hts; [|by intros ?%elem_of_nil].
  set (input := normalize poll_id u hive ts m).
  destruct (known_dec st (in_uid input)) as [Hk|Hk].
  - rewrite (store_known st input Hinv Hk). intros Hx.
    destruct (IH st x Hinv Hx) as (m' & u' & ts' & k & Hin & Hrest).
    exists m', u', ts', k. split; [by apply list_elem_of_further|done].
  - destruct (store_message input st) as [[y|] st1] eqn:Hst.
    + destruct (store_fresh_known st st1 input y Hinv Hk Hst) as (Hinv1 & [k ->] & _).
      intros [->|Hx]%elem_of_cons.
      * exists m, u, ts, k. split; [apply list_elem_of_here|done].
      * destruct (IH st1 x Hinv1 Hx) as (m' & u' & ts' & k' & Hin & Hrest).
        exists m', u', ts', k'. split; [by apply list_elem_of_further|done].
    + destruct (store_fresh st input Hinv Hk) as (k & st2 & Hst2 & _). congruence.
Qed.

(** A poll over a batch in which every candidate has a timestamp runs to
    the end, and afterwards the index holds, besides what it held, the
    [uid] of every candidate. *)
Lemma poll_loop_known (hive : string) (now : Z)
  (incoming : list (option WireMessage)) :
  ∀ c st, inv st →
    (∀ m u, Some m ∈ incoming → poll_candidate hive (Some m) = Some (m, u) →
            has_timestamp now m) →
    ∃ st' c', poll_loop hive now incoming c st = (st', Ret c') ∧ inv st'
      ∧ ∀ u, known st' u ↔
             known st u
             ∨ ∃ m, Some m ∈ incoming ∧ poll_candidate hive (Some m) = Some (m, u).
Proof.
  induction incoming as [|msg rest IH]; intros c st Hinv Hts; simpl.
  { eexists _, _. split; [done|]. split; [done|]. intros u. split; [by left|].
    intros [Hk|(m & Hin & _)]; [done|by apply elem_of_nil in Hin]. }
  assert (∀ m u, Some m ∈ rest → poll_candidate hive (Some m) = Some (m, u) →
                 has_timestamp now m) as Hrest.
  { intros m u Hin. apply Hts. by apply list_elem_of_further. }
  destruct (poll_candidate hive msg) as [[m u]|] eqn:Hc.
  2: { destruct (IH c st Hinv Hrest) as (st' & c' & Hloop & Hinv' & Hknown).
       exists st', c'. split; [done|]. split; [done|]. intros u'.
       rewrite Hknown. split.
       - intros [Hk|(m & Hin & Hm)]; [by left|right].
         exists m. split; [by apply list_elem_of_further|done].
       - intros [Hk|(m & [Heq|Hin]%elem_of_cons & Hm)]; [by left| |right; eauto].
         congruence. }
  pose proof (proj1 (poll_candidate_Some _ _ _ _) Hc) as (-> & _).
  destruct (Hts m u (list_elem_of_here _ _) Hc) as [ts Hnorm]. rewrite Hnorm.
  set (input := normalize poll_id u hive ts m).
  destruct (known_dec st (in_uid input)) as [Hk|Hk].
  - rewrite (store_known st input Hinv Hk).
    destruct (IH (bump c None) st Hinv Hrest) as (st' & c' & Hloop & Hinv' & Hknown).
    exists st', c'. split; [done|]. split; [done|]. intros u'.
    rewrite Hknown. split.
    + intros [Hk'|(m' & Hin & Hm)]; [by left|right].
      exists m'. split; [by apply list_elem_of_further|done].
    + intros [Hk'|(m' & [Heq|Hin]%elem_of_cons & Hm)]; [by left| |right; eauto].
      left. injection Heq as ->. rewrite Hc in Hm. by injection Hm as <-.
  - destruct (store_message input st) as [[y|] st1] eqn:Hst.
    2: { destruct (store_fresh st input Hinv Hk) as (k & st2 & Hst2 & _). congruence. }
    destruct (store_fresh_known st st1 input y Hinv Hk Hst)
      as (Hinv1 & _ & _ & Hknown1).
    destruct (IH (bump c (Some y)) st1 Hinv1 Hrest)
      as (st' & c' & Hloop & Hinv' & Hknown).
    exists st', c'. split; [done|]. split; [done|]. intros u'.
    rewrite Hknown, Hknown1. split.
    + intros [[Hk'| ->]|(m' & Hin & Hm)].
      * by left.
      * right. exists m. split; [apply list_elem_of_here|done].
      * right. exists m'. split; [by apply list_elem_of_further|done].
    + intros [Hk'|(m' & [Heq|Hin]%elem_of_cons & Hm)].
      * left. by left.
      * left. right. injection Heq as ->. rewrite Hc in Hm. by injection Hm as <-.
      * right. eauto.
Qed.

(** A candidate whose [uid] is new is stored as it came: the [agentId] and
    the [content] of the stored message are the record's, absent if they
    were absent. *)
Lemma poll_loop_stores (hive : string) (now : Z) (m : WireMessage) (u ts : string)
  (c : Z) (st : S) :
  inv st → poll_candidate hive (Some m) = Some (m, u) →
  normalize_ts now m = Ret ts → ¬ known st u →
  ∃ x, holds (poll_loop hive now [Some m] c st).1 x
       ∧ uid x = u ∧ hiveId x = hive ∧ source x = gossip
       ∧ agentId x = w_agentId m ∧ content x = w_content m.
Proof.
  intros Hinv Hc Hts Hfresh. simpl. rewrite Hc, Hts.
  destruct (store_fresh st (normalize poll_id u hive ts m) Hinv Hfresh)
    as (k & st1 & -> & Hholds).
  simpl. eexists. split; [apply Hholds; by right|]. done.
Qed.

(** What the log holds, the loop keeps. *)
Lemma poll_loop_keeps (hive : string) (now : Z) (incoming : list (option WireMessage))
  (c : Z) (st : S) :
  inv st →
  inv (poll_loop hive now incoming c st).1
  ∧ (∀ x, holds st x → holds (poll_loop hive now incoming c st).1 x)
  ∧ (∀ u, known st u → known (poll_loop hive now incoming c st).1 u).
Proof.
  intros Hinv.
  destruct (poll_accepted_holds hive now incoming c st Hinv) as [Hinv' Hiff].
  split; [done|]. split.
  - intros x Hx. apply Hiff. by left.
  - intros u (x & Hx & Hu)%(known_holds st u Hinv).
    apply (known_holds _ u Hinv'). exists x. split; [|done]. apply Hiff. by left.
Qed.

(** A candidate the loop reaches is handed to [storeMessage], whatever
    comes after it in the batch: once the loop is over its [uid] is in the
    index, and if the [uid] was new the log holds the record as it came,
    its [agentId] and [content] absent if they were absent. The loop
    reaches it when a timestamp can be produced for it and for every
    candidate before it. *)
Lemma poll_loop_reaches (hive : string) (now : Z)
  (before after : list (option WireMessage)) (m : WireMessage) (u : string)
  (c : Z) (st : S) :
  inv st → poll_candidate hive (Some m) = Some (m, u) → has_timestamp now m →
  (∀ m' u', Some m' ∈ before → poll_candidate hive (Some m') = Some (m', u') →
            has_timestamp now m') →
  let st' := (poll_loop hive now (before ++ Some m :: after) c st).1 in
  known st' u
  ∧ (¬ known st u → (∀ m', Some m' ∈ before → w_uid m' ≠ Some u) →
     ∃ x, holds st' x ∧ uid x = u ∧ hiveId x = hive ∧ source x = gossip
          ∧ agentId x = w_agentId m ∧ content x = w_content m).
Proof.
  intros Hinv Hc [ts Hts] Hbefore st'. subst st'. rewrite poll_loop_app.
  destruct (poll_loop_known hive now before c st Hinv Hbefore)
    as (st1 & c1 & -> & Hinv1 & Hknown1).
  simpl. rewrite Hc, Hts.
  set (input := normalize poll_id u hive ts m).
  destruct (known_dec st1 (in_uid input)) as [Hk|Hk].
  - rewrite (store_known st1 input Hinv1 Hk).
    destruct (poll_loop_keeps hive now after (bump c1 None) st1 Hinv1)
      as (_ & _ & Hkeep).
    split; [by apply Hkeep|].
    intros Hfresh Hnew. apply Hknown1 in Hk as [Hk|(m' & Hin & Hm')]; [done|].
    apply poll_candidate_Some in Hm' as (_ & Hu & _). by destruct (Hnew m' Hin).
  - destruct (store_fresh st1 input Hinv1 Hk) as (k & st2 & Hst & Hholds).
    pose proof (store_inv st1 input Hinv1) as Hinv2.
    rewrite Hst in *. simpl in Hinv2.
    destruct (poll_loop_keeps hive now after (bump c1 (Some (with_id k input))) st2
                Hinv2) as (Hinv' & Hkeep & _).
    assert (Hx : holds (poll_loop hive now after
                          (bump c1 (Some (with_id k input))) st2).1 (with_id k input)).
    { apply Hkeep, Hholds. by right. }
    split.
    + apply (known_holds _ u Hinv'). by exists (with_id k input).
    + intros _ _. by exists (with_id k input).
Qed.

(** A record the push loop takes, for which a timestamp can be produced
    and whose [uid] is new, is stored and counted as accepted. *)
Lemma push_loop_accepts (hive : string) (now : Z) (m : WireMessage) (u : string)
  (counts : PushOk) (st : S) :
  inv st → push_candidate hive (Some m) = Some (m, u) → has_timestamp now m →
  ¬ known st u →
  ∃ st', push_loop hive now [Some m] counts st
         = (st', Ret {| accepted := accepted counts + 1; skipped := skipped counts |})
         ∧ known st' u.
Proof.
  intros Hinv Hc [ts Hts] Hfresh. simpl. rewrite Hc, Hts.
  set (input := normalize None u hive ts m).
  destruct (store_message input st) as [[y|] st1] eqn:Hst.
  - destruct (store_fresh_known st st1 input y Hinv Hfresh Hst) as (_ & _ & _ & Hk).
    eexists. split; [reflexivity|]. apply Hk. by right.
  - destruct (store_fresh st input Hinv Hfresh) as (k & st2 & Hst2 & _). congruence.
Qed.

End PollStore.

Lemma push_candidate_incomplete (hive : string) (m : WireMessage) :
  JS.truthy_str (w_agentId m) = false ∨ JS.truthy_str (w_content m) = false →
  push_candidate hive (Some m) = None.
Proof.
  intros Hmiss. unfold push_candidate. destruct (w_uid m) as [u|]; [|done].
  destruct Hmiss as [-> | ->]; by rewrite ?andb_false_r.
Qed.

(** C10, as amended. Whatever record the push loop takes, the poll loop
    takes; a record with a [uid] and the local [hiveId] that lacks
    [agentId] or [content] is taken by the poll loop and skipped by the
    push loop. In both servers, for every record of a batch that is not
    null and has a [uid] and the local [hiveId], such that a timestamp can
    be produced for it and for every such record before it in the batch,
    the poll loop hands it to [storeMessage], whatever follows it in the
    batch: after the loop its [uid] is in the index, and if the [uid] was
    new, the log holds the record with its [agentId] and [content] as they
    came. A push never adds a message without [agentId] or [content] to
    the log. A record the push loop takes, [ts] or no [ts], is stored and
    counted as accepted when a timestamp can be produced for it and its
    [uid] is new. *)
Theorem pull_accepts_more `{Platform} (hive : string) (now : Z) :
  (∀ msg m u,
     push_candidate hive msg = Some (m, u) → poll_candidate hive msg = Some (m, u))
  ∧ (∀ m u,
       w_uid m = Some u → u ≠ "" → w_hiveId m = Some hive →
       JS.truthy_str (w_agentId m) = false ∨ JS.truthy_str (w_content m) = false →
       poll_candidate hive (Some m) = Some (m, u)
       ∧ (∀ (st : Bun.State) rest counts,
            push_loop hive now (Some m :: rest) counts st
            = push_loop hive now rest
                {| accepted := accepted counts; skipped := skipped counts + 1 |} st)
       ∧ (∀ (st : Worker.State) rest counts,
            push_loop hive now (Some m :: rest) counts st
            = push_loop hive now rest
                {| accepted := accepted counts; skipped := skipped counts + 1 |} st))
  ∧ (∀ (st : Bun.State) m u counts,
       Bun_wf st → push_candidate hive (Some m) = Some (m, u) →
       has_timestamp now m → u ∉ Bun.messageIds st →
       ∃ st', push_loop hive now [Some m] counts st
              = (st', Ret {| accepted := accepted counts + 1;
                             skipped := skipped counts |})
              ∧ u ∈ Bun.messageIds st')
  ∧ (∀ (st : Worker.State) m u counts,
       Worker_wf st → push_candidate hive (Some m) = Some (m, u) →
       has_timestamp now m → Worker.uids st !! u = None →
       ∃ st', push_loop hive now [Some m] counts st
              = (st', Ret {| accepted := accepted counts + 1;
                             skipped := skipped counts |})
              ∧ is_Some (Worker.uids st' !! u))
  ∧ (∀ (st : Bun.State) before m u after c,
       Bun_wf st → poll_candidate hive (Some m) = Some (m, u) →
       has_timestamp now m →
       (∀ m' u', Some m' ∈ before → poll_candidate hive (Some m') = Some (m', u') →
                 has_timestamp now m') →
       let st' := (poll_loop hive now (before ++ Some m :: after) c st).1 in
       u ∈ Bun.messageIds st'
       ∧ (u ∉ Bun.messageIds st → (∀ m', Some m' ∈ before → w_uid m' ≠ Some u) →
          ∃ x, x ∈ Bun.messages st'
               ∧ uid x = u ∧ hiveId x = hive ∧ source x = gossip
               ∧ agentId x = w_agentId m ∧ content x = w_content m))
  ∧ (∀ (st : Bun.State) incoming counts x,
       Bun_wf st → x ∈ Bun.messages (push_loop hive now incoming counts st).1 →
       x ∈ Bun.messages st
       ∨ (JS.truthy_str (agentId x) = true ∧ JS.truthy_str (content x) = true))
  ∧ (∀ (st : Worker.State) before m u after c,
       Worker_wf st → poll_candidate hive (Some m) = Some (m, u) →
       has_timestamp now m →
       (∀ m' u', Some m' ∈ before → poll_candidate hive (Some m') = Some (m', u') →
                 has_timestamp now m') →
       let st' := (poll_loop hive now (before ++ Some m :: after) c st).1 in
       is_Some (Worker.uids st' !! u)
       ∧ (Worker.uids st !! u = None →
          (∀ m', Some m' ∈ before → w_uid m' ≠ Some u) →
          ∃ i x, Worker.msgs st' !! i = Some x
                 ∧ uid x = u ∧ hiveId x = hive ∧ source x = gossip
                 ∧ agentId x = w_agentId m ∧ content x = w_content m))
  ∧ (∀ (st : Worker.State) incoming counts i x,
       Worker_wf st →
       Worker.msgs (push_loop hive now incoming counts st).1 !! i = Some x →
       (∃ j, Worker.msgs st !! j = Some x)
       ∨ (JS.truthy_str (agentId x) = true ∧ JS.truthy_str (content x) = true)).
Proof.
  split; [apply push_candidate_poll_candidate|].
  split.
  { intros m u Hu Hne Hh Hmiss. split; [by apply poll_candidate_Some|].
    split; intros st rest counts; apply push_loop_skip;
      by apply push_candidate_incomplete. }
  split.
  { intros st m u counts Hwf Hc Hts Hfresh.
    exact (push_loop_accepts (HostSpec0:=Bun_spec) hive now m u counts st
             Hwf Hc Hts Hfresh). }
  split.
  { intros st m u counts Hwf Hc Hts Hfresh.
    apply (push_loop_accepts (HostSpec0:=Worker_spec) hive now m u counts st
             Hwf Hc Hts).
    simpl. rewrite Hfresh. by intros [? ?]. }
  split.
  { intros st before m u after c Hwf Hc Hts Hbefore.
    exact (poll_loop_reaches (HostSpec0:=Bun_spec) hive now before after m u c st
             Hwf Hc Hts Hbefore). }
  split.
  { intros st incoming counts x Hwf Hx.
    destruct (push_loop_holds (HostSpec0:=Bun_spec) hive now incoming counts st Hwf)
      as [_ Hsub].
    destruct (Hsub x Hx) as [Hold|(Ha & Hc & _)]; [by left|by right]. }
  split.
  { intros st before m u after c Hwf Hc Hts Hbefore st'.
    destruct (poll_loop_reaches (HostSpec0:=Worker_spec) hive now before after m u c st
                Hwf Hc Hts Hbefore) as [Hk Hnew].
    split; [exact Hk|]. intros Hfresh Hfirst.
    destruct Hnew as (x & [i Hi] & Hx); [|done|by eauto].
    simpl. rewrite Hfresh. by intros [? ?]. }
  intros st incoming counts i x Hwf Hx.
  destruct (push_loop_holds (HostSpec0:=Worker_spec) hive now incoming counts st Hwf)
    as [_ Hsub].
  destruct (Hsub x (ex_intro _ i Hx)) as [Hold|(Ha & Hc & _)]; [by left|by right].
Qed.

(** An instance: a record with neither [agentId] nor [content] enters the
    fresh Bun store through the poll loop, although a record after it in
    the batch makes the loop raise. *)
Lemma pull_accepts_more_witness :
  let st' := (@poll_loop Sample.platform _ Bun.host "openclaw-devnet" 0
                ([Some (Sample.wire "u1" 5)]
                 ++ Some (Sample.wire_anonymous "u2" 6)
                 :: [Some (Sample.wire_out_of_range "u3"); Some (Sample.wire "u4" 8)])
                0 Bun.initial).1 in
  "u2" ∈ Bun.messageIds st'
  ∧ ∃ x, x ∈ Bun.messages st'
         ∧ uid x = "u2" ∧ hiveId x = "openclaw-devnet" ∧ source x = gossip
         ∧ agentId x = None ∧ content x = None.
Proof.
  intros st'.
  destruct (@pull_accepts_more Sample.platform "openclaw-devnet" 0)
    as (_ & _ & _ & _ & HB & _).
  destruct (HB Bun.initial [Some (Sample.wire "u1" 5)]
              (Sample.wire_anonymous "u2" 6) "u2"
              [Some (Sample.wire_out_of_range "u3"); Some (Sample.wire "u4" 8)] 0)
    as [Hk Hnew].
  - apply Bun_wf_initial.
  - reflexivity.
  - exists "6". reflexivity.
  - intros m' u' [= ->]%list_elem_of_singleton _. exists "5". reflexivity.
  - split; [exact Hk|]. apply Hnew.
    + apply not_elem_of_empty.
    + intros m' [= ->]%list_elem_of_singleton. discriminate.
Defined.

(** C10 as stated fails on a record that lacks only [ts]: the poll loop
    takes it, and the push endpoint of either server does not skip it but
    accepts it. *)
Lemma push_takes_record_without_ts :
  poll_candidate "openclaw-devnet" (Some (Sample.wire_no_ts "u1" 5))
  = Some (Sample.wire_no_ts "u1" 5, "u1")
  ∧ w_ts (Sample.wire_no_ts "u1" 5) = None
  ∧ (∃ st', @Bun.push Sample.platform Sample.cfg 0 None
              [Some (Sample.wire_no_ts "u1" 5)] Bun.initial
            = (st', Ret (OK {| accepted := 1; skipped := 0 |})))
  ∧ (∃ st', @Worker.push Sample.platform Sample.cfg None 0 None
              [Some (Sample.wire_no_ts "u1" 5)] (Worker.initial Sample.cfg)
            = (st', Ret (OK {| accepted := 1; skipped := 0 |}))).
Proof.
  split; [reflexivity|]. split; [reflexivity|].
  split; eexists; vm_compute; reflexivity.
Qed.

(** ** Reading the log *)

Lemma effective_limit_cases (ceiling : Z) (limitParam : JS.num) :
  1 ≤ ceiling →
  (limitParam = JS.NaN ∧ effective_limit ceiling limitParam = JS.NaN)
  ∨ ∃ k, effective_limit ceiling limitParam = JS.Fin k ∧ 1 ≤ k ≤ ceiling.
Proof.
  intros Hc. unfold effective_limit. destruct limitParam as [| |z|]; simpl.
  - by left.
  - right. exists (Z.min ceiling 1). split; [done|]. lia.
  - right. exists (Z.min ceiling (Z.max 1 z)). split; [done|]. lia.
  - right. exists ceiling. split; [done|]. lia.
Qed.

Lemma slice_last_length {A} (l : list A) (k : Z) :
  1 ≤ k → (length (JS.slice l (JS.neg (JS.Fin k))) ≤ Z.to_nat k)%nat.
Proof.
  intros Hk. simpl. destruct (Z.ltb_spec (- k) 0); [|lia].
  rewrite length_drop. lia.
Qed.

Lemma slice_sublist {A} (l : list A) (start : JS.num) : JS.slice l start `sublist_of` l.
Proof.
  destruct start as [| |z|]; simpl; try done.
  - case_match; apply sublist_drop.
  - apply sublist_nil_l.
Qed.

(** [GET /messages] of the Bun server, for a session that is there: the
    records are of the session's hive, have an [id] above [since], come
    in the order of the log, and, when the [limit] parameter is a number,
    are at most [min(200, max(1, limit))]. *)
Lemma Bun_get_messages_contract (now : Z) (token : option string)
  (since limitParam : JS.num) (st : Bun.State) (session : Session)
  (ses : gmap string Session) :
  requireSession now token (Bun.sessions st) = (Some session, ses) →
  ∃ r, Bun.get_messages now token since limitParam st
       = (OK r, Bun.set_sessions ses st)
    ∧ mo_hive_id r = se_hiveId session
    ∧ (∀ m, m ∈ mo_messages r →
            m ∈ Bun.messages st ∧ hiveId m = se_hiveId session
            ∧ JS.gt (JS.Fin (id m)) (since_or_zero since) = true)
    ∧ mo_messages r `sublist_of` Bun.messages st
    ∧ (∀ k, effective_limit 200 limitParam = JS.Fin k →
            (length (mo_messages r) ≤ Z.to_nat k)%nat ∧ 1 ≤ k ≤ 200).
Proof.
  intros Hses. unfold Bun.get_messages. rewrite Hses. simpl.
  eexists. split; [reflexivity|]. simpl. split; [done|].
  split; [|split].
  - intros m Hm.
    eapply elem_of_sublist in Hm; [|apply slice_sublist].
    apply list_elem_of_filter in Hm as [HP Hin]. split; [done|].
    apply andb_prop_elim in HP as [Hh Hgt].
    split; [by apply bool_decide_unpack in Hh|by apply Is_true_eq_true].
  - etrans; [apply slice_sublist|]. apply sublist_filter.
  - intros k Hk.
    destruct (effective_limit_cases 200 limitParam) as [[_ Hn]|(k' & Hk' & Hrange)];
      [lia|congruence|].
    assert (k' = k) as -> by congruence. split; [|done].
    rewrite Hk. apply slice_last_length. lia.
Qed.

(** With a [limit] parameter that is not a number the effective limit is
    [NaN] and [slice(-NaN)] keeps the whole list. *)
Lemma Bun_get_messages_nan (now : Z) (token : option string)
  (since : JS.num) (st : Bun.State) (session : Session) (ses : gmap string Session) :
  requireSession now token (Bun.sessions st) = (Some session, ses) →
  Bun.get_messages now token since JS.NaN st
  = (OK {| mo_hive_id := se_hiveId session;
           mo_messages :=
             filter (λ msg, bool_decide (hiveId msg = se_hiveId session)
                            && JS.gt (JS.Fin (id msg)) (since_or_zero since))
               (Bun.messages st) |},
     Bun.set_sessions ses st).
Proof.
  intros Hses. unfold Bun.get_messages. rewrite Hses. reflexivity.
Qed.

(** *** No session, no reading *)

Section Frame.
Context `{Platform} {S X : Type} `{!GossipHost S} (f : S → X).
Hypothesis f_store : ∀ i st, f (store_message i st).2 = f st.
Hypothesis f_cursor : ∀ p v st, f (cursor_put p v st) = f st.

(** A part of the store that [storeMessage] and the cursor leave alone
    is left alone by the gossip loops. *)
Lemma push_loop_frame (hive : string) (now : Z) (incoming : list (option WireMessage)) :
  ∀ counts st, f (push_loop hive now incoming counts st).1 = f st.
Proof.
  induction incoming as [|msg rest IH]; intros counts st; simpl; [done|].
  destruct (push_candidate hive msg) as [[m u]|]; [|apply IH].
  destruct (normalize_ts now m) as [ts|e]; [|done].
  pose proof (f_store (normalize None u hive ts m) st) as Hst.
  destruct (store_message _ st) as [stored st1]. simpl in Hst.
  by rewrite IH.
Qed.

Lemma poll_loop_frame (hive : string) (now : Z) (incoming : list (option WireMessage)) :
  ∀ c st, f (poll_loop hive now incoming c st).1 = f st.
Proof.
  induction incoming as [|msg rest IH]; intros c st; simpl; [done|].
  destruct (poll_candidate hive msg) as [[m u]|]; [|apply IH].
  destruct (normalize_ts now m) as [ts|e]; [|done].
  pose proof (f_store (normalize poll_id u hive ts m) st) as Hst.
  destruct (store_message _ st) as [stored st1]. simpl in Hst.
  by rewrite IH.
Qed.

Lemma gossip_push_frame (cfg : Config) (hive : string) (now : Z)
  (header : option string) (incoming : list (option WireMessage)) (st : S) :
  f (gossip_push cfg hive now header incoming st).1 = f st.
Proof.
  unfold gossip_push. case_match; [done|].
  pose proof (push_loop_frame hive now incoming {| accepted := 0; skipped := 0 |} st)
    as Hloop.
  by destruct (push_loop hive now incoming _ st) as [st1 [c|e]].
Qed.

Lemma poll_merge_frame (hive : string) (now : Z) (peer : string) (sinceMs : Z)
  (answer : option (list (option WireMessage))) (st : S) :
  f (poll_merge hive now peer sinceMs answer st) = f st.
Proof.
  unfold poll_merge. destruct answer as [incoming|]; [|done].
  pose proof (poll_loop_frame hive now incoming sinceMs st) as Hloop.
  destruct (poll_loop hive now incoming sinceMs st) as [st1 [c|e]];
    simpl in Hloop; [|done].
  case_match; [|done]. by rewrite f_cursor.
Qed.

End Frame.

Lemma Bun_storeMessage_sessions (i : MessageInput) (st : Bun.State) :
  Bun.sessions (Bun.storeMessage i st).2 = Bun.sessions st.
Proof. unfold Bun.storeMessage. by case_bool_decide. Qed.

Lemma Worker_storeMessage_sessions (i : MessageInput) (st : Worker.State) :
  Worker.sessions (Worker.storeMessage i st).2 = Worker.sessions st.
Proof. unfold Worker.storeMessage. by case_match. Qed.

Lemma requireSession_none (now : Z) (token : option string) :
  requireSession now token ∅ = (None, ∅).
Proof. destruct token as [t|]; [|done]. simpl. by rewrite lookup_empty. Qed.

(** No store a server can be in holds a session, since no join records
    one. *)
Lemma Bun_reachable_no_session `{Platform} (cfg : Config) (st : Bun.State) :
  Bun_reachable cfg st → Bun.sessions st = ∅.
Proof.
  induction 1 as [|st now uuid body _ IH|st now uuid body r st' _ IH Hjoin
                  |st now uuid token body _ IH|st now token since limitParam _ IH
                  |st now header incoming _ IH|st now peer sinceMs answer _ IH].
  - reflexivity.
  - unfold Bun.challenge. by destruct (challenge_handler _ _ _ _ _).
  - destruct (Bun_join_never_ok cfg now uuid body st) as (r0 & st0 & Hj & _ & Hs).
    rewrite Hj in Hjoin. injection Hjoin as _ <-. by rewrite Hs.
  - unfold Bun.post_message. by rewrite IH, requireSession_none.
  - unfold Bun.get_messages. by rewrite IH, requireSession_none.
  - unfold Bun.push. rewrite (gossip_push_frame Bun.sessions); [done|].
    apply Bun_storeMessage_sessions.
  - rewrite (poll_merge_frame Bun.sessions); [done| |done].
    apply Bun_storeMessage_sessions.
Qed.

Lemma Worker_reachable_no_session `{Platform} (cfg : Config) (st : Worker.State) :
  Worker_reachable cfg st → Worker.sessions st = ∅.
Proof.
  assert (Henter : ∀ h st0, Worker.sessions st0 = ∅ →
            Worker.sessions (Worker.enter h st0) = ∅).
  { intros h st0 Hs. by rewrite (proj2 (Worker_enter_challenges h st0)). }
  induction 1 as [|st hh now uuid body _ IH|st hh now uuid body r st' _ IH Hjoin
                  |st hh now uuid token body _ IH|st hh now token since limitParam _ IH
                  |st hh header sinceMs limitParam _ IH
                  |st hh now header incoming _ IH|st now peer sinceMs answer _ IH].
  - reflexivity.
  - unfold Worker.challenge. destruct (challenge_handler _ _ _ _ _). simpl.
    by apply Henter.
  - destruct (Worker_join_never_ok cfg hh now uuid body st) as (r0 & st0 & Hj & _ & Hs).
    rewrite Hj in Hjoin. injection Hjoin as _ <-. by rewrite Hs.
  - unfold Worker.post_message. by rewrite (Henter hh st IH), requireSession_none.
  - unfold Worker.get_messages. by rewrite (Henter hh st IH), requireSession_none.
  - unfold Worker.gossip_messages. case_match; simpl; [by apply Henter|].
    destruct (Worker.storage_list _ _); simpl; by apply Henter.
  - unfold Worker.push. rewrite (gossip_push_frame Worker.sessions).
    + by apply Henter.
    + apply Worker_storeMessage_sessions.
  - rewrite (poll_merge_frame Worker.sessions); [done| |done].
    apply Worker_storeMessage_sessions.
Qed.

(** C5, where the code departs from it. As the servers run, [GET
    /messages] returns no record at all: no store a server can be in holds
    a session, since no join records one, so every request is answered
    401, whatever token it carries. And were the session there, the Bun
    handler would not keep to its ceiling: a [limit] that is not a number
    makes the effective limit [NaN], and [slice(-NaN)] returns the whole
    list of the hive's records above [since], not the last 200 of them.
    On the sample server, after the challenge and the join that answers
    it, [GET /messages?since=0&limit=abc] with the token of that join is
    answered 401. *)
Theorem get_messages_refused_or_unclamped `{Platform} (cfg : Config) (now : Z)
  (token : option string) (since : JS.num) :
  (∀ (st : Bun.State) limitParam,
     Bun_reachable cfg st →
     Bun.get_messages now token since limitParam st
     = (unauthorized "missing or expired session", st))
  ∧ (∀ (st : Worker.State) hiveHeader limitParam,
       Worker_reachable cfg st →
       Worker.get_messages hiveHeader now token since limitParam st
       = (Worker.enter hiveHeader st,
          Ret (unauthorized "missing or expired session")))
  ∧ effective_limit 200 JS.NaN = JS.NaN
  ∧ (∀ (st : Bun.State) session ses,
       requireSession now token (Bun.sessions st) = (Some session, ses) →
       Bun.get_messages now token since JS.NaN st
       = (OK {| mo_hive_id := se_hiveId session;
                mo_messages :=
                  filter (λ msg, bool_decide (hiveId msg = se_hiveId session)
                                 && JS.gt (JS.Fin (id msg)) (since_or_zero since))
                    (Bun.messages st) |},
          Bun.set_sessions ses st))
  ∧ (@Bun_reachable Sample.platform Sample.cfg Sample.challenged
     ∧ @Bun.join Sample.platform Sample.cfg 1000 "token-1"
         (Some (Sample.join_body "1000")) Sample.challenged
       = Ret (Error 401 "invalid signature", Sample.challenged)
     ∧ Bun.get_messages 5000 (Some "token-1") (JS.Fin 0) JS.NaN Sample.challenged
       = (Error 401 "missing or expired session", Sample.challenged)).
Proof.
  split; [|split; [|split; [reflexivity|split]]].
  - intros st limitParam Hreach. unfold Bun.get_messages.
    pose proof (Bun_reachable_no_session cfg st Hreach) as Hs.
    rewrite Hs, requireSession_none. f_equal.
    destruct st; simpl in *. by subst.
  - intros st hiveHeader limitParam Hreach. unfold Worker.get_messages.
    pose proof (Worker_reachable_no_session cfg st Hreach) as Hs.
    destruct (Worker_enter_challenges hiveHeader st) as [_ Hs'].
    rewrite Hs', Hs, requireSession_none. f_equal.
    rewrite <- Hs, <- Hs'. by destruct (Worker.enter hiveHeader st).
  - intros st session ses Hses. by apply Bun_get_messages_nan.
  - split; [|split; vm_compute; reflexivity].
    apply (@Bun_after_challenge Sample.platform Sample.cfg Bun.initial 0 "nonce-1"
             (Some Sample.challenge_body)).
    apply Bun_fresh.
Qed.

Global Instance key_le_total : Total Worker.key_le.
Proof. intros a b. unfold Worker.key_le. lia. Qed.

Global Instance key_le_trans : Transitive Worker.key_le.
Proof. intros a b c. unfold Worker.key_le. lia. Qed.

Lemma Worker_entries_elem (ms : gmap Z HiveMessage) (i : Z) (m : HiveMessage) :
  (i, m) ∈ Worker.entries ms ↔ ms !! i = Some m.
Proof.
  unfold Worker.entries. rewrite merge_sort_Permutation.
  apply elem_of_map_to_list.
Qed.

Lemma Worker_entries_sorted (ms : gmap Z HiveMessage) :
  Sorted Worker.key_le (Worker.entries ms).
Proof. apply (Sorted_merge_sort Worker.key_le). Qed.

Lemma Worker_entries_length (ms : gmap Z HiveMessage) :
  length (Worker.entries ms) = size ms.
Proof.
  unfold Worker.entries. rewrite merge_sort_Permutation.
  apply length_map_to_list.
Qed.

Lemma sublist_reverse {A} (l1 l2 : list A) :
  l1 `sublist_of` l2 → reverse l1 `sublist_of` reverse l2.
Proof.
  induction 1 as [|x l1 l2 _ IH|x l1 l2 _ IH].
  - done.
  - rewrite !reverse_cons. by apply sublist_app.
  - rewrite reverse_cons. etrans; [exact IH|]. by apply sublist_inserts_r.
Qed.

(** The list the worker's two read handlers return, for a limit [k]: a
    part of the log in key order, of at most [k] records, all of them when
    the log has no more than [k]. *)
Lemma Worker_read_list (P : HiveMessage → bool) (ms : gmap Z HiveMessage) (k : Z) :
  1 ≤ k →
  ∃ list, Worker.storage_list (JS.Fin k) ms = Ret list
    ∧ reverse (filter (λ m, P m) list) `sublist_of` (Worker.entries ms).*2
    ∧ (length (reverse (filter (λ m, P m) list)) ≤ Z.to_nat k)%nat
    ∧ (∀ m, m ∈ reverse (filter (λ m, P m) list) →
            P m = true ∧ ∃ i, ms !! i = Some m)
    ∧ ((size ms ≤ Z.to_nat k)%nat →
       ∀ i m, ms !! i = Some m → P m = true →
              m ∈ reverse (filter (λ m, P m) list)).
Proof.
  intros Hk. unfold Worker.storage_list.
  destruct (Z.ltb_spec 0 k); [|lia].
  eexists. split; [reflexivity|].
  set (E := (Worker.entries ms).*2).
  assert (HE : (reverse (Worker.entries ms)).*2 = reverse E).
  { unfold E. by rewrite fmap_reverse. }
  rewrite HE.
  assert (Hsub : filter (λ m, P m) (take (Z.to_nat k) (reverse E))
                 `sublist_of` reverse E).
  { etrans; [apply sublist_filter|apply sublist_take]. }
  split; [|split; [|split]].
  - apply sublist_reverse in Hsub. by rewrite reverse_involutive in Hsub.
  - rewrite length_reverse. etrans; [apply length_filter|].
    rewrite length_take. lia.
  - intros m Hm. rewrite elem_of_reverse in Hm.
    apply list_elem_of_filter in Hm as [HP Hin]. split; [by apply Is_true_eq_true|].
    apply elem_of_sublist with (l2 := reverse E) in Hin; [|apply sublist_take].
    rewrite elem_of_reverse in Hin. unfold E in Hin.
    apply list_elem_of_fmap in Hin as ([i m'] & -> & Hin).
    exists i. by apply Worker_entries_elem.
  - intros Hsize i m Hm HP. rewrite elem_of_reverse, list_elem_of_filter.
    split; [by apply Is_true_eq_left|].
    rewrite take_ge.
    + rewrite elem_of_reverse. unfold E. apply list_elem_of_fmap.
      exists (i, m). split; [done|]. by apply Worker_entries_elem.
    + rewrite length_reverse. unfold E. rewrite length_fmap, Worker_entries_length.
      done.
Qed.

(** [storage.list] with a limit [k]: the [k] last records of the log in
    key order, last first. *)
Lemma Worker_storage_list_last (ms : gmap Z HiveMessage) (k : Z) :
  1 ≤ k →
  Worker.storage_list (JS.Fin k) ms
  = Ret (reverse (drop (length (Worker.entries ms) - Z.to_nat k)%nat
                    (Worker.entries ms).*2)).
Proof.
  intros Hk. unfold Worker.storage_list.
  destruct (Z.ltb_spec 0 k); [|lia].
  by rewrite fmap_reverse, take_reverse, length_fmap.
Qed.

(** C6, as amended. [GET /gossip/messages], when the gossip secret
    matches: the Bun server returns exactly the records of the requested
    hive whose [createdAtMs] is greater than or equal to [since_ms] (a
    [since_ms] that is not a number counts as 0), in the order of the log
    and however many they are; the worker, for a [limit] that is a number,
    takes the [k = min(500, max(1, limit))] last records of its log in key
    order and returns those among them whose [createdAtMs] is greater than
    or equal to [since_ms], in key order. *)
Theorem gossip_messages_since (cfg : Config) (header : option string)
  (sinceMs : JS.num) :
  authorizeGossip cfg header = true →
  (∀ (hive_id : option string) (st : Bun.State),
     ∃ r, Bun.gossip_messages cfg header hive_id sinceMs st = OK r
       ∧ mo_hive_id r = JS.nullish hive_id (HIVE_ID cfg)
       ∧ (∀ m, m ∈ mo_messages r ↔
               m ∈ Bun.messages st ∧ hiveId m = mo_hive_id r
               ∧ JS.ge (createdAtMs m) (since_or_zero sinceMs) = true)
       ∧ mo_messages r `sublist_of` Bun.messages st)
  ∧ (∀ (hiveHeader : option string) (limitParam : JS.num) (st : Worker.State),
       limitParam ≠ JS.NaN →
       let log := Worker.entries (Worker.msgs st) in
       ∃ r k,
         effective_limit MAX_GOSSIP_BATCH limitParam = JS.Fin k
         ∧ 1 ≤ k ≤ 500
         ∧ (∀ z, limitParam = JS.Fin z → k = Z.min 500 (Z.max 1 z))
         ∧ Worker.gossip_messages cfg hiveHeader header sinceMs limitParam st
           = (Worker.enter hiveHeader st, Ret (OK r))
         ∧ mo_hive_id r = Worker.this_hiveId (Worker.enter hiveHeader st)
         ∧ Sorted Worker.key_le log
         ∧ (∀ i m, (i, m) ∈ log ↔ Worker.msgs st !! i = Some m)
         ∧ mo_messages r
           = filter (λ m, JS.ge (createdAtMs m) (since_or_zero sinceMs))
               (drop (length log - Z.to_nat k)%nat log.*2)).
Proof.
  intros Hauth. split.
  - intros hive_id st. unfold Bun.gossip_messages. rewrite Hauth. simpl.
    eexists. split; [reflexivity|]. simpl. split; [done|]. split.
    + intros m. rewrite list_elem_of_filter. split.
      * intros [HP Hin]. apply andb_prop_elim in HP as [Hh Hge].
        split; [done|]. split; [by apply bool_decide_unpack in Hh|].
        by apply Is_true_eq_true.
      * intros (Hin & Hh & Hge). split; [|done].
        apply andb_prop_intro. split; [by apply bool_decide_pack|].
        by apply Is_true_eq_left.
    + apply sublist_filter.
  - intros hiveHeader limitParam st Hnum log.
    destruct (effective_limit_cases MAX_GOSSIP_BATCH limitParam)
      as [[Hn _]|(k & Hk & Hrange)]; [done|done|].
    unfold Worker.gossip_messages. rewrite Hauth. cbv zeta. cbn [negb].
    destruct (Worker_enter_uids hiveHeader st) as (_ & Hmsgs & _).
    rewrite Hmsgs, Hk, Worker_storage_list_last by lia.
    eexists _, k. split; [done|]. split; [done|]. split.
    { intros z ->. unfold effective_limit in Hk. simpl in Hk.
      injection Hk as <-. reflexivity. }
    split; [reflexivity|]. split; [reflexivity|].
    split; [apply Worker_entries_sorted|]. split; [apply Worker_entries_elem|].
    cbn [mo_messages]. by rewrite filter_reverse, reverse_involutive.
Qed.

(** An instance, on the two servers after a push of three records created
    at times 1, 2 and 3. The Bun server, asked for the records since 2,
    returns the second and the third. The worker, asked for the records
    since 0 with a limit of 2, takes the last two records and returns
    them: the first is not among them. *)
Lemma gossip_messages_since_witness :
  (∃ r, Bun.gossip_messages Sample.cfg None None (JS.Fin 2) (Sample.pushed 3) = OK r
        ∧ (λ m, (uid m, createdAtMs m)) <$> mo_messages r
          = [("m1", JS.Fin 2); ("m2", JS.Fin 3)])
  ∧ (∃ r, Worker.gossip_messages Sample.cfg None None (JS.Fin 0) (JS.Fin 2)
            (Sample.pushed_w 3)
          = (Sample.pushed_w 3, Ret (OK r))
          ∧ (λ m, (uid m, createdAtMs m)) <$> mo_messages r
            = [("m1", JS.Fin 2); ("m2", JS.Fin 3)]).
Proof.
  split.
  - destruct (proj1 (gossip_messages_since Sample.cfg None (JS.Fin 2) eq_refl)
                None (Sample.pushed 3)) as (r & Hr & _).
    exists r. split; [exact Hr|].
    vm_compute in Hr. injection Hr as <-. reflexivity.
  - destruct (proj2 (gossip_messages_since Sample.cfg None (JS.Fin 0) eq_refl)
                None (JS.Fin 2) (Sample.pushed_w 3))
      as (r & k & Hk & _ & _ & Hr & _ & _ & _ & Hlist); [discriminate|].
    exists r. split; [exact Hr|].
    injection Hk as <-. rewrite Hlist. vm_compute. reflexivity.
Defined.

(** C6 as stated fails on the Bun server in two ways. A record whose
    [createdAtMs] equals [since_ms] is returned, so the bound is not
    strict. And no cap applies: from a log of 501 records of the hive,
    all received in one push, all 501 are returned, more than
    [MAX_GOSSIP_BATCH]. *)
Lemma gossip_messages_inclusive_uncapped :
  (∃ m, m ∈ messages_of
              (Bun.gossip_messages Sample.cfg None None (JS.Fin 1) (Sample.pushed 1))
        ∧ createdAtMs m = JS.Fin 1
        ∧ JS.gt (createdAtMs m) (JS.Fin 1) = false)
  ∧ length (messages_of
              (Bun.gossip_messages Sample.cfg None None (JS.Fin 0) (Sample.pushed 501)))
    = 501%nat
  ∧ MAX_GOSSIP_BATCH = 500.
Proof.
  split.
  - eexists. split; [vm_compute; apply list_elem_of_here|]. split; reflexivity.
  - split; [vm_compute; reflexivity|reflexivity].
Qed.

(** [GET /messages] of the worker, for a session that is there and a
    [limit] that is a number: the records have an [id] above [since], are
    records of the object's log in key order, and are at most
    [min(200, max(1, limit))]. *)
Lemma Worker_get_messages_contract (hiveHeader : option string) (now : Z)
  (token : option string) (since limitParam : JS.num) (st : Worker.State)
  (session : Session) (ses : gmap string Session) (k : Z) :
  requireSession now token (Worker.sessions st) = (Some session, ses) →
  effective_limit MAX_MESSAGES_LIMIT limitParam = JS.Fin k →
  ∃ r st', Worker.get_messages hiveHeader now token since limitParam st
           = (st', Ret (OK r))
    ∧ mo_hive_id r = se_hiveId session
    ∧ 1 ≤ k ≤ 200
    ∧ (length (mo_messages r) ≤ Z.to_nat k)%nat
    ∧ mo_messages r `sublist_of` (Worker.entries (Worker.msgs st)).*2
    ∧ (∀ m, m ∈ mo_messages r →
            JS.gt (JS.Fin (id m)) (since_or_zero since) = true
            ∧ ∃ i, Worker.msgs st !! i = Some m).
Proof.
  intros Hses Hk. unfold Worker.get_messages.
  destruct (Worker_enter_challenges hiveHeader st) as [_ Hs]. rewrite Hs, Hses.
  cbv zeta. cbn [Worker.msgs Worker.set_sessions]. rewrite Hk.
  destruct (effective_limit_cases MAX_MESSAGES_LIMIT limitParam)
    as [[_ Hn]|(k' & Hk' & Hrange)]; [done|congruence|].
  assert (k' = k) as -> by congruence.
  destruct (Worker_enter_uids hiveHeader st) as (_ & Hmsgs & _). rewrite Hmsgs.
  destruct (Worker_read_list
              (λ m, JS.gt (JS.Fin (id m)) (since_or_zero since))
              (Worker.msgs st) k) as (list & -> & Hsub & Hlen & Hsound & _); [lia|].
  eexists _, _. split; [reflexivity|]. simpl. done.
Qed.

(** ** Convergence of two servers *)

Lemma poll_candidate_to_wire (hive : string) (m : HiveMessage) (w : WireMessage)
  (u : string) :
  poll_candidate hive (Some (to_wire m)) = Some (w, u) →
  w = to_wire m ∧ u = uid m ∧ uid m ≠ "" ∧ hiveId m = hive.
Proof.
  intros (Hw & Hu & Hne & Hh)%poll_candidate_Some.
  injection Hw as <-. simpl in Hu, Hh.
  injection Hu as <-. injection Hh as <-. done.
Qed.

Lemma to_wire_candidate (hive : string) (m : HiveMessage) :
  uid m ≠ "" → hiveId m = hive →
  poll_candidate hive (Some (to_wire m)) = Some (to_wire m, uid m).
Proof.
  intros Hne Hh. apply poll_candidate_Some. simpl. by rewrite Hh.
Qed.

Lemma to_wire_has_timestamp `{Platform} (now : Z) (m : HiveMessage) :
  has_timestamp now (to_wire m).
Proof. exists (ts m). reflexivity. Qed.

Section SyncFacts.
Context `{Platform}.
Context {X Y : Type} `{!GossipHost X} `{!GossipHost Y} `{!HostSpec X} `{!HostSpec Y}.

Lemma cursor_put_if (peer : string) (v : Z) (b : bool) (st : X) :
  inv st →
  let st' := if b then cursor_put peer v st else st in
  inv st' ∧ (∀ m, holds st' m ↔ holds st m) ∧ (∀ u, known st' u ↔ known st u).
Proof.
  intros Hinv. destruct b; simpl; [|done].
  pose proof (cursor_put_inv st peer v Hinv) as Hinv'.
  split; [done|]. split; [apply cursor_put_holds|].
  intros u. rewrite (known_holds _ u Hinv'), (known_holds _ u Hinv).
  by setoid_rewrite cursor_put_holds.
Qed.

(** What one turn does to the polling store [x], given what [y] serves. *)
Lemma pull_spec (serve : string → Z → Y → option (list (option WireMessage)))
  (hive peer : string) (now : Z) (x : X) (y : Y) :
  inv x → serves serve hive y →
  let x' := poll_peer hive now peer (serve hive (default 0 (cursor_get peer x)) y) x in
  inv x'
  ∧ (∀ m, holds x m → holds x' m)
  ∧ (∀ m', holds x' m' →
           holds x m'
           ∨ (hiveId m' = hive
              ∧ ∃ m, holds y m ∧ hiveId m = hive ∧ uid m = uid m'))
  ∧ (∀ m c, holds y m → hiveId m = hive → uid m ≠ "" →
            createdAtMs m = JS.Fin c → default 0 (cursor_get peer x) ≤ c →
            known x' (uid m)).
Proof.
  intros Hinv Hserves.
  destruct (Hserves (default 0 (cursor_get peer x))) as (l & Hl & Hsound & Hcomplete).
  unfold poll_peer, poll_read, poll_merge. rewrite Hl.
  assert (Hts : ∀ m u, Some m ∈ l → poll_candidate hive (Some m) = Some (m, u) →
                       has_timestamp now m).
  { intros m u Hin _. destruct (Hsound _ Hin) as (m0 & [= ->] & _).
    apply to_wire_has_timestamp. }
  destruct (poll_loop_known hive now l (default 0 (cursor_get peer x)) x Hinv Hts)
    as (st' & c' & Hloop & Hinv' & Hknown).
  destruct (poll_accepted_holds hive now l (default 0 (cursor_get peer x)) x Hinv)
    as [_ Hholds].
  rewrite Hloop in *. simpl in Hholds.
  destruct (cursor_put_if peer c' (c' >? default 0 (cursor_get peer x)) st' Hinv')
    as (Hinv'' & Hholds'' & Hknown'').
  split; [done|]. split; [|split].
  - intros m Hm. apply Hholds'', Hholds. by left.
  - intros m' Hm'. apply Hholds'', Hholds in Hm' as [Hold|Hacc]; [by left|right].
    destruct (poll_accepted_origin hive now l x m' Hinv Hacc)
      as (w & u & ts & k & Hin & Hc & _ & ->).
    destruct (Hsound _ Hin) as (m & [= ->] & Hm).
    apply poll_candidate_to_wire in Hc as (_ & -> & _ & Hh).
    split; [done|]. exists m. done.
  - intros m c Hm Hh Hne Hc Hle. apply Hknown'', Hknown. right.
    exists (to_wire m). split; [by eapply Hcomplete|]. by apply to_wire_candidate.
Qed.

(** After the turn, [x] holds every [uid] of the hive that [y] holds, and
    nothing for the hive that neither held. *)
Lemma pull_covers (serve : string → Z → Y → option (list (option WireMessage)))
  (hive peer : string) (now : Z) (x : X) (y : Y) :
  inv x → inv y → serves serve hive y → uid_agree x y → fetchable hive peer x y →
  let x' := poll_peer hive now peer (serve hive (default 0 (cursor_get peer x)) y) x in
  (∀ u, hive_uid y hive u → hive_uid x' hive u)
  ∧ (∀ u, hive_uid x hive u → hive_uid x' hive u)
  ∧ (∀ u, hive_uid x' hive u → hive_uid x hive u ∨ hive_uid y hive u)
  ∧ uid_agree x' y
  ∧ fetchable hive peer x' y.
Proof.
  intros Hinvx Hinvy Hserves Hagree Hfetch x'.
  destruct (pull_spec serve hive peer now x y Hinvx Hserves)
    as (Hinv' & Hkeep & Hnew & Hgot).
  fold x' in Hinv', Hkeep, Hnew, Hgot.
  assert (Hcover : ∀ m, holds y m → hiveId m = hive → known x' (uid m)).
  { intros m Hm Hh. destruct (known_dec x (uid m)) as [Hk|Hk].
    - apply (known_holds x _ Hinvx) in Hk as (m0 & Hm0 & Hu).
      apply (known_holds x' _ Hinv'). eauto.
    - destruct (Hfetch m Hm Hh Hk) as (Hne & c & Hc & Hle). by eapply Hgot. }
  split; [|split; [|split; [|split]]].
  - intros u (m & Hm & Hh & Hu).
    pose proof (Hcover m Hm Hh) as Hk.
    apply (known_holds x' _ Hinv') in Hk as (m' & Hm' & Hu').
    exists m'. split; [done|]. split; [|congruence].
    destruct (Hnew m' Hm') as [Hold|[Hh' _]]; [|done].
    rewrite (Hagree m' m Hold Hm Hu'). done.
  - intros u (m & Hm & Hh & Hu). exists m. eauto.
  - intros u (m' & Hm' & Hh & Hu).
    destruct (Hnew m' Hm') as [Hold|(_ & m & Hm & Hhm & Hum)].
    + left. exists m'. done.
    + right. exists m. split; [done|]. split; [done|]. congruence.
  - intros m' m'' Hm' Hm'' Hu.
    destruct (Hnew m' Hm') as [Hold|(Hh' & m & Hm & Hhm & Hum)]; [by eapply Hagree|].
    assert (m = m'') as -> by (eapply (holds_uid_inj y); [done..|congruence]).
    congruence.
  - intros m Hm Hh Hk. destruct Hk. by apply Hcover.
Qed.

(** The store that served keeps what it could fetch from the poller. *)
Lemma pull_keeps_fetchable
  (serve : string → Z → Y → option (list (option WireMessage)))
  (hive peer peer' : string) (now : Z) (x : X) (y : Y) :
  inv x → inv y → serves serve hive y → fetchable hive peer' y x →
  let x' := poll_peer hive now peer (serve hive (default 0 (cursor_get peer x)) y) x in
  fetchable hive peer' y x'.
Proof.
  intros Hinvx Hinvy Hserves Hfetch x' m' Hm' Hh Hk.
  destruct (pull_spec serve hive peer now x y Hinvx Hserves) as (_ & _ & Hnew & _).
  destruct (Hnew m' Hm') as [Hold|(_ & m & Hm & _ & Hu)]; [by apply Hfetch|].
  destruct Hk. apply (known_holds y _ Hinvy). eauto.
Qed.

End SyncFacts.

Lemma uid_agree_sym {X Y : Type} `{HostSpec X} `{HostSpec Y} (x : X) (y : Y) :
  uid_agree x y → uid_agree y x.
Proof. intros Hxy m m' Hm Hm' Hu. symmetry. by eapply Hxy. Qed.

Section Converge.
Context `{Platform} {SA SB : Type} `{!GossipHost SA} `{!GossipHost SB}.
Context `{!HostSpec SA} `{!HostSpec SB}.
Variable serve_a : string → Z → SA → option (list (option WireMessage)).
Variable serve_b : string → Z → SB → option (list (option WireMessage)).
Variables (hive peer_a peer_b : string).

Local Abbreviation step' := (step serve_a serve_b hive peer_a peer_b).
Local Abbreviation run' := (run serve_a serve_b hive peer_a peer_b).

(** A turn keeps the two servers in reach of each other; the polling
    server covers the other from then on. *)
Lemma step_reach (t : turn) (now : Z) (ab : SA * SB) :
  in_reach hive peer_a peer_b ab →
  serves serve_a hive ab.1 → serves serve_b hive ab.2 →
  in_reach hive peer_a peer_b (step' t now ab)
  ∧ (t = A_polls_B ∨ covers hive ab.1 ab.2 →
     covers hive (step' t now ab).1 (step' t now ab).2)
  ∧ (t = B_polls_A ∨ covers hive ab.2 ab.1 →
     covers hive (step' t now ab).2 (step' t now ab).1).
Proof.
  destruct ab as [a b]. intros [Hia Hib Hag Hfa Hfb] Hsa Hsb. simpl in *.
  destruct t; simpl.
  - destruct (pull_covers serve_b hive peer_b now a b Hia Hib Hsb Hag Hfa)
      as (Hcov & Hkeep & Hfrom & Hag' & Hfa').
    destruct (pull_spec serve_b hive peer_b now a b Hia Hsb) as (Hia' & _).
    split; [|split].
    + split; simpl; try done.
      by apply (pull_keeps_fetchable serve_b hive peer_b peer_a now a b).
    + intros _. exact Hcov.
    + intros [?|Hcb]; [done|]. intros u Hu.
      destruct (Hfrom u Hu) as [Ha|Hb]; [by apply Hcb|done].
  - pose proof (uid_agree_sym a b Hag) as Hag_ba.
    destruct (pull_covers serve_a hive peer_a now b a Hib Hia Hsa Hag_ba Hfb)
      as (Hcov & Hkeep & Hfrom & Hag' & Hfb').
    destruct (pull_spec serve_a hive peer_a now b a Hib Hsa) as (Hib' & _).
    split; [|split].
    + split; simpl; try done.
      * by apply uid_agree_sym.
      * by apply (pull_keeps_fetchable serve_a hive peer_a peer_b now b a).
    + intros [?|Hca]; [done|]. intros u Hu.
      destruct (Hfrom u Hu) as [Hb|Ha]; [by apply Hca|done].
    + intros _. exact Hcov.
Qed.

Lemma run_reach (schedule : list (turn * Z)) :
  ∀ ab,
    in_reach hive peer_a peer_b ab →
    (∀ pre, pre `prefix_of` schedule →
            serves serve_a hive (run' pre ab).1 ∧ serves serve_b hive (run' pre ab).2) →
    in_reach hive peer_a peer_b (run' schedule ab)
    ∧ (A_polls_B ∈ schedule.*1 ∨ covers hive ab.1 ab.2 →
       covers hive (run' schedule ab).1 (run' schedule ab).2)
    ∧ (B_polls_A ∈ schedule.*1 ∨ covers hive ab.2 ab.1 →
       covers hive (run' schedule ab).2 (run' schedule ab).1).
Proof.
  induction schedule as [|[t now] rest IH]; intros ab Hreach Hserves.
  { simpl. split; [done|]. split; (intros [Hin|?]; [by apply elem_of_nil in Hin|done]). }
  destruct (Hserves [] (prefix_nil _)) as [Hsa Hsb]. simpl in Hsa, Hsb.
  destruct (step_reach t now ab Hreach Hsa Hsb) as (Hreach' & Hca & Hcb).
  destruct (IH (step' t now ab) Hreach') as (Hreach'' & Hca' & Hcb').
  { intros pre Hpre. apply (Hserves ((t, now) :: pre)). by apply prefix_cons. }
  change (run' ((t, now) :: rest) ab) with (run' rest (step' t now ab)).
  split; [done|]. split.
  - intros [Hin|Hc]; apply Hca'.
    + simpl in Hin. apply elem_of_cons in Hin as [<-|Hin]; [|by left].
      right. apply Hca. by left.
    + right. apply Hca. by right.
  - intros [Hin|Hc]; apply Hcb'.
    + simpl in Hin. apply elem_of_cons in Hin as [<-|Hin]; [|by left].
      right. apply Hcb. by left.
    + right. apply Hcb. by right.
Qed.

(** Once each server has polled the other, the two hold the same [uid]s
    for the hive. *)
Lemma run_converges (schedule : list (turn * Z)) (ab : SA * SB) :
  in_reach hive peer_a peer_b ab →
  (∀ pre, pre `prefix_of` schedule →
          serves serve_a hive (run' pre ab).1 ∧ serves serve_b hive (run' pre ab).2) →
  A_polls_B ∈ schedule.*1 → B_polls_A ∈ schedule.*1 →
  converged hive (run' schedule ab).
Proof.
  intros Hreach Hserves Ha Hb.
  destruct (run_reach schedule ab Hreach Hserves) as (_ & Hca & Hcb).
  intros u. split; [apply Hcb; by left|apply Hca; by left].
Qed.

End Converge.

Lemma Bun_serves (cfg : Config) (header : option string) (hive : string)
  (st : Bun.State) :
  authorizeGossip cfg header = true → serves (Bun_serve cfg header) hive st.
Proof.
  intros Hauth since. unfold Bun_serve, Bun.gossip_messages. rewrite Hauth. simpl.
  eexists. split; [reflexivity|]. split.
  - intros w (m & -> & Hm)%list_elem_of_fmap. exists m. split; [done|].
    by apply list_elem_of_filter in Hm as [_ Hm].
  - intros m c Hm Hh Hc Hle. apply list_elem_of_fmap. exists m. split; [done|].
    apply list_elem_of_filter. split; [|done].
    apply andb_prop_intro. split; [by apply bool_decide_pack|].
    rewrite Hc. simpl. apply Is_true_eq_left. by apply Z.leb_le.
Qed.

Lemma Worker_serves (cfg : Config) (header : option string) (hive : string)
  (st : Worker.State) :
  authorizeGossip cfg header = true →
  (size (Worker.msgs st) ≤ 500)%nat →
  serves (Worker_serve cfg header) hive st.
Proof.
  intros Hauth Hsize since. unfold Worker_serve, Worker.gossip_messages.
  rewrite Hauth. cbv zeta. cbn [negb].
  destruct (Worker_enter_uids (Some hive) st) as (_ & Hmsgs & _). rewrite Hmsgs.
  change (effective_limit MAX_GOSSIP_BATCH (JS.Fin MAX_GOSSIP_BATCH)) with (JS.Fin 500).
  destruct (Worker_read_list
              (λ m, JS.ge (createdAtMs m) (since_or_zero (JS.Fin since)))
              (Worker.msgs st) 500) as (list & -> & _ & _ & Hsound & Hcomplete);
    [lia|].
  simpl. eexists. split; [reflexivity|]. split.
  - intros w (m & -> & Hm)%list_elem_of_fmap. exists m. split; [done|].
    by destruct (Hsound m Hm) as [_ Hi].
  - intros m c [i Hi] Hh Hc Hle. apply list_elem_of_fmap. exists m. split; [done|].
    apply (Hcomplete Hsize i m Hi). rewrite Hc. simpl. by apply Z.leb_le.
Qed.

(** With one configured peer, a poll cycle is one turn. *)
Lemma poll_single_peer `{Platform} (cfg : Config) (peer : string) (now : Z)
  (answers : string → option (list (option WireMessage))) :
  GOSSIP_PEERS cfg = [peer] →
  (∀ st : Bun.State,
     Bun.poll cfg now answers st = poll_peer (HIVE_ID cfg) now peer (answers peer) st)
  ∧ (∀ st : Worker.State,
       Worker.alarm cfg now answers st
       = poll_peer (Worker.this_hiveId st) now peer (answers peer) st).
Proof.
  intros Hpeers. split; intros st.
  - unfold Bun.poll, pollPeers. by rewrite Hpeers.
  - unfold Worker.alarm, pollPeers. by rewrite Hpeers.
Qed.

(** C3, as amended. Two servers [A] and [B] that accept each other's
    gossip header and are in reach of each other (both logs well-formed,
    one [uid] naming messages of one hive in both, and every message of the
    hive that one holds and the other lacks having a [uid] and a
    [createdAtMs] that is a number not below the cursor the other keeps
    for it) hold the same [uid]s for the hive after any sequence of turns
    in which each polls the other at least once. For two workers this is
    so as long as neither log exceeds the 500 records one answer looks
    at. *)
Theorem gossip_converges_in_reach `{Platform} (cfg_a cfg_b : Config)
  (hive peer_a peer_b : string) (schedule : list (turn * Z)) :
  authorizeGossip cfg_a (gossip_header cfg_b) = true →
  authorizeGossip cfg_b (gossip_header cfg_a) = true →
  A_polls_B ∈ schedule.*1 → B_polls_A ∈ schedule.*1 →
  (∀ ab : Bun.State * Bun.State,
     in_reach hive peer_a peer_b ab →
     converged hive
       (run (Bun_serve cfg_a (gossip_header cfg_b))
          (Bun_serve cfg_b (gossip_header cfg_a)) hive peer_a peer_b schedule ab))
  ∧ (∀ ab : Worker.State * Worker.State,
       in_reach hive peer_a peer_b ab →
       (∀ pre, pre `prefix_of` schedule →
          let ab' :=
            run (Worker_serve cfg_a (gossip_header cfg_b))
              (Worker_serve cfg_b (gossip_header cfg_a)) hive peer_a peer_b pre ab in
          (size (Worker.msgs ab'.1) ≤ 500)%nat ∧ (size (Worker.msgs ab'.2) ≤ 500)%nat) →
       converged hive
         (run (Worker_serve cfg_a (gossip_header cfg_b))
            (Worker_serve cfg_b (gossip_header cfg_a)) hive peer_a peer_b schedule ab)).
Proof.
  intros Hauth_a Hauth_b Hab Hba. split.
  - intros ab Hreach. apply run_converges; try done.
    intros pre _. split; by apply Bun_serves.
  - intros ab Hreach Hwindow. apply run_converges; try done.
    intros pre Hpre. destruct (Hwindow pre Hpre) as [Hsa Hsb].
    split; by apply Worker_serves.
Qed.

(** Two Bun servers with one local message each, and no cursor yet, are in
    reach of each other. *)
Lemma sample_in_reach :
  in_reach "openclaw-devnet" "http://a" "http://b" (Sample.store_a, Sample.store_b).
Proof.
  assert (Ha : Bun.messages Sample.store_a = [with_id 1 (Sample.hello "a1" 10)])
    by reflexivity.
  assert (Hb : Bun.messages Sample.store_b = [with_id 1 (Sample.hello "b1" 20)])
    by reflexivity.
  split; cbn [fst snd].
  - apply Bun_wf_storeMessage, Bun_wf_initial.
  - apply Bun_wf_storeMessage, Bun_wf_initial.
  - intros m m' Hm Hm' _.
    change (m ∈ Bun.messages Sample.store_a) in Hm.
    change (m' ∈ Bun.messages Sample.store_b) in Hm'.
    rewrite Ha in Hm. rewrite Hb in Hm'.
    apply list_elem_of_singleton in Hm as ->.
    by apply list_elem_of_singleton in Hm' as ->.
  - intros m Hm _ _. change (m ∈ Bun.messages Sample.store_b) in Hm.
    rewrite Hb in Hm. apply list_elem_of_singleton in Hm as ->.
    split; [discriminate|]. exists 20. split; [reflexivity|]. vm_compute. discriminate.
  - intros m Hm _ _. change (m ∈ Bun.messages Sample.store_a) in Hm.
    rewrite Ha in Hm. apply list_elem_of_singleton in Hm as ->.
    split; [discriminate|]. exists 10. split; [reflexivity|]. vm_compute. discriminate.
Defined.

(** An instance: those two servers after [A] polled [B] and [B] polled
    [A]. *)
Lemma gossip_converges_in_reach_witness :
  converged "openclaw-devnet"
    (run (H:=Sample.platform) (Bun_serve Sample.cfg (gossip_header Sample.cfg_b))
       (Bun_serve Sample.cfg_b (gossip_header Sample.cfg))
       "openclaw-devnet" "http://a" "http://b"
       [(A_polls_B, 100); (B_polls_A, 101)] (Sample.store_a, Sample.store_b)).
Proof.
  apply (proj1 (@gossip_converges_in_reach Sample.platform Sample.cfg Sample.cfg_b
                  "openclaw-devnet" "http://a" "http://b"
                  [(A_polls_B, 100); (B_polls_A, 101)] eq_refl eq_refl
                  (list_elem_of_here _ _)
                  (list_elem_of_further _ _ _ (list_elem_of_here _ _)))).
  apply sample_in_reach.
Defined.

Lemma poll_merge_inv `{Platform} {S : Type} `{!GossipHost S} `{!HostSpec S}
  (hive : string) (now : Z) (peer : string) (sinceMs : Z)
  (answer : option (list (option WireMessage))) (st : S) :
  inv st → inv (poll_merge hive now peer sinceMs answer st).
Proof.
  intros Hinv. unfold poll_merge. destruct answer as [incoming|]; [|done].
  destruct (poll_accepted_holds hive now incoming sinceMs st Hinv) as [Hinv' _].
  destruct (poll_loop hive now incoming sinceMs st)
    as [st1 [maxSeen|e]]; simpl in Hinv'; [|done].
  case_match; [by apply cursor_put_inv|done].
Qed.

Lemma poll_peer_inv `{Platform} {S : Type} `{!GossipHost S} `{!HostSpec S}
  (hive : string) (now : Z) (peer : string)
  (answer : option (list (option WireMessage))) (st : S) :
  inv st → inv (poll_peer hive now peer answer st).
Proof. apply poll_merge_inv. Qed.

Lemma run_fixed `{Platform} {SA SB : Type} `{!GossipHost SA} `{!GossipHost SB}
  (serve_a : string → Z → SA → option (list (option WireMessage)))
  (serve_b : string → Z → SB → option (list (option WireMessage)))
  (hive peer_a peer_b : string) (ab : SA * SB) :
  (∀ t now, step serve_a serve_b hive peer_a peer_b t now ab = ab) →
  ∀ schedule, run serve_a serve_b hive peer_a peer_b schedule ab = ab.
Proof.
  intros Hfix schedule. induction schedule as [|[t now] rest IH]; [done|].
  unfold run in *. simpl. by rewrite Hfix.
Qed.

Lemma unknown_not_held {S : Type} `{HostSpec S} (st : S) (hive u : string) :
  inv st → ¬ known st u → ¬ hive_uid st hive u.
Proof.
  intros Hinv Hk (m & Hm & _ & Hu). apply Hk, (known_holds st u Hinv). eauto.
Qed.

(** C3 as stated fails. On two Bun servers, a message that reaches [B]
    with a [createdAtMs] below the cursor [A] already keeps for [B] is
    never fetched: no sequence of turns changes either store, and [B]
    holds a [uid] that [A] lacks. On two workers, the oldest of 501
    messages of [B] is outside the 500 records an answer looks at, and
    after [A]'s first poll its cursor is past it: again no sequence of
    turns changes either store. *)
Lemma gossip_stuck_behind_cursor :
  ((∀ schedule,
      run (H:=Sample.platform) (Bun_serve Sample.cfg None)
        (Bun_serve Sample.cfg_b None) "openclaw-devnet" "http://a" "http://b"
        schedule (Sample.late_a, Sample.late_b)
      = (Sample.late_a, Sample.late_b))
   ∧ hive_uid Sample.late_b "openclaw-devnet" "b2"
   ∧ ¬ hive_uid Sample.late_a "openclaw-devnet" "b2")
  ∧ ((∀ schedule,
        run (H:=Sample.platform) (Worker_serve Sample.cfg None)
          (Worker_serve Sample.cfg_b None) "openclaw-devnet" "http://a" "http://b"
          schedule (Sample.behind 501, Sample.filled 501)
        = (Sample.behind 501, Sample.filled 501))
     ∧ hive_uid (Sample.filled 501) "openclaw-devnet" "m0"
     ∧ ¬ hive_uid (Sample.behind 501) "openclaw-devnet" "m0").
Proof.
  split; split.
  - apply run_fixed. intros t now. apply (bool_decide_unpack _).
    destruct t; vm_compute; exact I.
  - split.
    + exists (with_id 2 (@normalize Sample.platform None "b2" "openclaw-devnet" "50"
                           (Sample.wire "b2" 50))).
      split; [|done].
      change (with_id 2 (@normalize Sample.platform None "b2" "openclaw-devnet" "50"
                           (Sample.wire "b2" 50)) ∈ Bun.messages Sample.late_b).
      assert (Bun.messages Sample.late_b
              = [with_id 1 (Sample.hello "b1" 100);
                 with_id 2 (@normalize Sample.platform None "b2" "openclaw-devnet" "50"
                              (Sample.wire "b2" 50))]) as -> by (vm_compute; reflexivity).
      apply list_elem_of_further, list_elem_of_here.
    + apply unknown_not_held.
      * apply (poll_peer_inv (HostSpec0:=Bun_spec)), Bun_wf_initial.
      * change ("b2" ∉ Bun.messageIds Sample.late_a).
        apply (proj1 (bool_decide_eq_false _)). vm_compute. reflexivity.
  - apply run_fixed. intros t now. apply (bool_decide_unpack _).
    destruct t; vm_compute; exact I.
  - split.
    + exists (with_id 1 (Sample.hello "m0" 1)). split; [|done].
      exists 1. vm_compute. reflexivity.
    + apply unknown_not_held.
      * apply (poll_peer_inv (HostSpec0:=Worker_spec)), Worker_wf_initial.
      * intros [i Hi]. vm_compute in Hi. discriminate.
Qed.

(** ** Every handler keeps the store well-formed

    The invariants the properties above assume hold of the fresh store and
    are kept by every handler and by the poll cycle, so they hold of every
    store a server can reach. *)

Lemma pollPeers_inv `{Platform} {S : Type} `{!GossipHost S} `{!HostSpec S}
  (hive : string) (now : Z) (peers : list string)
  (answers : string → option (list (option WireMessage))) :
  ∀ st, inv st → inv (pollPeers hive now peers answers st).
Proof.
  unfold pollPeers. induction peers as [|peer peers IH]; intros st Hinv; [done|].
  simpl. by apply IH, poll_peer_inv.
Qed.

Lemma gossip_push_inv `{Platform} {S : Type} `{!GossipHost S} `{!HostSpec S}
  (cfg : Config) (hive : string) (now : Z) (header : option string)
  (incoming : list (option WireMessage)) (st : S) :
  inv st → inv (gossip_push cfg hive now header incoming st).1.
Proof.
  intros Hinv. unfold gossip_push. case_match; [done|].
  destruct (push_loop_holds hive now incoming {| accepted := 0; skipped := 0 |}
              st Hinv) as [Hinv' _].
  by destruct (push_loop hive now incoming _ st) as [st1 [c|e]].
Qed.

Lemma Bun_wf_set (chs : gmap string Challenge) (ses : gmap string Session)
  (st : Bun.State) :
  Bun_wf st → Bun_wf (Bun.set_sessions ses (Bun.set_challenges chs st)).
Proof. intros Hwf. exact Hwf. Qed.

Lemma Bun_wf_handlers `{Platform} (cfg : Config) (now : Z) (uuid : string)
  (token header : option string) (st : Bun.State) :
  Bun_wf st →
  (∀ body, Bun_wf (Bun.challenge cfg now uuid body st).2)
  ∧ (∀ body r st', Bun.join cfg now uuid body st = Ret (r, st') → Bun_wf st')
  ∧ (∀ body, Bun_wf (Bun.post_message now uuid token body st).2)
  ∧ (∀ since limit, Bun_wf (Bun.get_messages now token since limit st).2)
  ∧ (∀ incoming, Bun_wf (Bun.push cfg now header incoming st).1)
  ∧ (∀ answers, Bun_wf (Bun.poll cfg now answers st)).
Proof.
  intros Hwf.
  split; [|split; [|split; [|split; [|split]]]].
  - intros body. unfold Bun.challenge.
    destruct (challenge_handler _ _ _ _ _) as [r chs]. exact Hwf.
  - intros body r st'. unfold Bun.join.
    destruct (join_handler _ _ _ _ _ _) as [[r0 e]|]; [|done].
    intros [= <- <-]. exact Hwf.
  - intros body. unfold Bun.post_message.
    destruct (requireSession now token (Bun.sessions st)) as [[session|] ses];
      [|exact Hwf].
    destruct body as [[[c|] ch]|]; try exact Hwf.
    case_match; [exact Hwf|].
    match goal with
    | |- context [Bun.storeMessage ?i ?s] =>
        pose proof (Bun_wf_storeMessage i s) as Hst;
        destruct (Bun.storeMessage i s) as [[m|] st1]
    end; apply Hst, Hwf.
  - intros since limit. unfold Bun.get_messages.
    destruct (requireSession now token (Bun.sessions st)) as [[session|] ses];
      exact Hwf.
  - intros incoming. by apply (gossip_push_inv (HostSpec0:=Bun_spec)).
  - intros answers. by apply (pollPeers_inv (HostSpec0:=Bun_spec)).
Qed.

Lemma Worker_wf_set (chs : gmap string Challenge) (ses : gmap string Session)
  (st : Worker.State) :
  Worker_wf st → Worker_wf (Worker.set_sessions ses (Worker.set_challenges chs st)).
Proof. intros [H1 H2 H3]. by split. Qed.

Lemma Worker_wf_handlers `{Platform} (cfg : Config) (hiveHeader : option string)
  (now : Z) (uuid : string) (token header : option string) (st : Worker.State) :
  Worker_wf st →
  (∀ body, Worker_wf (Worker.challenge hiveHeader now uuid body st).2)
  ∧ (∀ body r st', Worker.join cfg hiveHeader now uuid body st = Ret (r, st') →
                   Worker_wf st')
  ∧ (∀ body, Worker_wf (Worker.post_message hiveHeader now uuid token body st).2)
  ∧ (∀ since limit,
       Worker_wf (Worker.get_messages hiveHeader now token since limit st).1)
  ∧ (∀ incoming, Worker_wf (Worker.push cfg hiveHeader now header incoming st).1)
  ∧ (∀ answers, Worker_wf (Worker.alarm cfg now answers st)).
Proof.
  intros Hwf0. pose proof (Worker_enter_wf hiveHeader st Hwf0) as Hwf.
  assert (Hses : ∀ ses, Worker_wf (Worker.set_sessions ses (Worker.enter hiveHeader st))).
  { intros ses. destruct Hwf as [H1 H2 H3]. by split. }
  split; [|split; [|split; [|split; [|split]]]].
  - intros body. unfold Worker.challenge.
    destruct (challenge_handler _ _ _ _ _) as [r chs].
    destruct Hwf as [H1 H2 H3]. by split.
  - intros body r st'. unfold Worker.join.
    destruct (join_handler _ _ _ _ _ _) as [[r0 e]|]; [|done].
    intros [= <- <-]. by apply Worker_wf_set.
  - intros body. unfold Worker.post_message.
    destruct (requireSession now token _) as [[session|] ses]; [|apply Hses].
    destruct body as [[[c|] ch]|]; try apply Hses.
    case_match; [apply Hses|].
    match goal with
    | |- context [Worker.storeMessage ?i ?s] =>
        pose proof (Worker_wf_storeMessage i s) as Hst;
        destruct (Worker.storeMessage i s) as [[m|] st1]
    end; apply Hst, Hses.
  - intros since limit. unfold Worker.get_messages.
    destruct (requireSession now token _) as [[session|] ses]; [|apply Hses].
    destruct (Worker.storage_list _ _); apply Hses.
  - intros incoming. by apply (gossip_push_inv (HostSpec0:=Worker_spec)).
  - intros answers. by apply (pollPeers_inv (HostSpec0:=Worker_spec)).
Qed.

(** Every store a server can be in is well-formed. *)
Lemma Bun_reachable_wf `{Platform} (cfg : Config) (st : Bun.State) :
  Bun_reachable cfg st → Bun_wf st.
Proof.
  induction 1 as [|st now uuid body _ IH|st now uuid body r st' _ IH Hjoin
                  |st now uuid token body _ IH|st now token since limitParam _ IH
                  |st now header incoming _ IH|st now peer sinceMs answer _ IH].
  - apply Bun_wf_initial.
  - by apply (Bun_wf_handlers cfg now uuid None None st IH).
  - by apply (Bun_wf_handlers cfg now uuid None None st IH) in Hjoin.
  - by apply (Bun_wf_handlers cfg now uuid token None st IH).
  - by apply (Bun_wf_handlers cfg now "" token None st IH).
  - by apply (Bun_wf_handlers cfg now "" None header st IH).
  - by apply (poll_merge_inv (HostSpec0:=Bun_spec)).
Qed.

Lemma Worker_reachable_wf `{Platform} (cfg : Config) (st : Worker.State) :
  Worker_reachable cfg st → Worker_wf st.
Proof.
  induction 1 as [|st hh now uuid body _ IH|st hh now uuid body r st' _ IH Hjoin
                  |st hh now uuid token body _ IH|st hh now token since limitParam _ IH
                  |st hh header sinceMs limitParam _ IH
                  |st hh now header incoming _ IH|st now peer sinceMs answer _ IH].
  - apply Worker_wf_initial.
  - by apply (Worker_wf_handlers cfg hh now uuid None None st IH).
  - by apply (Worker_wf_handlers cfg hh now uuid None None st IH) in Hjoin.
  - by apply (Worker_wf_handlers cfg hh now uuid token None st IH).
  - by apply (Worker_wf_handlers cfg hh now "" token None st IH).
  - unfold Worker.gossip_messages. case_match; simpl; [by apply Worker_enter_wf|].
    destruct (Worker.storage_list _ _); by apply Worker_enter_wf.
  - by apply (Worker_wf_handlers cfg hh now "" None header st IH).
  - by apply (poll_merge_inv (HostSpec0:=Worker_spec)).
Qed.
